(** * devkit/docker/build.py: content-addressable image builds

    A shallow embedding of [src/devkit/docker/build.py] and of the parts of
    the Python standard library it drives ([hashlib.sha256],
    [graphlib.TopologicalSorter], [subprocess.run]), followed by the
    properties of the build order, the content hash, the tag format and the
    local / remote / build decision procedure.

    Conventions of the embedding:
    - a Python [str] is the list of its code points ([pystr]);
    - a Python [dict] is an association list in insertion order ([dict]);
    - a Python [set] is a list of its members; each time the interpreter
      iterates over a set (or pops from it) the order is chosen by an
      oracle ([SetOrder]) about which nothing is known except that it
      enumerates every member once;
    - the file system, the JSON decoder and the container runtime are the
      fields of a [World];
    - [print] and [subprocess.run] append to the event log of the [State];
      [sys.exit] and uncaught exceptions end the computation ([Outcome]). *)

From Stdlib Require Import String Ascii.
From Stdlib Require Import List ZArith NArith Lia Bool Arith Relations Permutation.
From Stdlib Require Import Init.Byte.
Import ListNotations.

Set Implicit Arguments.

(* ================================================================== *)
(** * Part I: definitions                                              *)
(* ================================================================== *)

(** ** Python strings *)

Definition pystr := list N.

Definition pystr_eq_dec : forall a b : pystr, {a = b} + {a <> b} :=
  list_eq_dec N.eq_dec.

Definition str_eqb (a b : pystr) : bool :=
  if pystr_eq_dec a b then true else false.

(** An ASCII literal as a Python string. *)
Definition py (s : string) : pystr := map N_of_ascii (list_ascii_of_string s).

(** Truth value of a string: [if s:], [if not s:]. *)
Definition truthy (s : pystr) : bool :=
  match s with [] => false | _ :: _ => true end.

(** [x in l] for a list (or set) of strings. *)
Definition mem (x : pystr) (l : list pystr) : bool :=
  existsb (str_eqb x) l.

(** [a <= b] on strings: lexicographic on code points. *)
Fixpoint str_leb (a b : pystr) : bool :=
  match a, b with
  | [], _ => true
  | _ :: _, [] => false
  | x :: a', y :: b' =>
      if (x <? y)%N then true
      else if (y <? x)%N then false
      else str_leb a' b'
  end.

Fixpoint insert_sorted (x : pystr) (l : list pystr) : list pystr :=
  match l with
  | [] => [x]
  | y :: l' => if str_leb x y then x :: l else y :: insert_sorted x l'
  end.

(** [l.sort()].  The order on strings is total and two strings that compare
    equal are the same string, so the sorted list does not depend on the
    sorting algorithm. *)
Definition list_sort (l : list pystr) : list pystr :=
  fold_right insert_sorted [] l.

(** ** Python dictionaries with string keys, in insertion order *)

Section Dict.
Variable V : Type.

Definition dict := list (pystr * V).

Fixpoint dict_get (k : pystr) (d : dict) : option V :=
  match d with
  | [] => None
  | (k', v) :: d' => if str_eqb k k' then Some v else dict_get k d'
  end.

Definition dict_mem (k : pystr) (d : dict) : bool :=
  match dict_get k d with Some _ => true | None => false end.

(** [d[k] = v]: an existing key keeps its position. *)
Fixpoint dict_set (k : pystr) (v : V) (d : dict) : dict :=
  match d with
  | [] => [(k, v)]
  | (k', v') :: d' =>
      if str_eqb k k' then (k', v) :: d' else (k', v') :: dict_set k v d'
  end.

(** [del d[k]]. *)
Fixpoint dict_del (k : pystr) (d : dict) : dict :=
  match d with
  | [] => []
  | (k', v') :: d' =>
      if str_eqb k k' then d' else (k', v') :: dict_del k d'
  end.

(** [d.update(d2)]. *)
Definition dict_update (d d2 : dict) : dict :=
  fold_left (fun acc kv => dict_set (fst kv) (snd kv) acc) d2 d.

Definition dict_keys (d : dict) : list pystr := map fst d.
Definition dict_values (d : dict) : list V := map snd d.

(** The keys of a dictionary are pairwise different. *)
Definition dict_wf (d : dict) : Prop := NoDup (dict_keys d).
End Dict.

Arguments dict_get {V} k d.
Arguments dict_mem {V} k d.
Arguments dict_set {V} k v d.
Arguments dict_del {V} k d.
Arguments dict_update {V} d d2.
Arguments dict_keys {V} d.
Arguments dict_values {V} d.
Arguments dict_wf {V} d.

(** ** hashlib.sha256 *)

Module hashlib.

Local Open Scope N_scope.

Definition mask32 : N := 0xFFFFFFFF.
Definition add32 (x y : N) : N := N.land (x + y) mask32.
Definition not32 (x : N) : N := N.lxor x mask32.
Definition rotr (n x : N) : N :=
  N.lor (N.shiftr x n) (N.land (N.shiftl x (32 - n)) mask32).

Definition Ch (x y z : N) : N := N.lxor (N.land x y) (N.land (not32 x) z).
Definition Maj (x y z : N) : N :=
  N.lxor (N.lxor (N.land x y) (N.land x z)) (N.land y z).
Definition bsig0 (x : N) : N :=
  N.lxor (N.lxor (rotr 2 x) (rotr 13 x)) (rotr 22 x).
Definition bsig1 (x : N) : N :=
  N.lxor (N.lxor (rotr 6 x) (rotr 11 x)) (rotr 25 x).
Definition ssig0 (x : N) : N :=
  N.lxor (N.lxor (rotr 7 x) (rotr 18 x)) (N.shiftr x 3).
Definition ssig1 (x : N) : N :=
  N.lxor (N.lxor (rotr 17 x) (rotr 19 x)) (N.shiftr x 10).

(** The first sixty-four primes. *)
Definition primes : list N :=
  [ 2; 3; 5; 7; 11; 13; 17; 19; 23; 29; 31; 37; 41; 43; 47; 53;
    59; 61; 67; 71; 73; 79; 83; 89; 97; 101; 103; 107; 109; 113; 127; 131;
    137; 139; 149; 151; 157; 163; 167; 173; 179; 181; 191; 193; 197; 199;
    211; 223; 227; 229; 233; 239; 241; 251; 257; 263; 269; 271; 277; 281;
    283; 293; 307; 311 ].

(** Integer cube root, one bit at a time from bit 39 down. *)
Definition cube_root (n : N) : N :=
  fold_left
    (fun r b => let c := r + 2 ^ N.of_nat b in if c * c * c <=? n then c else r)
    (rev (seq 0 40)) 0.

(** The round constants: the first 32 bits of the fractional parts of the
    cube roots of the primes. *)
Definition K256 : list N :=
  map (fun p => N.land (cube_root (p * 2 ^ 96)) mask32) primes.

(** The initial chaining value: the first 32 bits of the fractional parts
    of the square roots of the first eight primes. *)
Definition H256 : list N :=
  map (fun p => N.land (N.sqrt (p * 2 ^ 64)) mask32) (firstn 8 primes).

(** Big-endian 32-bit words of a block of bytes. *)
Fixpoint words_of (bs : list N) : list N :=
  match bs with
  | b0 :: b1 :: b2 :: b3 :: rest =>
      (N.shiftl b0 24 + N.shiftl b1 16 + N.shiftl b2 8 + b3) :: words_of rest
  | _ => []
  end.

(** The sixty-four rounds; [win] holds the sixteen schedule words
    [W t .. W (t+15)]. *)
Fixpoint rounds (ks : list N) (win : list N) (r : list N) : list N :=
  match ks with
  | [] => r
  | k :: ks' =>
      let w := nth 0 win 0 in
      let next :=
        add32 (add32 (ssig1 (nth 14 win 0)) (nth 9 win 0))
              (add32 (ssig0 (nth 1 win 0)) w) in
      let a := nth 0 r 0 in let b := nth 1 r 0 in
      let c := nth 2 r 0 in let d := nth 3 r 0 in
      let e := nth 4 r 0 in let f := nth 5 r 0 in
      let g := nth 6 r 0 in let h := nth 7 r 0 in
      let t1 := add32 (add32 (add32 h (bsig1 e)) (add32 (Ch e f g) k)) w in
      let t2 := add32 (bsig0 a) (Maj a b c) in
      rounds ks' (tl win ++ [next])
             [add32 t1 t2; a; b; c; add32 d t1; e; f; g]
  end.

Fixpoint add_words (xs ys : list N) : list N :=
  match xs, ys with
  | x :: xs', y :: ys' => add32 x y :: add_words xs' ys'
  | _, _ => []
  end.

Definition compress (h : list N) (block : list N) : list N :=
  add_words h (rounds K256 (words_of block) h).

(** The hash object: chaining value, bytes of the unfinished block and
    number of bytes absorbed so far. *)
Record sha256_state := mk_sha256 {
  chain : list N;
  pending : list N;
  absorbed : N
}.

(** [hashlib.sha256()] *)
Definition sha256 : sha256_state := mk_sha256 H256 [] 0.

Definition absorb (s : sha256_state) (b : byte) : sha256_state :=
  let buf := pending s ++ [Byte.to_N b] in
  if (length buf =? 64)%nat
  then mk_sha256 (compress (chain s) buf) [] (absorbed s + 1)
  else mk_sha256 (chain s) buf (absorbed s + 1).

(** [hasher.update(data)] *)
Definition update (s : sha256_state) (data : list byte) : sha256_state :=
  fold_left absorb data s.

Fixpoint be_bytes (n : nat) (x : N) : list N :=
  match n with
  | O => []
  | S n' => be_bytes n' (N.shiftr x 8) ++ [N.land x 0xFF]
  end.

(** Padding of the last block: a one bit, zeros up to 56 modulo 64, and
    the message length in bits on eight bytes. *)
Definition padding (s : sha256_state) : list N :=
  let len := length (pending s) in
  let zeros := if (len <? 56)%nat then (55 - len)%nat else (119 - len)%nat in
  pending s ++ [0x80] ++ repeat 0 zeros ++ be_bytes 8 (8 * absorbed s).

Definition digest_words (s : sha256_state) : list N :=
  let p := padding s in
  if (length p =? 64)%nat then compress (chain s) p
  else compress (compress (chain s) (firstn 64 p)) (skipn 64 p).

Definition hex_digit (n : N) : N :=
  if n <? 10 then 48 + n else 87 + n.

Definition hex_of_byte (b : N) : pystr :=
  [hex_digit (N.shiftr b 4); hex_digit (N.land b 0xF)].

(** [hasher.hexdigest()] *)
Definition hexdigest (s : sha256_state) : pystr :=
  flat_map hex_of_byte (flat_map (be_bytes 4) (digest_words s)).

(** The digest of a whole message: [hashlib.sha256(data).hexdigest()]. *)
Definition sha256_hex (data : list byte) : pystr :=
  hexdigest (update sha256 data).

End hashlib.

(** ** str.encode("utf-8") *)

Definition byte_of_N (n : N) : byte :=
  match Byte.of_N n with Some b => b | None => x00 end.

(** The bytes of one code point; surrogates have no encoding. *)
Definition utf8_code_point (c : N) : option (list byte) :=
  (if c <? 0x80 then Some [byte_of_N c]
   else if c <? 0x800 then
     Some [byte_of_N (0xC0 + N.shiftr c 6); byte_of_N (0x80 + N.land c 0x3F)]
   else if (0xD800 <=? c) && (c <=? 0xDFFF) then None
   else if c <? 0x10000 then
     Some [byte_of_N (0xE0 + N.shiftr c 12);
           byte_of_N (0x80 + N.land (N.shiftr c 6) 0x3F);
           byte_of_N (0x80 + N.land c 0x3F)]
   else if c <=? 0x10FFFF then
     Some [byte_of_N (0xF0 + N.shiftr c 18);
           byte_of_N (0x80 + N.land (N.shiftr c 12) 0x3F);
           byte_of_N (0x80 + N.land (N.shiftr c 6) 0x3F);
           byte_of_N (0x80 + N.land c 0x3F)]
   else None)%N.

Fixpoint encode_utf8 (s : pystr) : option (list byte) :=
  match s with
  | [] => Some []
  | c :: s' =>
      match utf8_code_point c, encode_utf8 s' with
      | Some bs, Some rest => Some (bs ++ rest)
      | _, _ => None
      end
  end.

(** ** Outcomes of a computation *)

Inductive Exn :=
| CalledProcessError (returncode : Z) (cmd : list pystr) (stdout stderr : pystr)
| FileNotFoundError
| OSError
| UnicodeDecodeError
| UnicodeEncodeError
| KeyError (key : pystr)
| IndexError
| ValueError
| AssertionError
| CycleError (cycle : list pystr).

(** A computation returns, leaves through [sys.exit], or dies of an
    exception nobody caught.  [Unfinished] is the answer of a loop of the
    embedding that was given too little fuel; the loops below are always
    given enough (lemmas [reach_spec], [walk_spec] and
    [static_loop_spec]). *)
Inductive Outcome (A : Type) :=
| Ret (a : A)
| Exit (code : Z)
| Raise (e : Exn)
| Unfinished.

Arguments Ret {A} a.
Arguments Exit {A} code.
Arguments Raise {A} e.
Arguments Unfinished {A}.

Definition obind {A B : Type} (o : Outcome A) (k : A -> Outcome B) : Outcome B :=
  match o with
  | Ret a => k a
  | Exit c => Exit c
  | Raise e => Raise e
  | Unfinished => Unfinished
  end.

Declare Scope outcome_scope.
Delimit Scope outcome_scope with outcome.
Notation "x <~ e ;; k" := (obind e (fun x => k))
  (at level 61, e at next level, right associativity) : outcome_scope.

(** ** graphlib.TopologicalSorter

    The embedding follows CPython's [Lib/graphlib.py].  The sorter's
    [_node2info] maps a node to its [_NodeInfo]: the number of predecessors
    not yet done (or one of the two marks below) and the list of its
    successors. *)

Module graphlib.

Local Open Scope outcome_scope.
Local Open Scope Z_scope.

Definition NODE_OUT : Z := -1.
Definition NODE_DONE : Z := -2.

Record NodeInfo := mkNodeInfo {
  npredecessors : Z;
  successors : list pystr
}.

Record TopologicalSorter := mkSorter {
  node2info : dict NodeInfo;
  ready_nodes : option (list pystr);
  npassedout : Z;
  nfinished : Z
}.

(** Assignment to a field of the [_NodeInfo] stored under [node]. *)
Definition modify (node : pystr) (f : NodeInfo -> NodeInfo)
    (n2i : dict NodeInfo) : dict NodeInfo :=
  match dict_get node n2i with
  | Some info => dict_set node (f info) n2i
  | None => n2i
  end.

(** [_get_nodeinfo]: the dictionary once the node has an entry. *)
Definition get_nodeinfo (node : pystr) (n2i : dict NodeInfo) : dict NodeInfo :=
  if dict_mem node n2i then n2i else dict_set node (mkNodeInfo 0 []) n2i.

Definition add_successor (node : pystr) (n2i : dict NodeInfo) (pred : pystr)
    : dict NodeInfo :=
  modify pred (fun i => mkNodeInfo (npredecessors i) (successors i ++ [node]))
         (get_nodeinfo pred n2i).

Definition add (ts : TopologicalSorter) (node : pystr)
    (predecessors : list pystr) : Outcome TopologicalSorter :=
  match ready_nodes ts with
  | Some _ => Raise ValueError
  | None =>
      let n2i := get_nodeinfo node (node2info ts) in
      let n2i :=
        modify node
          (fun i => mkNodeInfo
                      (npredecessors i + Z.of_nat (length predecessors))
                      (successors i)) n2i in
      let n2i := fold_left (add_successor node) predecessors n2i in
      Ret (mkSorter n2i None (npassedout ts) (nfinished ts))
  end.

Fixpoint add_all (ts : TopologicalSorter) (items : dict (list pystr))
    : Outcome TopologicalSorter :=
  match items with
  | [] => Ret ts
  | (node, predecessors) :: items' =>
      ts' <~ add ts node predecessors ;; add_all ts' items'
  end.

(** [TopologicalSorter(graph)] *)
Definition init (graph : dict (list pystr)) : Outcome TopologicalSorter :=
  add_all (mkSorter [] None 0 0) graph.

(** *** _find_cycle

    [stack] and [itstack] are kept with their top first: Python's [stack]
    is [rev (stack d)].  An entry of [itstack] is what its iterator has
    still to yield. *)

Record Dfs := mkDfs {
  stack : list pystr;
  itstack : list (list pystr);
  seen : list pystr;
  node2stacki : dict nat
}.

(** The inner [while stack:] loop: the next successor of the topmost
    entry that still has one, popping the exhausted entries. *)
Fixpoint backtrack (stk : list pystr) (its : list (list pystr))
    (n2s : dict nat) (sn : list pystr) : Outcome (option pystr * Dfs) :=
  match stk with
  | [] => Ret (None, mkDfs stk its sn n2s)
  | top :: stk' =>
      match its with
      | [] => Raise IndexError
      | [] :: its' =>
          if dict_mem top n2s
          then backtrack stk' its' (dict_del top n2s) sn
          else Raise (KeyError top)
      | (next :: more) :: its' =>
          Ret (Some next, mkDfs stk (more :: its') sn n2s)
      end
  end.

(** One pass of the [while True:] loop on [node]. *)
Definition visit (n2i : dict NodeInfo) (node : pystr) (d : Dfs)
    : Outcome (list pystr + Dfs) :=
  if mem node (seen d) then
    match dict_get node (node2stacki d) with
    | Some i => Ret (inl (skipn i (rev (stack d)) ++ [node]))
    | None => Ret (inr d)
    end
  else
    match dict_get node n2i with
    | None => Raise (KeyError node)
    | Some info =>
        Ret (inr (mkDfs (node :: stack d)
                        (successors info :: itstack d)
                        (seen d ++ [node])
                        (dict_set node (length (stack d)) (node2stacki d))))
    end.

Fixpoint walk (fuel : nat) (n2i : dict NodeInfo) (node : pystr) (d : Dfs)
    : Outcome (option (list pystr) * Dfs) :=
  match fuel with
  | O => Unfinished
  | S fuel' =>
      r <~ visit n2i node d ;;
      match r with
      | inl cycle => Ret (Some cycle, d)
      | inr d1 =>
          b <~ backtrack (stack d1) (itstack d1) (node2stacki d1) (seen d1) ;;
          match b with
          | (Some next, d2) => walk fuel' n2i next d2
          | (None, d2) => Ret (None, d2)
          end
      end
  end.

Definition edges (n2i : dict NodeInfo) : nat :=
  list_sum (map (fun kv => length (successors (snd kv))) n2i).

(** The [for node in n2i:] loop. *)
Fixpoint find_cycle_from (n2i : dict NodeInfo) (roots : list pystr) (d : Dfs)
    : Outcome (option (list pystr)) :=
  match roots with
  | [] => Ret None
  | node :: roots' =>
      if mem node (seen d) then find_cycle_from n2i roots' d
      else
        r <~ walk (S (edges n2i)) n2i node d ;;
        match r with
        | (Some cycle, _) => Ret (Some cycle)
        | (None, d') => find_cycle_from n2i roots' d'
        end
  end.

Definition find_cycle (ts : TopologicalSorter) : Outcome (option (list pystr)) :=
  find_cycle_from (node2info ts) (dict_keys (node2info ts)) (mkDfs [] [] [] []).

Definition zero_predecessors (kv : pystr * NodeInfo) : bool :=
  npredecessors (snd kv) =? 0.

Definition prepare (ts : TopologicalSorter) : Outcome TopologicalSorter :=
  match ready_nodes ts with
  | Some _ => Raise ValueError
  | None =>
      let ts' :=
        mkSorter (node2info ts)
                 (Some (map fst (filter zero_predecessors (node2info ts))))
                 (npassedout ts) (nfinished ts) in
      cycle <~ find_cycle ts' ;;
      match cycle with
      | Some ((_ :: _) as c) => Raise (CycleError c)
      | _ => Ret ts'
      end
  end.

Fixpoint mark_out (n2i : dict NodeInfo) (nodes : list pystr)
    : Outcome (dict NodeInfo) :=
  match nodes with
  | [] => Ret n2i
  | node :: nodes' =>
      match dict_get node n2i with
      | None => Raise (KeyError node)
      | Some info =>
          mark_out (dict_set node (mkNodeInfo NODE_OUT (successors info)) n2i)
                   nodes'
      end
  end.

Definition get_ready (ts : TopologicalSorter)
    : Outcome (list pystr * TopologicalSorter) :=
  match ready_nodes ts with
  | None => Raise ValueError
  | Some result =>
      n2i <~ mark_out (node2info ts) result ;;
      Ret (result,
           mkSorter n2i (Some [])
                    (npassedout ts + Z.of_nat (length result)) (nfinished ts))
  end.

Definition is_active (ts : TopologicalSorter) : Outcome bool :=
  match ready_nodes ts with
  | None => Raise ValueError
  | Some ready =>
      Ret ((nfinished ts <? npassedout ts)
           || match ready with [] => false | _ :: _ => true end)
  end.

(** The [for successor in nodeinfo.successors:] loop of [done]. *)
Fixpoint release (n2i : dict NodeInfo) (ready : list pystr)
    (succs : list pystr) : Outcome (dict NodeInfo * list pystr) :=
  match succs with
  | [] => Ret (n2i, ready)
  | successor :: succs' =>
      match dict_get successor n2i with
      | None => Raise (KeyError successor)
      | Some info =>
          let n := npredecessors info - 1 in
          let n2i' := dict_set successor (mkNodeInfo n (successors info)) n2i in
          release n2i' (if n =? 0 then ready ++ [successor] else ready) succs'
      end
  end.

Definition done_one (ts : TopologicalSorter) (node : pystr)
    : Outcome TopologicalSorter :=
  match ready_nodes ts with
  | None => Raise ValueError
  | Some ready =>
      match dict_get node (node2info ts) with
      | None => Raise ValueError
      | Some nodeinfo =>
          let stat := npredecessors nodeinfo in
          if negb (stat =? NODE_OUT) then
            if 0 <=? stat then Raise ValueError
            else if stat =? NODE_DONE then Raise ValueError
            else Raise AssertionError
          else
            let n2i :=
              dict_set node (mkNodeInfo NODE_DONE (successors nodeinfo))
                       (node2info ts) in
            r <~ release n2i ready (successors nodeinfo) ;;
            Ret (mkSorter (fst r) (Some (snd r))
                          (npassedout ts) (nfinished ts + 1))
      end
  end.

Fixpoint done (ts : TopologicalSorter) (nodes : list pystr)
    : Outcome TopologicalSorter :=
  match nodes with
  | [] =>
      match ready_nodes ts with
      | None => Raise ValueError
      | Some _ => Ret ts
      end
  | node :: nodes' => ts' <~ done_one ts node ;; done ts' nodes'
  end.

(** The [while self.is_active():] loop of [static_order], with the nodes
    yielded so far. *)
Fixpoint static_loop (fuel : nat) (ts : TopologicalSorter)
    (yielded : list pystr) : Outcome (list pystr) :=
  match fuel with
  | O => Unfinished
  | S fuel' =>
      active <~ is_active ts ;;
      if active : bool then
        r <~ get_ready ts ;;
        ts' <~ done (snd r) (fst r) ;;
        static_loop fuel' ts' (yielded ++ fst r)
      else Ret yielded
  end.

(** [list(ts.static_order())] *)
Definition static_order (ts : TopologicalSorter) : Outcome (list pystr) :=
  ts' <~ prepare ts ;;
  static_loop (S (length (node2info ts'))) ts' [].

(** [list(graphlib.TopologicalSorter(graph).static_order())] *)
Definition sorted (graph : dict (list pystr)) : Outcome (list pystr) :=
  ts <~ init graph ;; static_order ts.

End graphlib.

(** ** The world outside the script *)

(** What [print] writes, one constructor per call site of the script. *)
Inductive Message :=
| ConfigDecodeError (config_path : pystr)
| LoadingImageConfigs (deps_file : pystr)
| NotADictWarning (deps_file : pystr)
| DepsDecodeError (deps_file : pystr)
| CheckingLocal (tag : pystr)
| ExistsLocally (tag : pystr)
| CheckingRemote (tag : pystr)
| FoundRemote (tag : pystr)
| Stripped (text : pystr)
| PulledSuccessfully (tag : pystr)
| NotFoundBuilding (tag : pystr)
| ExecutingBuild (cmd : list pystr)
| BuiltSuccessfully (tag : pystr)
| Pushing (tag : pystr)
| PushedSuccessfully (tag : pystr)
| PushWarning (tag : pystr)
| PushDetails (stderr : pystr)
| DockerOperationError (tag : pystr)
| FailedCommand (cmd : list pystr)
| FailedStdout (stdout : pystr)
| FailedStderr (stderr : pystr)
| DockerNotFound
| Processing (image_name : pystr)
| DockerfileNotFound (dockerfile_name image_name : pystr) (search_paths : list pystr)
| DependencyTagNotFound (dep_image_name image_name arg_name : pystr)
| EnsureBuildOrder
| BuildArg (image_name arg_name dep_image_name dep_tag : pystr)
| DockerfileDisappeared (dockerfile_path image_name : pystr)
| ShaInfo (dockerfile_path : pystr) (build_args : list pystr) (sha : pystr)
| TagFor (image_name tag : pystr)
| PlainTag (tag : pystr)
| FinishedProcessing (image_name : pystr)
| SubgraphCycle (target : pystr) (cycle : list pystr)
| PrintTagNeedsTarget
| PrintTagInvalidTarget (target : pystr)
| InvalidTarget (target : pystr)
| ChooseFrom (names : list pystr)
| ProcessingTarget (target : pystr) (images : list pystr)
| ProcessingAll
| FullGraphCycle (cycle : list pystr)
| PrintTagNotProcessed (target : option pystr)
| TargetProcessed (target : pystr)
| AllProcessed.

(** What the script does to the outside: it prints, and it runs commands. *)
Inductive Event :=
| Print (m : Message)
| Run (argv : list pystr).

(** [class ImageConfig(TypedDict): deps: Dict[str, str]] *)
Record ImageConfig := mkImageConfig { deps : dict pystr }.

Definition ImageConfigsMap := dict ImageConfig.

(** What [os.path.exists] and [open] find under a path. *)
Inductive FileEntry :=
| NoEntry
| RegularFile (content : list byte)
| Unreadable.

(** What [json.load] makes of a file. *)
Inductive JsonLoad (A : Type) :=
| Decoded (a : A)
| JSONDecodeError
| NotUnicode.

Arguments Decoded {A} a.
Arguments JSONDecodeError {A}.
Arguments NotUnicode {A}.

(** A decoded [devkit.json], as far as the script reads it:
    [config["docker"]["registry"]], each level present or not. *)
Record DockerSection := mkDockerSection { registry : option pystr }.
Record Config := mkConfig { docker : option DockerSection }.

(** A decoded [deps.json]: a dictionary of image configs, or something
    that is not a dictionary. *)
Inductive DepsDocument :=
| DepsDict (configs : ImageConfigsMap)
| DepsOther.

(** What [subprocess.run] meets. *)
Inductive RunOutcome :=
| Completed (returncode : Z) (stdout stderr : pystr)
| RunRaises (e : Exn).

Record World := mkWorld {
  fs : pystr -> FileEntry;
  path_join : pystr -> pystr -> pystr;
  path_realpath : pystr -> pystr;
  path_dirname : pystr -> pystr;
  json_config : list byte -> JsonLoad Config;
  json_deps : list byte -> JsonLoad DepsDocument;
  (** the answer to a command, given everything that happened before *)
  runtime : list Event -> list pystr -> RunOutcome
}.

(** Where the script iterates over a set or pops from one. *)
Inductive SetSite :=
| DepsOf (name : pystr)
| Worklist (step : nat)
| Visited.

(** The order in which the interpreter enumerates the members of a set
    built from the given elements. *)
Record SetOrder := mkSetOrder {
  set_iter : SetSite -> list pystr -> list pystr;
  set_iter_NoDup : forall site l, NoDup (set_iter site l);
  set_iter_In : forall site l x, In x (set_iter site l) <-> In x l
}.

(** The order of first insertion: one order the interpreter could follow. *)
Definition insertion_order : SetOrder :=
  mkSetOrder (fun _ l => nodup pystr_eq_dec l)
             (fun _ l => NoDup_nodup pystr_eq_dec l)
             (fun _ l x => nodup_In pystr_eq_dec l x).

(** ** State of the script *)

Record State := mkState {
  REPO : pystr;
  events : list Event
}.

(** [REPO = ""] and nothing has happened. *)
Definition initial_state : State := mkState [] [].

Definition ARCH : pystr := py "amd64".

Definition M (A : Type) : Type := State -> Outcome A * State.

Definition ret {A : Type} (a : A) : M A := fun st => (Ret a, st).

Definition bind {A B : Type} (m : M A) (k : A -> M B) : M B :=
  fun st =>
    match m st with
    | (Ret a, st') => k a st'
    | (Exit c, st') => (Exit c, st')
    | (Raise e, st') => (Raise e, st')
    | (Unfinished, st') => (Unfinished, st')
    end.

Declare Scope script_scope.
Delimit Scope script_scope with script.
Notation "x <- e ;; k" := (bind e (fun x => k))
  (at level 61, e at next level, right associativity) : script_scope.
Notation "e ;; k" := (bind e (fun _ => k))
  (at level 61, right associativity) : script_scope.

Definition lift {A : Type} (o : Outcome A) : M A := fun st => (o, st).

Definition print (m : Message) : M unit :=
  fun st => (Ret tt, mkState (REPO st) (events st ++ [Print m])).

Definition sys_exit {A : Type} (code : Z) : M A := fun st => (Exit code, st).

Definition raise {A : Type} (e : Exn) : M A := fun st => (Raise e, st).

(** [if cond: body] *)
Definition when (cond : bool) (body : M unit) : M unit :=
  if cond then body else ret tt.

(** [try: body except ...: handler]; a handler that does not take the
    exception raises it again. *)
Definition try_except {A : Type} (body : M A) (handler : Exn -> M A) : M A :=
  fun st =>
    match body st with
    | (Raise e, st') => handler e st'
    | r => r
    end.

Section Script.

Variable W : World.
Variable order : SetOrder.

Local Open Scope script_scope.

Definition path_exists (p : pystr) : bool :=
  match fs W p with NoEntry => false | _ => true end.

(** [with open(p, ...) as f: f.read()] *)
Definition read_file (p : pystr) : Outcome (list byte) :=
  match fs W p with
  | NoEntry => Raise FileNotFoundError
  | RegularFile content => Ret content
  | Unreadable => Raise OSError
  end.

(** [subprocess.run(argv, check=..., text=True, capture_output=True)] *)
Definition subprocess_run (argv : list pystr) (check : bool)
    : M (Z * pystr * pystr) :=
  fun st =>
    let st' := mkState (REPO st) (events st ++ [Run argv]) in
    match runtime W (events st) argv with
    | Completed rc out err =>
        if check && negb (rc =? 0)%Z
        then (Raise (CalledProcessError rc argv out err), st')
        else (Ret (rc, out, err), st')
    | RunRaises e => (Raise e, st')
    end.

(** *** load_config *)

Definition load_config (config_path : pystr) : M unit :=
  if path_exists config_path then
    content <- lift (read_file config_path) ;;
    match json_config W content with
    | Decoded config =>
        match docker config with
        | Some section =>
            match registry section with
            | Some r => fun st => (Ret tt, mkState r (events st))
            | None => ret tt
            end
        | None => ret tt
        end
    | JSONDecodeError => print (ConfigDecodeError config_path) ;; sys_exit 1
    | NotUnicode => raise UnicodeDecodeError
    end
  else ret tt.

(** *** load_image_configs *)

Fixpoint load_image_configs_from (search_paths : list pystr)
    (all_configs : ImageConfigsMap) : M ImageConfigsMap :=
  match search_paths with
  | [] => ret all_configs
  | path :: search_paths' =>
      let deps_file := path_join W path (py "deps.json") in
      if path_exists deps_file then
        print (LoadingImageConfigs deps_file) ;;
        content <- lift (read_file deps_file) ;;
        match json_deps W content with
        | Decoded (DepsDict configs) =>
            load_image_configs_from search_paths'
                                    (dict_update all_configs configs)
        | Decoded DepsOther =>
            print (NotADictWarning deps_file) ;;
            load_image_configs_from search_paths' all_configs
        | JSONDecodeError => print (DepsDecodeError deps_file) ;; sys_exit 1
        | NotUnicode => raise UnicodeDecodeError
        end
      else load_image_configs_from search_paths' all_configs
  end.

Definition load_image_configs (search_paths : list pystr) : M ImageConfigsMap :=
  load_image_configs_from search_paths [].

(** *** calculate_sha256 *)

(** The [for arg_val_pair in sorted_build_args:] loop. *)
Fixpoint update_with_args (hasher : hashlib.sha256_state)
    (sorted_build_args : list pystr) : Outcome hashlib.sha256_state :=
  match sorted_build_args with
  | [] => Ret hasher
  | arg_val_pair :: rest =>
      match encode_utf8 arg_val_pair with
      | Some bytes => update_with_args (hashlib.update hasher bytes) rest
      | None => Raise UnicodeEncodeError
      end
  end.

Definition calculate_sha256 (dockerfile_path : pystr)
    (sorted_build_args : list pystr) : Outcome pystr :=
  (let hasher := hashlib.sha256 in
   content <~ read_file dockerfile_path ;;
   let hasher := hashlib.update hasher content in
   hasher <~ update_with_args hasher sorted_build_args ;;
   Ret (hashlib.hexdigest hasher))%outcome.

(** *** get_image_tag; [repo] is the value of the global [REPO] *)

Definition get_image_tag (repo : pystr) (image_name sha : pystr) : pystr :=
  let image_path := py "devkit/" ++ image_name in
  let tag_suffix := ARCH ++ py "-" ++ sha in
  if truthy repo
  then repo ++ py "/" ++ image_path ++ py ":" ++ tag_suffix
  else image_path ++ py ":" ++ tag_suffix.

(** *** manage_docker_image *)

(** The [while idx < len(build_args_list):] loop. *)
Fixpoint build_arg_flags (build_args_list : list pystr)
    : Outcome (list pystr) :=
  match build_args_list with
  | [] => Ret []
  | [_] => Raise IndexError
  | arg_name :: arg_value :: rest =>
      (flags <~ build_arg_flags rest ;;
       Ret (py "--build-arg" :: (arg_name ++ py "=" ++ arg_value) :: flags))%outcome
  end.

Definition print_output (out err : pystr) : M unit :=
  when (truthy out) (print (Stripped out)) ;;
  when (truthy err) (print (Stripped err)).

Definition inspect_cmd (tag : pystr) : list pystr :=
  [py "docker"; py "image"; py "inspect"; tag].

Definition manifest_inspect_cmd (tag : pystr) : list pystr :=
  [py "docker"; py "manifest"; py "inspect"; tag].

Definition pull_cmd (tag : pystr) : list pystr :=
  [py "docker"; py "pull"; tag].

Definition push_cmd (tag : pystr) : list pystr :=
  [py "docker"; py "push"; tag].

(** [docker_build_cmd] once the flags and the context are appended. *)
Definition docker_build_cmd (tag dockerfile_path : pystr)
    (flags : list pystr) (context_path : pystr) : list pystr :=
  [py "docker"; py "buildx"; py "build"; py "--tag"; tag;
   py "--file"; dockerfile_path] ++ flags ++ [context_path].

(** The body of the [try:]. *)
Definition manage_docker_image_body (tag dockerfile_path : pystr)
    (build_args_list : list pystr) (context_path : pystr) : M unit :=
  print (CheckingLocal tag) ;;
  inspect_result <- subprocess_run (inspect_cmd tag) false ;;
  let '(inspect_rc, _, _) := inspect_result in
  if (inspect_rc =? 0)%Z then print (ExistsLocally tag)
  else
    print (CheckingRemote tag) ;;
    manifest_result <- subprocess_run (manifest_inspect_cmd tag) false ;;
    let '(manifest_rc, _, _) := manifest_result in
    if (manifest_rc =? 0)%Z then
      print (FoundRemote tag) ;;
      process <- subprocess_run (pull_cmd tag) true ;;
      let '(_, out, err) := process in
      print_output out err ;;
      print (PulledSuccessfully tag)
    else
      print (NotFoundBuilding tag) ;;
      flags <- lift (build_arg_flags build_args_list) ;;
      let build_cmd :=
        docker_build_cmd tag dockerfile_path flags context_path in
      print (ExecutingBuild build_cmd) ;;
      process <- subprocess_run build_cmd true ;;
      let '(_, out, err) := process in
      print_output out err ;;
      print (BuiltSuccessfully tag) ;;
      print (Pushing tag) ;;
      push_result <- subprocess_run (push_cmd tag) false ;;
      let '(push_rc, push_out, push_err) := push_result in
      if (push_rc =? 0)%Z then
        print_output push_out push_err ;;
        print (PushedSuccessfully tag)
      else
        print (PushWarning tag) ;;
        when (truthy push_err) (print (PushDetails push_err)).

(** The two [except] clauses. *)
Definition manage_docker_image_handler (tag : pystr) (e : Exn) : M unit :=
  match e with
  | CalledProcessError returncode cmd stdout stderr =>
      print (DockerOperationError tag) ;;
      print (FailedCommand cmd) ;;
      when (truthy stdout) (print (FailedStdout stdout)) ;;
      when (truthy stderr) (print (FailedStderr stderr)) ;;
      sys_exit (if negb (returncode =? 0)%Z then returncode else 1%Z)
  | FileNotFoundError => print DockerNotFound ;; sys_exit 1
  | _ => raise e
  end.

Definition manage_docker_image (tag dockerfile_path : pystr)
    (build_args_list : list pystr) (context_path : pystr) : M unit :=
  try_except
    (manage_docker_image_body tag dockerfile_path build_args_list context_path)
    (manage_docker_image_handler tag).

(** *** process_image *)

(** The [for path in search_paths:] loop looking for the Dockerfile. *)
Fixpoint find_dockerfile (search_paths : list pystr) (dockerfile_name : pystr)
    : option pystr :=
  match search_paths with
  | [] => None
  | path :: search_paths' =>
      let potential_path := path_join W path dockerfile_name in
      if path_exists potential_path then Some potential_path
      else find_dockerfile search_paths' dockerfile_name
  end.

(** The [for arg_name, dep_image_name in dependencies.items():] loop. *)
Fixpoint bind_build_args (image_name : pystr) (items : dict pystr)
    (generated_tags : dict pystr)
    (build_args_for_manage build_args_for_sha_calc : list pystr)
    : M (list pystr * list pystr) :=
  match items with
  | [] => ret (build_args_for_manage, build_args_for_sha_calc)
  | (arg_name, dep_image_name) :: items' =>
      match dict_get dep_image_name generated_tags with
      | None =>
          print (DependencyTagNotFound dep_image_name image_name arg_name) ;;
          print EnsureBuildOrder ;;
          sys_exit 1
      | Some dep_tag =>
          print (BuildArg image_name arg_name dep_image_name dep_tag) ;;
          bind_build_args image_name items' generated_tags
            (build_args_for_manage ++ [arg_name; dep_tag])
            (build_args_for_sha_calc ++ [arg_name ++ py "=" ++ dep_tag])
      end
  end.

(** What [process_image] has worked out when it calls
    [manage_docker_image]. *)
Record Build := mkBuild {
  current_tag : pystr;
  dockerfile : pystr;
  build_args : list pystr;
  context : pystr;
  tags : dict pystr
}.

(** The first half of [process_image], down to [context_path = ...]:
    the Dockerfile is located, the build arguments are bound, the tag is
    computed and recorded in [generated_tags]. *)
Definition address_image (image_name : pystr) (dependencies : dict pystr)
    (generated_tags : dict pystr) (search_paths : list pystr) : M Build :=
  print (Processing image_name) ;;
  let dockerfile_name := image_name ++ py ".Dockerfile" in
  match find_dockerfile search_paths dockerfile_name with
  | None =>
      print (DockerfileNotFound dockerfile_name image_name search_paths) ;;
      sys_exit 1
  | Some found =>
      if negb (truthy found) then
        print (DockerfileNotFound dockerfile_name image_name search_paths) ;;
        sys_exit 1
      else
        let dockerfile_path := path_realpath W found in
        args <- bind_build_args image_name dependencies generated_tags [] [] ;;
        let build_args_for_manage := fst args in
        let build_args_for_sha_calc := list_sort (snd args) in
        current_sha <-
          try_except
            (lift (calculate_sha256 dockerfile_path build_args_for_sha_calc))
            (fun e =>
               match e with
               | FileNotFoundError =>
                   print (DockerfileDisappeared dockerfile_path image_name) ;;
                   sys_exit 1
               | _ => raise e
               end) ;;
        print (ShaInfo dockerfile_path build_args_for_sha_calc current_sha) ;;
        repo <- (fun st => (Ret (REPO st), st)) ;;
        let current_tag := get_image_tag repo image_name current_sha in
        print (TagFor image_name current_tag) ;;
        let generated_tags := dict_set image_name current_tag generated_tags in
        let context_path := path_dirname W dockerfile_path in
        ret (mkBuild current_tag dockerfile_path build_args_for_manage
                     context_path generated_tags)
  end.

(** The end of [process_image], after [manage_docker_image] returned. *)
Definition report_image (image_name : pystr) (print_tag_mode : bool)
    (target_image_for_tag_print : option pystr) (current_tag : pystr)
    : M unit :=
  if print_tag_mode then
    match target_image_for_tag_print with
    | Some t =>
        if str_eqb image_name t
        then print (PlainTag current_tag) ;; sys_exit 0
        else ret tt
    | None => ret tt
    end
  else print (FinishedProcessing image_name).

(** The result is the returned tag with the updated [generated_tags]
    (the caller's dictionary, which the function assigns to). *)
Definition process_image (image_name : pystr) (dependencies : dict pystr)
    (generated_tags : dict pystr) (print_tag_mode : bool)
    (target_image_for_tag_print : option pystr) (search_paths : list pystr)
    : M (pystr * dict pystr) :=
  b <- address_image image_name dependencies generated_tags search_paths ;;
  manage_docker_image (current_tag b) (dockerfile b) (build_args b)
                      (context b) ;;
  report_image image_name print_tag_mode target_image_for_tag_print
               (current_tag b) ;;
  ret (current_tag b, tags b).

(** *** get_dependency_subgraph *)

(** [{name: set(conf["deps"].values()) for name, conf in
    image_configs_map.items()}]; a set is kept as the list of its members
    in the order the interpreter enumerates them. *)
Definition full_graph_of (image_configs_map : ImageConfigsMap)
    : dict (list pystr) :=
  fold_left
    (fun graph item =>
       dict_set (fst item)
                (set_iter order (DepsOf (fst item))
                          (dict_values (deps (snd item))))
                graph)
    image_configs_map [].

Definition graph_size (graph : dict (list pystr)) : nat :=
  list_sum (map (fun item => length (snd item)) graph).

(** The [while nodes_to_visit:] loop; [nodes_to_visit.pop()] takes the
    member the interpreter enumerates first. *)
Fixpoint reach (fuel step : nat) (full_graph : dict (list pystr))
    (nodes_to_visit visited_nodes : list pystr) : Outcome (list pystr) :=
  match fuel with
  | O => Unfinished
  | S fuel' =>
      match set_iter order (Worklist step) nodes_to_visit with
      | [] => Ret visited_nodes
      | current_node :: rest =>
          if mem current_node visited_nodes
          then reach fuel' (S step) full_graph rest visited_nodes
          else
            let visited_nodes := visited_nodes ++ [current_node] in
            match dict_get current_node full_graph with
            | Some dependencies =>
                reach fuel' (S step) full_graph (rest ++ dependencies)
                      visited_nodes
            | None => reach fuel' (S step) full_graph rest visited_nodes
            end
      end
  end.

(** [{node: full_graph[node] for node in visited_nodes if node in
    full_graph}] *)
Definition subgraph_of (full_graph : dict (list pystr))
    (visited_nodes : list pystr) : dict (list pystr) :=
  fold_left
    (fun subgraph node =>
       match dict_get node full_graph with
       | Some dependencies => dict_set node dependencies subgraph
       | None => subgraph
       end)
    (set_iter order Visited visited_nodes) [].

Definition get_dependency_subgraph (target_image_name : pystr)
    (image_configs_map : ImageConfigsMap) : M (list pystr) :=
  if negb (dict_mem target_image_name image_configs_map) then ret []
  else
    let full_graph := full_graph_of image_configs_map in
    visited_nodes <-
      lift (reach (S (S (graph_size full_graph))) 0 full_graph
                  [target_image_name] []) ;;
    let subgraph := subgraph_of full_graph visited_nodes in
    try_except
      (lift (graphlib.sorted subgraph))
      (fun e =>
         match e with
         | CycleError cycle =>
             print (SubgraphCycle target_image_name cycle) ;; sys_exit 1
         | _ => raise e
         end).

(** *** main *)

(** The parsed command line. *)
Record Args := mkArgs {
  target_image : option pystr;
  print_tag : bool;
  config : pystr;
  search_path : list pystr
}.

(** A target that is given and not the empty string. *)
Definition given (target : option pystr) : option pystr :=
  match target with
  | Some t => if truthy t then Some t else None
  | None => None
  end.

(** The checks on the target, up to [images_to_process = []]; the result
    is [target_image_for_tag_print]. *)
Definition check_target (args : Args) (all_image_names : list pystr)
    : M (option pystr) :=
  if print_tag args then
    match given (target_image args) with
    | None => print PrintTagNeedsTarget ;; sys_exit 1
    | Some t =>
        if negb (mem t all_image_names)
        then print (PrintTagInvalidTarget t) ;; sys_exit 1
        else ret (Some t)
    end
  else
    match given (target_image args) with
    | Some t =>
        if negb (mem t all_image_names)
        then print (InvalidTarget t) ;;
             print (ChooseFrom all_image_names) ;;
             sys_exit 1
        else ret None
    | None => ret None
    end.

(** The order of all images, when no target is given. *)
Definition full_order (image_configs_map : ImageConfigsMap)
    : M (list pystr) :=
  let full_graph := full_graph_of image_configs_map in
  try_except
    (images <- lift (graphlib.sorted full_graph) ;;
     print ProcessingAll ;;
     ret images)
    (fun e =>
       match e with
       | CycleError cycle => print (FullGraphCycle cycle) ;; sys_exit 1
       | _ => raise e
       end).

(** [images_to_process] *)
Definition plan (args : Args) (image_configs_map : ImageConfigsMap)
    : M (list pystr) :=
  match given (target_image args) with
  | Some t =>
      images <- get_dependency_subgraph t image_configs_map ;;
      print (ProcessingTarget t images) ;;
      ret images
  | None => full_order image_configs_map
  end.

(** The [for image_name in images_to_process:] loop. *)
Fixpoint process_all (images_to_process : list pystr)
    (image_configs_map : ImageConfigsMap) (generated_tags : dict pystr)
    (print_tag_mode : bool) (target_image_for_tag_print : option pystr)
    (search_paths : list pystr) : M (dict pystr) :=
  match images_to_process with
  | [] => ret generated_tags
  | image_name :: rest =>
      match dict_get image_name image_configs_map with
      | None => raise (KeyError image_name)
      | Some image_conf =>
          r <- process_image image_name (deps image_conf) generated_tags
                             print_tag_mode target_image_for_tag_print
                             search_paths ;;
          process_all rest image_configs_map (snd r) print_tag_mode
                      target_image_for_tag_print search_paths
      end
  end.

(** [main] once the image configs are loaded. *)
Definition build_images (args : Args) (image_configs_map : ImageConfigsMap)
    : M unit :=
  let print_tag_mode := print_tag args in
  let all_image_names := dict_keys image_configs_map in
  target_image_for_tag_print <- check_target args all_image_names ;;
  images_to_process <- plan args image_configs_map ;;
  process_all images_to_process image_configs_map [] print_tag_mode
              target_image_for_tag_print (search_path args) ;;
  if print_tag_mode then
    print (PrintTagNotProcessed target_image_for_tag_print) ;; sys_exit 1
  else
    match given (target_image args) with
    | Some t => print (TargetProcessed t)
    | None => print AllProcessed
    end.

Definition main (args : Args) : M unit :=
  load_config (config args) ;;
  image_configs_map <- load_image_configs (search_path args) ;;
  build_images args image_configs_map.

End Script.

(** ** Notions used to state the properties *)

(** The commands run, in order. *)
Fixpoint commands (log : list Event) : list (list pystr) :=
  match log with
  | [] => []
  | Run argv :: log' => argv :: commands log'
  | Print _ :: log' => commands log'
  end.

(** The UTF-8 bytes of each string of a list, when all of them have some. *)
Fixpoint encode_each (l : list pystr) : option (list (list byte)) :=
  match l with
  | [] => Some []
  | s :: l' =>
      match encode_utf8 s, encode_each l' with
      | Some bs, Some rest => Some (bs :: rest)
      | _, _ => None
      end
  end.

(** What [print_output] prints. *)
Definition output_events (out err : pystr) : list Event :=
  (if truthy out then [Print (Stripped out)] else [])
  ++ (if truthy err then [Print (Stripped err)] else []).

(** The image whose tag [--print-tag] asks for. *)
Definition is_print_target (print_tag_mode : bool)
    (target_image_for_tag_print : option pystr) (image_name : pystr) : bool :=
  print_tag_mode
  && match target_image_for_tag_print with
     | Some t => str_eqb image_name t
     | None => false
     end.

(** ** A small world for the examples *)

Definition bytes_of (s : string) : list byte :=
  map (fun a => byte_of_N (N_of_ascii a)) (list_ascii_of_string s).

(** A container runtime whose answer depends on the subcommand only. *)
Definition scripted_runtime (inspect manifest pull build push : Z)
    : list Event -> list pystr -> RunOutcome :=
  fun _ argv =>
    let sub := nth 1 argv [] in
    if str_eqb sub (py "image") then Completed inspect [] []
    else if str_eqb sub (py "manifest") then Completed manifest [] []
    else if str_eqb sub (py "pull") then Completed pull [] []
    else if str_eqb sub (py "buildx") then Completed build [] []
    else Completed push [] (py "denied").

Definition image_of (l : list (string * string)) : ImageConfig :=
  mkImageConfig (map (fun kv => (py (fst kv), py (snd kv))) l).

(** The graph [{a -> b, b -> c, c -> {}, d -> {}}]. *)
Definition chain_configs : ImageConfigsMap :=
  [ (py "a", image_of [("FROM", "b")]);
    (py "b", image_of [("FROM", "c")]);
    (py "c", image_of []);
    (py "d", image_of []) ]%string.

(** A directory [images] with a [deps.json] and the four Dockerfiles, no
    [devkit.json], and the given container runtime. *)
Definition demo_world (rt : list Event -> list pystr -> RunOutcome) : World :=
  mkWorld
    (fun p =>
       if str_eqb p (py "Dockerfile") then RegularFile (bytes_of "dockerfile content")
       else if str_eqb p (py "images/deps.json") then RegularFile (bytes_of "{}")
       else if str_eqb p (py "images/a.Dockerfile") then RegularFile (bytes_of "FROM b")
       else if str_eqb p (py "images/b.Dockerfile") then RegularFile (bytes_of "FROM c")
       else if str_eqb p (py "images/c.Dockerfile") then RegularFile (bytes_of "FROM scratch")
       else if str_eqb p (py "images/d.Dockerfile") then RegularFile (bytes_of "FROM scratch")
       else if str_eqb p (py "broken.json") then RegularFile (bytes_of "{")
       else NoEntry)
    (fun a b => a ++ py "/" ++ b)
    (fun p => p)
    (fun p => py "images")
    (fun content =>
       if list_eq_dec Byte.byte_eq_dec content (bytes_of "{")
       then JSONDecodeError else Decoded (mkConfig None))
    (fun _ => Decoded (DepsDict chain_configs))
    rt.

(** ** Graphs: notions used to state and prove the properties *)

Unset Implicit Arguments.

(** The total size of the entries of a dictionary whose keys are not in
    [seen]. *)
Definition dict_weight {V : Type} (size : V -> nat) (seen : list pystr)
    (d : dict V) : nat :=
  list_sum (map (fun kv => if mem (fst kv) seen then 0 else size (snd kv)) d).

(** The predecessors given for a node of a graph, as [graphlib] receives
    it: a dictionary from nodes to their predecessors. *)
Definition preds_of (g : dict (list pystr)) (n : pystr) : list pystr :=
  match dict_get n g with Some ps => ps | None => [] end.

(** The nodes of a graph: its keys and the predecessors they list. *)
Definition graph_node (g : dict (list pystr)) (x : pystr) : Prop :=
  In x (dict_keys g) \/ exists n, In x (preds_of g n).

(** A graph as the script builds it: the keys differ and so do the
    predecessors listed for one node. *)
Definition graph_ok (g : dict (list pystr)) : Prop :=
  dict_wf g /\ forall n, NoDup (preds_of g n).

(** The successors recorded for a node in [_node2info]. *)
Definition succs_of (n2i : dict graphlib.NodeInfo) (x : pystr) : list pystr :=
  match dict_get x n2i with Some i => graphlib.successors i | None => [] end.

(** [_node2info] once the graph has been added to the sorter: an entry
    for every node, with the number of its predecessors and the list of
    the nodes it precedes. *)
Definition built (g : dict (list pystr)) (n2i : dict graphlib.NodeInfo) : Prop :=
  dict_wf n2i
  /\ (forall x, In x (dict_keys n2i) <-> graph_node g x)
  /\ (forall x info, dict_get x n2i = Some info ->
        graphlib.npredecessors info = Z.of_nat (length (preds_of g x))
        /\ NoDup (graphlib.successors info)
        /\ forall n, In n (graphlib.successors info) <-> In x (preds_of g n)).
(** The state of [_node2info] inside [add node ps], after the successors
    [seen_preds] have been registered. *)
Definition adding (g : dict (list pystr)) (node : pystr) (ps seen_preds : list pystr)
    (n2i : dict graphlib.NodeInfo) : Prop :=
  dict_wf n2i
  /\ (forall x, In x (dict_keys n2i)
               <-> graph_node g x \/ x = node \/ In x seen_preds)
  /\ (forall x info, dict_get x n2i = Some info ->
        graphlib.npredecessors info
        = Z.of_nat (length (if str_eqb x node then ps else preds_of g x))
        /\ NoDup (graphlib.successors info)
        /\ forall n, In n (graphlib.successors info)
                     <-> In x (preds_of g n) \/ (n = node /\ In x seen_preds)).

(** [y] is a successor of [x]. *)
Definition edge (n2i : dict graphlib.NodeInfo) (x y : pystr) : Prop :=
  In y (succs_of n2i x).

(** A list in which the successors of every element come after it. *)
Fixpoint ranked (n2i : dict graphlib.NodeInfo) (F : list pystr) : Prop :=
  match F with
  | [] => True
  | f :: older => (forall y, edge n2i f y -> In y older) /\ ranked n2i older
  end.

(** A stack (top first) in which every entry is a successor of the entry
    below it. *)
Fixpoint is_path (n2i : dict graphlib.NodeInfo) (stk : list pystr) : Prop :=
  match stk with
  | [] => True
  | a :: rest =>
      match rest with [] => True | b :: _ => edge n2i b a end
      /\ is_path n2i rest
  end.

(** Every successor of a stack entry is still to be yielded by the entry's
    iterator, or is known: finished, above the entry on the stack, or the
    node under examination. *)
Fixpoint frames (n2i : dict graphlib.NodeInfo) (known : list pystr)
    (stk : list pystr) (its : list (list pystr)) : Prop :=
  match stk, its with
  | [], [] => True
  | s :: stk', r :: its' =>
      (forall y, edge n2i s y -> In y r \/ In y known)
      /\ incl r (succs_of n2i s)
      /\ frames n2i (s :: known) stk' its'
  | _, _ => False
  end.

(** The state of the search for a cycle, with the list [F] of the nodes
    it has finished with (the latest first). *)
Definition dfs_inv (n2i : dict graphlib.NodeInfo) (d : graphlib.Dfs)
    (F known : list pystr) : Prop :=
  frames n2i known (graphlib.stack d) (graphlib.itstack d)
  /\ is_path n2i (graphlib.stack d)
  /\ NoDup (graphlib.stack d ++ F)
  /\ (forall x, In x (graphlib.seen d) <-> In x (graphlib.stack d) \/ In x F)
  /\ dict_wf (graphlib.node2stacki d)
  /\ (forall x, In x (dict_keys (graphlib.node2stacki d))
                <-> In x (graphlib.stack d))
  /\ ranked n2i F
  /\ (forall x, In x (graphlib.stack d) \/ In x F -> In x (dict_keys n2i)).

(** The successors still to be looked at: those of the nodes not seen
    yet, and those left in the iterators of the stack. *)
Definition unseen_weight (n2i : dict graphlib.NodeInfo) (sn : list pystr) : nat :=
  dict_weight (fun i => length (graphlib.successors i)) sn n2i.

Definition dfs_weight (n2i : dict graphlib.NodeInfo) (d : graphlib.Dfs) : nat :=
  list_sum (map (@length pystr) (graphlib.itstack d))
  + unseen_weight n2i (graphlib.seen d).

(** Some node reaches itself along successors. *)
Definition cyclic_graph (n2i : dict graphlib.NodeInfo) : Prop :=
  exists x, clos_trans pystr (edge n2i) x x.

(** [a] stands at a smaller index than [b]. *)
Definition before (l : list pystr) (a b : pystr) : Prop :=
  exists i j, nth_error l i = Some a /\ nth_error l j = Some b /\ i < j.

(** Every node of the list has its predecessors before it. *)
Definition topological (g : dict (list pystr)) (l : list pystr) : Prop :=
  forall n p, In n l -> In p (preds_of g n) -> before l p n.

(** The predecessors of [n] that are not done. *)
Definition count (g : dict (list pystr)) (done : list pystr) (n : pystr) : Z :=
  Z.of_nat (length (filter (fun p => negb (mem p done)) (preds_of g n))).

(** What [npredecessors] holds for a node, given the nodes done and the
    nodes passed out. *)
Definition status (g : dict (list pystr)) (done out : list pystr) (x : pystr) : Z :=
  if mem x done then graphlib.NODE_DONE
  else if mem x out then graphlib.NODE_OUT
  else count g done x.

(** [_node2info] while [done] is at [node]: the successors in [stale]
    have not been told yet that [node] is done. *)
Definition releasing (g : dict (list pystr)) (done out : list pystr)
    (node : pystr) (stale : list pystr) (n2i : dict graphlib.NodeInfo) : Prop :=
  dict_wf n2i
  /\ (forall x, In x (dict_keys n2i) <-> graph_node g x)
  /\ (forall x info, dict_get x n2i = Some info ->
        NoDup (graphlib.successors info)
        /\ (forall n, In n (graphlib.successors info) <-> In x (preds_of g n))
        /\ graphlib.npredecessors info
           = if mem x stale then status g done out x
             else status g (done ++ [node]) out x).

(** [_node2info] between two calls of [done]. *)
Definition tracking (g : dict (list pystr)) (done out : list pystr)
    (n2i : dict graphlib.NodeInfo) : Prop :=
  dict_wf n2i
  /\ (forall x, In x (dict_keys n2i) <-> graph_node g x)
  /\ (forall x info, dict_get x n2i = Some info ->
        NoDup (graphlib.successors info)
        /\ (forall n, In n (graphlib.successors info) <-> In x (preds_of g n))
        /\ graphlib.npredecessors info = status g done out x).

(** The nodes that are ready: neither done nor passed out, and with no
    predecessor left. *)
Definition ready_for (g : dict (list pystr)) (done out ready : list pystr) : Prop :=
  NoDup ready
  /\ forall n, In n ready
               <-> graph_node g n /\ ~ In n done /\ ~ In n out
                   /\ count g done n = 0%Z.

(** [n] lists [p] among its predecessors. *)
Definition depends (g : dict (list pystr)) (n p : pystr) : Prop :=
  In p (preds_of g n).

(** Some node is among its own predecessors, directly or not. *)
Definition cyclic (g : dict (list pystr)) : Prop :=
  exists x, clos_trans pystr (depends g) x x.

(** The state of the sorter between two rounds of [static_order]. *)
Definition round_inv (g : dict (list pystr)) (ts : graphlib.TopologicalSorter)
    (yielded : list pystr) : Prop :=
  exists ready,
    graphlib.ready_nodes ts = Some ready
    /\ tracking g yielded [] (graphlib.node2info ts)
    /\ ready_for g yielded [] ready
    /\ graphlib.nfinished ts = graphlib.npassedout ts
    /\ NoDup yielded
    /\ (forall x, In x yielded -> graph_node g x)
    /\ topological g yielded.

(** Image [n] is declared with a build argument that names image [d]. *)
Definition dep (m : ImageConfigsMap) (n d : pystr) : Prop :=
  exists conf, dict_get n m = Some conf /\ In d (dict_values (deps conf)).

(** The target, its dependencies, their dependencies, and so on. *)
Definition closure (m : ImageConfigsMap) (target x : pystr) : Prop :=
  clos_refl_trans pystr (dep m) target x.

(** An image that depends on itself, directly or through others. *)
Definition on_cycle (m : ImageConfigsMap) (x : pystr) : Prop :=
  clos_trans pystr (dep m) x x.

(** The state of the worklist loop of [get_dependency_subgraph]. *)
Definition reach_inv (graph : dict (list pystr)) (target : pystr)
    (nodes_to_visit visited_nodes : list pystr) : Prop :=
  NoDup visited_nodes
  /\ (In target visited_nodes \/ In target nodes_to_visit)
  /\ (forall x, In x visited_nodes \/ In x nodes_to_visit ->
                clos_refl_trans pystr (depends graph) target x)
  /\ (forall v p, In v visited_nodes -> In p (preds_of graph v) ->
                  In p visited_nodes \/ In p nodes_to_visit).
(** The entry of an image config in the graph. *)
Definition graph_entry (order : SetOrder) (item : pystr * ImageConfig)
    : pystr * list pystr :=
  (fst item, set_iter order (DepsOf (fst item)) (dict_values (deps (snd item)))).

(** Two images that need each other. *)
Definition cyclic_configs : ImageConfigsMap :=
  [ (py "a", image_of [("FROM", "b")]);
    (py "b", image_of [("FROM", "a")]) ]%string.

(** Two images built on a base image that has no declaration. *)
Definition undeclared_configs : ImageConfigsMap :=
  [ (py "a", image_of [("FROM", "b"); ("BASE", "zz")]);
    (py "b", image_of [("FROM", "zz")]) ]%string.

(** The message of the branch of [process_image] that finds no tag for a
    dependency. *)
Definition is_unresolved (e : Event) : bool :=
  match e with
  | Print (DependencyTagNotFound _ _ _) => true
  | _ => false
  end.

(** A log in which that branch was never taken. *)
Definition resolved (log : list Event) : Prop :=
  Forall (fun e => is_unresolved e = false) log.

(** A computation that never takes that branch. *)
Definition quiet {A : Type} (c : M A) : Prop :=
  forall st, resolved (events st) -> resolved (events (snd (c st))).

(** ** Notions used to state the further properties *)

(** A computation that is left by returning or by an exception only:
    [sys.exit] is not called and no loop of the embedding is cut short. *)
Definition no_exit {A : Type} (c : M A) : Prop :=
  forall st,
    match fst (c st) with
    | Exit _ | Unfinished => False
    | _ => True
    end.

(** The ways [manage_docker_image] can finish: it returns, it exits with a
    code that is not zero, or an exception it has no handler for goes
    through. *)
Definition managed (o : Outcome unit) : Prop :=
  match o with
  | Ret _ => True
  | Exit code => code <> 0%Z
  | Raise (CalledProcessError _ _ _ _) => False
  | Raise FileNotFoundError => False
  | Raise _ => True
  | Unfinished => False
  end.

(** [generated_tags[dep_image_name]], for a dependency that has a tag. *)
Definition tag_of (generated_tags : dict pystr) (dep_image_name : pystr)
    : pystr :=
  match dict_get dep_image_name generated_tags with
  | Some dep_tag => dep_tag
  | None => []
  end.

(** What the loop over [dependencies.items()] leaves in
    [build_args_for_manage] and in [build_args_for_sha_calc], what it
    prints, and the flags [manage_docker_image] makes of the former. *)
Definition manage_args (generated_tags : dict pystr) (dependencies : dict pystr)
    : list pystr :=
  flat_map (fun item => [fst item; tag_of generated_tags (snd item)])
           dependencies.

Definition sha_args (generated_tags : dict pystr) (dependencies : dict pystr)
    : list pystr :=
  map (fun item => fst item ++ py "=" ++ tag_of generated_tags (snd item))
      dependencies.

Definition build_arg_events (image_name : pystr) (generated_tags : dict pystr)
    (dependencies : dict pystr) : list Event :=
  map (fun item =>
         Print (BuildArg image_name (fst item) (snd item)
                         (tag_of generated_tags (snd item))))
      dependencies.

Definition flag_args (generated_tags : dict pystr) (dependencies : dict pystr)
    : list pystr :=
  flat_map (fun item =>
              [py "--build-arg";
               fst item ++ py "=" ++ tag_of generated_tags (snd item)])
           dependencies.

(** The directory of the examples when its Dockerfiles are links to
    files that are gone. *)
Definition dangling_world : World :=
  let W := demo_world (scripted_runtime 0 0 0 0 0) in
  mkWorld (fs W) (path_join W) (fun p => py "gone/" ++ p) (path_dirname W)
          (json_config W) (json_deps W) (runtime W).

(** A list in the order of [str_leb]. *)
Fixpoint ascending (l : list pystr) : Prop :=
  match l with
  | [] => True
  | x :: l' => (forall y, In y l' -> str_leb x y = true) /\ ascending l'
  end.

(** What a search path contributes to the image configs: the dictionary
    its [deps.json] decodes to. *)
Definition declares (W : World) (path : pystr) (configs : ImageConfigsMap)
    : Prop :=
  exists content,
    fs W (path_join W path (py "deps.json")) = RegularFile content
    /\ json_deps W content = Decoded (DepsDict configs).

(** A search path that has no [deps.json], or one that decodes to
    something that is not a dictionary. *)
Definition declares_nothing (W : World) (path : pystr) : Prop :=
  fs W (path_join W path (py "deps.json")) = NoEntry
  \/ exists content,
       fs W (path_join W path (py "deps.json")) = RegularFile content
       /\ json_deps W content = Decoded DepsOther.

(** The directory of the examples, next to a directory [site] whose
    [deps.json] declares the image [a] again, a directory [notes] whose
    [deps.json] holds a list and a directory [broken] whose [deps.json]
    does not decode. *)
Definition site_configs : ImageConfigsMap :=
  [ (py "a", image_of [("FROM", "d")]) ]%string.

Definition layered_world : World :=
  let W := demo_world (scripted_runtime 0 0 0 0 0) in
  mkWorld
    (fun p =>
       if str_eqb p (py "site/deps.json") then RegularFile (bytes_of "{a}")
       else if str_eqb p (py "notes/deps.json") then RegularFile (bytes_of "[]")
       else if str_eqb p (py "broken/deps.json") then RegularFile (bytes_of "{")
       else fs W p)
    (path_join W) (path_realpath W) (path_dirname W) (json_config W)
    (fun content =>
       if list_eq_dec Byte.byte_eq_dec content (bytes_of "{a}")
       then Decoded (DepsDict site_configs)
       else if list_eq_dec Byte.byte_eq_dec content (bytes_of "[]")
       then Decoded DepsOther
       else if list_eq_dec Byte.byte_eq_dec content (bytes_of "{")
       then JSONDecodeError
       else json_deps W content)
    (runtime W).

(** The code points of [0-9a-f]. *)
Definition is_hex (c : N) : bool :=
  ((48 <=? c) && (c <=? 57) || (97 <=? c) && (c <=? 102))%N.

(** The message that opens the processing of an image. *)
Definition is_processing (e : Event) : bool :=
  match e with
  | Print (Processing _) => true
  | _ => false
  end.

(** The message of the fallback at the end of [main]. *)
Definition is_fallback (e : Event) : bool :=
  match e with
  | Print (PrintTagNotProcessed _) => true
  | _ => false
  end.

(** The images whose processing was started, in order. *)
Fixpoint processing_log (log : list Event) : list pystr :=
  match log with
  | [] => []
  | Print (Processing image_name) :: log' => image_name :: processing_log log'
  | _ :: log' => processing_log log'
  end.

(** A computation that only adds to the log, and adds [first] followed by
    events that [bad] does not flag. *)
Definition adds {A : Type} (bad : Event -> bool) (first : list Event)
    (c : M A) : Prop :=
  forall st,
    exists added,
      events (snd (c st)) = events st ++ first ++ added
      /\ Forall (fun e => bad e = false) added.

(** A computation that adds no event that [bad] flags. *)
Definition never {A : Type} (bad : Event -> bool) (c : M A) : Prop :=
  adds bad [] c.

(** An outcome other than [sys.exit(0)] and other than a loop of the
    embedding cut short. *)
Definition not_clean {A : Type} (o : Outcome A) : Prop :=
  match o with
  | Exit code => code <> 0%Z
  | Unfinished => False
  | _ => True
  end.

(** A computation that finishes, and not by [sys.exit(0)]. *)
Definition no_clean_exit {A : Type} (c : M A) : Prop :=
  forall st, not_clean (fst (c st)).

Set Implicit Arguments.

(* ================================================================== *)
(** * Part II: properties                                              *)
(* ================================================================== *)

(** ** Basic facts *)

Lemma str_eqb_eq : forall a b, str_eqb a b = true <-> a = b.
Proof.
  intros a b. unfold str_eqb. destruct (pystr_eq_dec a b); split; congruence.
Qed.

Lemma str_eqb_refl : forall a, str_eqb a a = true.
Proof. intros a. apply str_eqb_eq. reflexivity. Qed.

Lemma str_eqb_neq : forall a b, str_eqb a b = false <-> a <> b.
Proof.
  intros a b. unfold str_eqb. destruct (pystr_eq_dec a b); split; congruence.
Qed.

Lemma mem_In : forall x l, mem x l = true <-> In x l.
Proof.
  intros x l. unfold mem. rewrite existsb_exists. split.
  - intros [y [Hy E]]. apply str_eqb_eq in E. subst. assumption.
  - intros H. exists x. split; [assumption | apply str_eqb_refl].
Qed.

Lemma mem_not_In : forall x l, mem x l = false <-> ~ In x l.
Proof.
  intros x l. rewrite <- mem_In. destruct (mem x l); split; congruence.
Qed.

(** ** The content hash *)

Example sha256_abc :
  hashlib.sha256_hex [x61; x62; x63]
  = py "ba7816bf8f01cfea414140de5dae2223b00361a396177a9cb410ff61f20015ad".
Proof. vm_compute. reflexivity. Qed.

Example sha256_empty :
  hashlib.sha256_hex []
  = py "e3b0c44298fc1c149afbf4c8996fb92427ae41e4649b934ca495991b7852b855".
Proof. vm_compute. reflexivity. Qed.

(** The digest of the repository's own test ([test_calculate_sha256]). *)
Example calculate_sha256_test :
  calculate_sha256 (demo_world (scripted_runtime 0 0 0 0 0)) (py "Dockerfile")
                   [py "ARG1=val1"; py "ARG2=val2"]
  = Ret (py "10872cf0bd432142c55ba551a517b2f7f40131aee00a31c675354f538d72f952").
Proof. vm_compute. reflexivity. Qed.

Lemma update_app : forall s a b,
  hashlib.update (hashlib.update s a) b = hashlib.update s (a ++ b).
Proof.
  intros s a b. unfold hashlib.update. symmetry. apply fold_left_app.
Qed.

Lemma update_with_args_encoded : forall args bytes hasher,
  encode_each args = Some bytes ->
  update_with_args hasher args = Ret (hashlib.update hasher (concat bytes)).
Proof.
  induction args as [|a args IH]; intros bytes hasher H; simpl in *.
  - injection H as <-. reflexivity.
  - destruct (encode_utf8 a) as [bs|]; [|discriminate].
    destruct (encode_each args) as [rest|]; [|discriminate].
    injection H as <-. simpl. rewrite (IH rest _ eq_refl).
    now rewrite update_app.
Qed.

(** C1.  When the recipe file can be read and every build argument has a
    UTF-8 encoding, [calculate_sha256] returns the SHA-256 hex digest of the
    bytes of the file followed by the UTF-8 bytes of the arguments in the
    order given (whether ascending or not); and two calls that read the
    same bytes, under any two paths in any two worlds, with the same
    arguments have the same result. *)
Theorem calculate_sha256_digest :
  forall (W : World) (path : pystr) (args : list pystr)
         (content : list byte) (encoded : list (list byte)),
    fs W path = RegularFile content ->
    encode_each args = Some encoded ->
    calculate_sha256 W path args
      = Ret (hashlib.sha256_hex (content ++ concat encoded))
    /\ forall (W' : World) (path' : pystr),
         fs W' path' = RegularFile content ->
         calculate_sha256 W' path' args = calculate_sha256 W path args.
Proof.
  intros W path args content encoded Hfile Henc.
  assert (Hdigest : forall W0 p0, fs W0 p0 = RegularFile content ->
            calculate_sha256 W0 p0 args
            = Ret (hashlib.sha256_hex (content ++ concat encoded))).
  { intros W0 p0 H0. unfold calculate_sha256, read_file. rewrite H0. simpl.
    rewrite (update_with_args_encoded _ _ Henc). simpl.
    unfold hashlib.sha256_hex. now rewrite update_app. }
  split.
  - now apply Hdigest.
  - intros W' path' H'. now rewrite (Hdigest W' path' H'), (Hdigest W path Hfile).
Qed.

Lemma calculate_sha256_digest_witness :
  calculate_sha256 (demo_world (scripted_runtime 0 0 0 0 0)) (py "Dockerfile")
                   [py "ARG1=val1"; py "ARG2=val2"]
  = Ret (hashlib.sha256_hex
           (bytes_of "dockerfile content"
            ++ concat [bytes_of "ARG1=val1"; bytes_of "ARG2=val2"])).
Proof.
  exact (proj1 (calculate_sha256_digest
                  (demo_world (scripted_runtime 0 0 0 0 0)) (py "Dockerfile")
                  [py "ARG1=val1"; py "ARG2=val2"] eq_refl eq_refl)).
Defined.

(** ** The tag *)

(** C8.  With a registry prefix the tag is
    ["{REPO}/devkit/{image}:{ARCH}-{sha}"], without one it is
    ["devkit/{image}:{ARCH}-{sha}"], and [ARCH] is ["amd64"]. *)
Theorem get_image_tag_format :
  forall (repo image_name sha : pystr),
    (repo <> [] ->
     get_image_tag repo image_name sha
     = repo ++ py "/devkit/" ++ image_name ++ py ":" ++ ARCH ++ py "-" ++ sha)
    /\ (repo = [] ->
        get_image_tag repo image_name sha
        = py "devkit/" ++ image_name ++ py ":" ++ ARCH ++ py "-" ++ sha)
    /\ get_image_tag (py "my-repo") (py "foo") (py "abc123")
       = py "my-repo/devkit/foo:amd64-abc123"
    /\ get_image_tag [] (py "foo") (py "abc123") = py "devkit/foo:amd64-abc123".
Proof.
  intros repo image_name sha. repeat split.
  - intros H. destruct repo as [|c repo]; [congruence|]. reflexivity.
  - intros ->. reflexivity.
Qed.

(** ** The decision procedure of [manage_docker_image] *)

Lemma commands_app : forall l1 l2,
  commands (l1 ++ l2) = commands l1 ++ commands l2.
Proof.
  induction l1 as [|[m|argv] l1 IH]; intros l2; simpl; rewrite ?IH; reflexivity.
Qed.

Lemma commands_output_events : forall out err,
  commands (output_events out err) = [].
Proof.
  intros out err. unfold output_events.
  destruct (truthy out), (truthy err); reflexivity.
Qed.

Lemma print_output_run : forall out err st,
  print_output out err st
  = (Ret tt, mkState (REPO st) (events st ++ output_events out err)).
Proof.
  intros out err [repo log]. unfold print_output, output_events, when, bind, print, ret.
  destruct (truthy out), (truthy err); simpl;
    rewrite <- ?app_assoc, ?app_nil_r; reflexivity.
Qed.

Lemma nonzero_eqb : forall z : Z, z <> 0%Z -> (z =? 0)%Z = false.
Proof. intros z H. now apply Z.eqb_neq. Qed.

(** Unfolds one step of the script and uses the known answers of the
    container runtime. *)
Ltac step :=
  unfold bind, print, subprocess_run, lift, ret, sys_exit, raise, when; simpl;
  rewrite <- ?app_assoc; simpl.

(** C4.  When the local inspect of the tag succeeds, [manage_docker_image]
    returns normally after that single command: no manifest inspect, no
    pull, no build and no push is run, and the image is reported as already
    present (the Skipped outcome). *)
Theorem local_image_is_skipped :
  forall (W : World) (tag dockerfile_path : pystr) (build_args_list : list pystr)
         (context_path : pystr) (st : State) (out err : pystr),
    runtime W (events st ++ [Print (CheckingLocal tag)]) (inspect_cmd tag)
      = Completed 0 out err ->
    manage_docker_image W tag dockerfile_path build_args_list context_path st
      = (Ret tt,
         mkState (REPO st)
                 (events st ++ [Print (CheckingLocal tag);
                                Run (inspect_cmd tag);
                                Print (ExistsLocally tag)]))
    /\ commands
         (events (snd (manage_docker_image W tag dockerfile_path
                                           build_args_list context_path st)))
       = commands (events st) ++ [inspect_cmd tag].
Proof.
  intros W tag dockerfile_path build_args_list context_path st out err H.
  assert (E : manage_docker_image W tag dockerfile_path build_args_list context_path st
      = (Ret tt,
         mkState (REPO st)
                 (events st ++ [Print (CheckingLocal tag);
                                Run (inspect_cmd tag);
                                Print (ExistsLocally tag)]))).
  { unfold manage_docker_image, try_except, manage_docker_image_body. step.
    rewrite H. simpl. rewrite <- ?app_assoc. reflexivity. }
  split; [exact E|]. rewrite E. simpl. rewrite commands_app. reflexivity.
Qed.

Lemma local_image_is_skipped_witness :
  manage_docker_image (demo_world (scripted_runtime 0 1 1 1 1)) (py "devkit/c:amd64-0")
                      (py "images/c.Dockerfile") [] (py "images") initial_state
  = (Ret tt,
     mkState [] [Print (CheckingLocal (py "devkit/c:amd64-0"));
                 Run (inspect_cmd (py "devkit/c:amd64-0"));
                 Print (ExistsLocally (py "devkit/c:amd64-0"))]).
Proof.
  exact (proj1 (local_image_is_skipped
                  (demo_world (scripted_runtime 0 1 1 1 1)) (py "devkit/c:amd64-0")
                  (py "images/c.Dockerfile") [] (py "images") initial_state
                  (out := []) (err := []) eq_refl)).
Defined.

(** C6.  When the local inspect fails and the manifest inspect succeeds,
    the commands run are the two inspects and one pull, whatever the pull
    does: no build, no push.  A pull that succeeds ends the step normally
    (the Pulled outcome); a pull that fails ends the run with the code of
    the failed command, or with 1 when the failure carries the code 0. *)
Theorem remote_image_is_pulled :
  forall (W : World) (tag dockerfile_path : pystr) (build_args_list : list pystr)
         (context_path : pystr) (st : State)
         (rc1 : Z) (o1 e1 o2 e2 : pystr),
    let h1 := events st ++ [Print (CheckingLocal tag)] in
    runtime W h1 (inspect_cmd tag) = Completed rc1 o1 e1 ->
    rc1 <> 0%Z ->
    let h2 := h1 ++ [Run (inspect_cmd tag); Print (CheckingRemote tag)] in
    runtime W h2 (manifest_inspect_cmd tag) = Completed 0 o2 e2 ->
    let h3 := h2 ++ [Run (manifest_inspect_cmd tag); Print (FoundRemote tag)] in
    let r := manage_docker_image W tag dockerfile_path build_args_list
                                 context_path st in
    commands (events (snd r))
      = commands (events st)
        ++ [inspect_cmd tag; manifest_inspect_cmd tag; pull_cmd tag]
    /\ match runtime W h3 (pull_cmd tag) with
       | Completed rc out err =>
           if (rc =? 0)%Z
           then r = (Ret tt,
                     mkState (REPO st)
                             (h3 ++ [Run (pull_cmd tag)] ++ output_events out err
                                 ++ [Print (PulledSuccessfully tag)]))
           else fst r = Exit rc
       | RunRaises (CalledProcessError rc _ _ _) =>
           fst r = Exit (if (rc =? 0)%Z then 1%Z else rc)
       | RunRaises FileNotFoundError => fst r = Exit 1
       | RunRaises e => fst r = Raise e
       end.
Proof.
  intros W tag dockerfile_path build_args_list context_path st rc1 o1 e1 o2 e2
         h1 H1 Hrc1 h2 H2 h3 r.
  subst h1 h2 h3 r.
  rewrite <- ?app_assoc in *. simpl in *.
  unfold manage_docker_image, try_except, manage_docker_image_body. step.
  rewrite H1. simpl. rewrite (nonzero_eqb Hrc1). step.
  rewrite H2. step.
  destruct (runtime W _ (pull_cmd tag)) as [rc out err|e].
  - destruct (rc =? 0)%Z eqn:Hrc; simpl.
    + rewrite print_output_run. simpl. rewrite <- ?app_assoc. simpl.
      repeat (rewrite commands_app; simpl). rewrite commands_output_events.
      split; reflexivity.
    + unfold manage_docker_image_handler. step. rewrite Hrc. simpl.
      destruct (truthy out), (truthy err); simpl;
        rewrite <- ?app_assoc; simpl; rewrite !commands_app; simpl;
        split; reflexivity.
  - destruct e; simpl; unfold raise; simpl;
      try (rewrite !commands_app; simpl; split; reflexivity).
    + step. destruct (truthy stdout), (truthy stderr); simpl;
        rewrite <- ?app_assoc; simpl; rewrite !commands_app; simpl;
        (split; [reflexivity|]); destruct (returncode =? 0)%Z; reflexivity.
    + step. rewrite !commands_app; simpl; split; reflexivity.
Qed.

Lemma remote_image_is_pulled_witness :
  let W := demo_world (scripted_runtime 1 0 125 0 0) in
  let tag := py "devkit/c:amd64-0" in
  let r := manage_docker_image W tag (py "images/c.Dockerfile") [] (py "images")
                               initial_state in
  commands (events (snd r))
    = [inspect_cmd tag; manifest_inspect_cmd tag; pull_cmd tag]
  /\ fst r = Exit 125.
Proof.
  exact (remote_image_is_pulled
           (demo_world (scripted_runtime 1 0 125 0 0)) (py "devkit/c:amd64-0")
           (py "images/c.Dockerfile") [] (py "images") initial_state
           (rc1 := 1%Z) (o1 := []) (e1 := []) (o2 := []) (e2 := [])
           eq_refl ltac:(discriminate) eq_refl).
Defined.

(** The step of [manage_docker_image] that builds and then fails to push. *)
Lemma manage_docker_image_push_fails :
  forall (W : World) (tag dockerfile_path : pystr) (build_args_list : list pystr)
         (context_path : pystr) (st : State)
         (rc1 rc2 rc4 : Z) (o1 e1 o2 e2 o3 e3 o4 e4 : pystr)
         (flags : list pystr),
    let h1 := events st ++ [Print (CheckingLocal tag)] in
    runtime W h1 (inspect_cmd tag) = Completed rc1 o1 e1 ->
    rc1 <> 0%Z ->
    let h2 := h1 ++ [Run (inspect_cmd tag); Print (CheckingRemote tag)] in
    runtime W h2 (manifest_inspect_cmd tag) = Completed rc2 o2 e2 ->
    rc2 <> 0%Z ->
    build_arg_flags build_args_list = Ret flags ->
    let cmd := docker_build_cmd tag dockerfile_path flags context_path in
    let h3 := h2 ++ [Run (manifest_inspect_cmd tag);
                     Print (NotFoundBuilding tag);
                     Print (ExecutingBuild cmd)] in
    runtime W h3 cmd = Completed 0 o3 e3 ->
    let h4 := h3 ++ [Run cmd] ++ output_events o3 e3
                 ++ [Print (BuiltSuccessfully tag); Print (Pushing tag)] in
    runtime W h4 (push_cmd tag) = Completed rc4 o4 e4 ->
    rc4 <> 0%Z ->
    manage_docker_image W tag dockerfile_path build_args_list context_path st
    = (Ret tt,
       mkState (REPO st)
               (h4 ++ [Run (push_cmd tag); Print (PushWarning tag)]
                   ++ (if truthy e4 then [Print (PushDetails e4)] else []))).
Proof.
  intros W tag dockerfile_path build_args_list context_path st rc1 rc2 rc4
         o1 e1 o2 e2 o3 e3 o4 e4 flags h1 H1 Hrc1 h2 H2 Hrc2 Hflags cmd h3 H3
         h4 H4 Hrc4.
  subst h1 h2 h3 h4.
  rewrite <- ?app_assoc in *. simpl in *.
  unfold manage_docker_image, try_except, manage_docker_image_body. step.
  rewrite H1. simpl. rewrite (nonzero_eqb Hrc1). step.
  rewrite H2. simpl. rewrite (nonzero_eqb Hrc2). step.
  rewrite Hflags. step. fold cmd. rewrite H3. simpl.
  rewrite print_output_run. step.
  rewrite H4. simpl. rewrite (nonzero_eqb Hrc4). step.
  destruct (truthy e4); simpl; repeat (rewrite <- app_assoc; simpl);
    reflexivity.
Qed.

Lemma report_image_run :
  forall image_name print_tag_mode target tag st,
    report_image image_name print_tag_mode target tag st
    = if is_print_target print_tag_mode target image_name
      then (Exit 0, mkState (REPO st) (events st ++ [Print (PlainTag tag)]))
      else (Ret tt,
            if print_tag_mode then st
            else mkState (REPO st)
                         (events st ++ [Print (FinishedProcessing image_name)])).
Proof.
  intros image_name print_tag_mode target tag st.
  unfold report_image, is_print_target.
  destruct print_tag_mode; simpl; [|reflexivity].
  destruct target as [t|]; [|reflexivity].
  destruct (str_eqb image_name t); reflexivity.
Qed.

(** C5.  An image that is absent locally and remotely, whose build succeeds
    and whose push fails: [manage_docker_image] prints the warning and
    returns normally; [process_image] then returns the tag (or, for the
    image whose tag [--print-tag] asks for, prints it and exits with code
    0); and the loop of the driver goes on with the images that follow. *)
Theorem push_failure_is_not_fatal :
  forall (W : World) (image_name : pystr) (dependencies generated_tags : dict pystr)
         (print_tag_mode : bool) (target : option pystr)
         (search_paths : list pystr) (st0 st : State) (b : Build)
         (rc1 rc2 rc4 : Z) (o1 e1 o2 e2 o3 e3 o4 e4 : pystr)
         (flags : list pystr),
    address_image W image_name dependencies generated_tags search_paths st0
      = (Ret b, st) ->
    let tag := current_tag b in
    let h1 := events st ++ [Print (CheckingLocal tag)] in
    runtime W h1 (inspect_cmd tag) = Completed rc1 o1 e1 ->
    rc1 <> 0%Z ->
    let h2 := h1 ++ [Run (inspect_cmd tag); Print (CheckingRemote tag)] in
    runtime W h2 (manifest_inspect_cmd tag) = Completed rc2 o2 e2 ->
    rc2 <> 0%Z ->
    build_arg_flags (build_args b) = Ret flags ->
    let cmd := docker_build_cmd tag (dockerfile b) flags (context b) in
    let h3 := h2 ++ [Run (manifest_inspect_cmd tag);
                     Print (NotFoundBuilding tag);
                     Print (ExecutingBuild cmd)] in
    runtime W h3 cmd = Completed 0 o3 e3 ->
    let h4 := h3 ++ [Run cmd] ++ output_events o3 e3
                 ++ [Print (BuiltSuccessfully tag); Print (Pushing tag)] in
    runtime W h4 (push_cmd tag) = Completed rc4 o4 e4 ->
    rc4 <> 0%Z ->
    let h5 := h4 ++ [Run (push_cmd tag); Print (PushWarning tag)]
                 ++ (if truthy e4 then [Print (PushDetails e4)] else []) in
    let finished :=
      if print_tag_mode then mkState (REPO st) h5
      else mkState (REPO st) (h5 ++ [Print (FinishedProcessing image_name)]) in
    manage_docker_image W tag (dockerfile b) (build_args b) (context b) st
      = (Ret tt, mkState (REPO st) h5)
    /\ process_image W image_name dependencies generated_tags print_tag_mode
                     target search_paths st0
       = (if is_print_target print_tag_mode target image_name
          then (Exit 0, mkState (REPO st) (h5 ++ [Print (PlainTag tag)]))
          else (Ret (tag, tags b), finished))
    /\ forall (images : list pystr) (configs : ImageConfigsMap)
              (image_conf : ImageConfig),
         dict_get image_name configs = Some image_conf ->
         deps image_conf = dependencies ->
         is_print_target print_tag_mode target image_name = false ->
         process_all W (image_name :: images) configs generated_tags
                     print_tag_mode target search_paths st0
         = process_all W images configs (tags b) print_tag_mode target
                       search_paths finished.
Proof.
  intros W image_name dependencies generated_tags print_tag_mode target
         search_paths st0 st b rc1 rc2 rc4 o1 e1 o2 e2 o3 e3 o4 e4 flags
         Haddr tag h1 H1 Hrc1 h2 H2 Hrc2 Hflags cmd h3 H3 h4 H4 Hrc4 h5 finished.
  pose proof (manage_docker_image_push_fails
                W tag (dockerfile b) (build_args b) (context b) st
                H1 Hrc1 H2 Hrc2 Hflags H3 H4 Hrc4) as Hmanage.
  fold tag in Hmanage. cbv zeta in Hmanage.
  fold h1 h2 cmd h3 h4 h5 in Hmanage.
  assert (Hproc :
    process_image W image_name dependencies generated_tags print_tag_mode
                  target search_paths st0
    = (if is_print_target print_tag_mode target image_name
       then (Exit 0, mkState (REPO st) (h5 ++ [Print (PlainTag tag)]))
       else (Ret (tag, tags b), finished))).
  { unfold process_image, bind at 1. rewrite Haddr.
    unfold bind at 1. fold tag. rewrite Hmanage.
    unfold bind at 1. rewrite report_image_run. simpl.
    subst finished.
    destruct (is_print_target print_tag_mode target image_name);
      [reflexivity|].
    destruct print_tag_mode; reflexivity. }
  split; [exact Hmanage|]. split; [exact Hproc|].
  intros images configs image_conf Hget Hdeps Hnot.
  simpl. rewrite Hget, Hdeps. unfold bind at 1. rewrite Hproc, Hnot.
  reflexivity.
Qed.

Lemma push_failure_is_not_fatal_witness :
  exists tag generated_tags st,
    process_image (demo_world (scripted_runtime 1 1 0 0 1)) (py "c") [] []
                  false None [py "images"] initial_state
    = (Ret (tag, generated_tags), st)
    /\ In (Print (PushWarning tag)) (events st).
Proof.
  edestruct (push_failure_is_not_fatal
               (demo_world (scripted_runtime 1 1 0 0 1)) (py "c") [] []
               false None [py "images"] initial_state)
    as (_ & Hprocess & _).
  - vm_compute. reflexivity.
  - vm_compute. reflexivity.
  - discriminate.
  - vm_compute. reflexivity.
  - discriminate.
  - vm_compute. reflexivity.
  - vm_compute. reflexivity.
  - vm_compute. reflexivity.
  - discriminate.
  - eexists _, _, _. split; [exact Hprocess|].
    vm_compute. tauto.
Defined.

(** ** Loading the configuration *)

(** The claim as the specification words it fails: with no configuration
    file the run is not fatal.  Here every image is found locally and
    [main] returns normally. *)
Lemma absent_config_is_not_fatal :
  let W := demo_world (scripted_runtime 0 0 0 0 0) in
  let args := mkArgs None false (py "devkit.json") [py "images"] in
  fs W (config args) = NoEntry
  /\ fst (main W insertion_order args initial_state) = Ret tt.
Proof. split; vm_compute; reflexivity. Qed.

(** C9, amended.  A configuration file that is present and fails to decode
    ends the run with exit code 1 when nothing else has happened: the only
    event is the error message, no image config is loaded and no command is
    run.  A configuration file that is absent is not an error:
    [load_config] does nothing and [main] goes on to load the image
    configs. *)
Theorem config_decode_failure_is_fatal :
  forall (W : World) (order : SetOrder) (args : Args) (st : State),
    (forall content,
        fs W (config args) = RegularFile content ->
        json_config W content = JSONDecodeError ->
        main W order args st
        = (Exit 1,
           mkState (REPO st)
                   (events st ++ [Print (ConfigDecodeError (config args))])))
    /\ (fs W (config args) = NoEntry ->
        load_config W (config args) st = (Ret tt, st)
        /\ main W order args st
           = bind (load_image_configs W (search_path args))
                  (build_images W order args) st).
Proof.
  intros W order args st. split.
  - intros content Hfile Hjson.
    unfold main, load_config, path_exists, read_file. rewrite Hfile.
    unfold bind at 1. unfold bind at 1. unfold lift. rewrite Hjson.
    reflexivity.
  - intros Habsent.
    assert (E : load_config W (config args) st = (Ret tt, st)).
    { unfold load_config, path_exists. rewrite Habsent. reflexivity. }
    split; [exact E|]. unfold main. unfold bind at 1. rewrite E. reflexivity.
Qed.

Lemma config_decode_failure_is_fatal_witness :
  main (demo_world (scripted_runtime 0 0 0 0 0)) insertion_order
       (mkArgs None false (py "broken.json") [py "images"]) initial_state
  = (Exit 1, mkState [] [Print (ConfigDecodeError (py "broken.json"))]).
Proof.
  exact (proj1 (config_decode_failure_is_fatal
                  (demo_world (scripted_runtime 0 0 0 0 0)) insertion_order
                  (mkArgs None false (py "broken.json") [py "images"])
                  initial_state)
               (bytes_of "{") eq_refl eq_refl).
Defined.

(** ** The dependency graph *)

Unset Implicit Arguments.
Import graphlib.

(** ** Dictionaries *)

Section DictFacts.
Context {V : Type}.
Implicit Types (d : dict V) (k : pystr) (v : V).

Lemma dict_get_In : forall d k v, dict_get k d = Some v -> In (k, v) d.
Proof.
  induction d as [|[k' v'] d IH]; intros k v H; simpl in *; [discriminate|].
  destruct (str_eqb k k') eqn:E.
  - apply str_eqb_eq in E. injection H as <-. subst. now left.
  - right. now apply IH.
Qed.

Lemma dict_get_key : forall d k v, dict_get k d = Some v -> In k (dict_keys d).
Proof.
  intros d k v H. apply dict_get_In in H.
  unfold dict_keys. apply in_map_iff. now exists (k, v).
Qed.

Lemma dict_get_None : forall d k, dict_get k d = None <-> ~ In k (dict_keys d).
Proof.
  induction d as [|[k' v'] d IH]; intros k; simpl.
  - tauto.
  - destruct (str_eqb k k') eqn:E.
    + apply str_eqb_eq in E. subst. split; [discriminate | tauto].
    + apply str_eqb_neq in E. rewrite IH. split; [intros H [H'|H'] | ]; try tauto.
      congruence.
Qed.

Lemma dict_mem_In : forall d k, dict_mem k d = true <-> In k (dict_keys d).
Proof.
  intros d k. unfold dict_mem. destruct (dict_get k d) eqn:E.
  - split; [intros _; eapply dict_get_key; eassumption | reflexivity].
  - apply dict_get_None in E. split; [discriminate | tauto].
Qed.

Lemma dict_mem_not_In : forall d k, dict_mem k d = false <-> ~ In k (dict_keys d).
Proof.
  intros d k. rewrite <- dict_mem_In. destruct (dict_mem k d); split; congruence.
Qed.

Lemma dict_key_get : forall d k, In k (dict_keys d) -> exists v, dict_get k d = Some v.
Proof.
  intros d k H. destruct (dict_get k d) eqn:E; [eauto|].
  apply dict_get_None in E. tauto.
Qed.

Lemma dict_In_get : forall d k v,
  dict_wf d -> In (k, v) d -> dict_get k d = Some v.
Proof.
  induction d as [|[k' v'] d IH]; intros k v Hwf H; simpl in *; [tauto|].
  inversion Hwf as [|? ? Hnotin Hwf']; subst.
  destruct H as [H|H].
  - injection H as -> ->. now rewrite str_eqb_refl.
  - destruct (str_eqb k k') eqn:E.
    + apply str_eqb_eq in E. subst. exfalso. apply Hnotin.
      unfold dict_keys. apply in_map_iff. now exists (k', v).
    + now apply IH.
Qed.

Lemma dict_get_set_same : forall d k v, dict_get k (dict_set k v d) = Some v.
Proof.
  induction d as [|[k' v'] d IH]; intros k v; simpl.
  - now rewrite str_eqb_refl.
  - destruct (str_eqb k k') eqn:E; simpl; rewrite E; [reflexivity | apply IH].
Qed.

Lemma dict_get_set_other : forall d k k' v,
  k' <> k -> dict_get k' (dict_set k v d) = dict_get k' d.
Proof.
  induction d as [|[k0 v0] d IH]; intros k k' v H; simpl.
  - apply str_eqb_neq in H. now rewrite H.
  - destruct (str_eqb k k0) eqn:E; simpl.
    + apply str_eqb_eq in E. subst k0. apply str_eqb_neq in H. now rewrite H.
    + destruct (str_eqb k' k0); [reflexivity | now apply IH].
Qed.

Lemma dict_get_set : forall d k k' v,
  dict_get k' (dict_set k v d) = if str_eqb k' k then Some v else dict_get k' d.
Proof.
  intros d k k' v. destruct (str_eqb k' k) eqn:E.
  - apply str_eqb_eq in E. subst. apply dict_get_set_same.
  - apply str_eqb_neq in E. now apply dict_get_set_other.
Qed.

Lemma dict_keys_set : forall d k v,
  dict_keys (dict_set k v d)
  = if dict_mem k d then dict_keys d else dict_keys d ++ [k].
Proof.
  induction d as [|[k' v'] d IH]; intros k v; simpl.
  - reflexivity.
  - unfold dict_mem. simpl. destruct (str_eqb k k') eqn:E; simpl.
    + reflexivity.
    + rewrite IH. unfold dict_mem. destruct (dict_get k d); reflexivity.
Qed.

Lemma dict_keys_set_In : forall d k v x,
  In x (dict_keys (dict_set k v d)) <-> x = k \/ In x (dict_keys d).
Proof.
  intros d k v x. rewrite dict_keys_set. destruct (dict_mem k d) eqn:E.
  - apply dict_mem_In in E. split; [tauto|]. intros [->|H]; assumption.
  - rewrite in_app_iff. simpl. intuition congruence.
Qed.

Lemma dict_set_wf : forall d k v, dict_wf d -> dict_wf (dict_set k v d).
Proof.
  intros d k v H. unfold dict_wf in *. rewrite dict_keys_set.
  destruct (dict_mem k d) eqn:E; [assumption|].
  apply dict_mem_not_In in E.
  apply NoDup_app; [assumption | repeat constructor; tauto |].
  intros x Hx [<-|[]]. tauto.
Qed.

Lemma dict_set_length_mem : forall d k v,
  dict_mem k d = true -> length (dict_set k v d) = length d.
Proof.
  intros d k v H.
  rewrite <- (length_map fst (dict_set k v d)), <- (length_map fst d).
  fold (dict_keys (dict_set k v d)). rewrite dict_keys_set, H. reflexivity.
Qed.

Lemma dict_keys_del_In : forall d k x,
  dict_wf d -> (In x (dict_keys (dict_del k d)) <-> x <> k /\ In x (dict_keys d)).
Proof.
  induction d as [|[k' v'] d IH]; intros k x Hwf; simpl.
  - tauto.
  - inversion Hwf as [|? ? Hnotin Hwf']; subst.
    destruct (str_eqb k k') eqn:E; simpl.
    + apply str_eqb_eq in E. subst. split.
      * intros H. split; [|tauto]. intros ->. tauto.
      * intros [H1 [H2|H2]]; congruence.
    + apply str_eqb_neq in E. rewrite (IH k x Hwf'). split.
      * intros [H|H]; [subst; split; [congruence | tauto] | tauto].
      * intros [H1 [H2|H2]]; tauto.
Qed.

Lemma dict_del_wf : forall d k, dict_wf d -> dict_wf (dict_del k d).
Proof.
  induction d as [|[k' v'] d IH]; intros k Hwf; simpl.
  - constructor.
  - inversion Hwf as [|? ? Hnotin Hwf']; subst.
    destruct (str_eqb k k'); [assumption|].
    unfold dict_wf. simpl. constructor; [|now apply IH].
    intros H. apply (dict_keys_del_In d k k' Hwf') in H. tauto.
Qed.

Lemma dict_update_wf : forall d2 d, dict_wf d -> dict_wf (dict_update d d2).
Proof.
  unfold dict_update.
  induction d2 as [|[k v] d2 IH]; intros d H; simpl; [assumption|].
  apply IH. now apply dict_set_wf.
Qed.

Lemma mem_snoc : forall x l y, mem x (l ++ [y]) = mem x l || str_eqb x y.
Proof.
  intros x l y. unfold mem. rewrite existsb_app. simpl. now rewrite orb_false_r.
Qed.

Lemma dict_weight_le : forall (size : V -> nat) seen d,
  dict_weight size seen d <= list_sum (map (fun kv => size (snd kv)) d).
Proof.
  intros size seen d. unfold dict_weight.
  induction d as [|[k v] d IH]; simpl; [lia|].
  destruct (mem k seen); simpl; lia.
Qed.

Lemma dict_weight_fresh : forall (size : V -> nat) seen node d,
  ~ In node (dict_keys d) ->
  dict_weight size (seen ++ [node]) d = dict_weight size seen d.
Proof.
  intros size seen node d. unfold dict_weight.
  induction d as [|[k v] d IH]; intros Hd; simpl in *; [reflexivity|].
  rewrite mem_snoc. assert (E : str_eqb k node = false).
  { apply str_eqb_neq. intros ->. tauto. }
  rewrite E, orb_false_r, IH by tauto. reflexivity.
Qed.

(** Seeing one more key takes the size of its entry off the weight. *)
Lemma dict_weight_push : forall (size : V -> nat) seen node v d,
  dict_wf d -> dict_get node d = Some v -> ~ In node seen ->
  dict_weight size (seen ++ [node]) d + size v = dict_weight size seen d.
Proof.
  intros size seen node v.
  induction d as [|[k v'] d IH]; intros Hwf Hget Hnot; simpl in *;
    [discriminate|].
  inversion Hwf as [|? ? Hk Hwf']; subst.
  unfold dict_weight in *. simpl. rewrite mem_snoc.
  destruct (str_eqb node k) eqn:E.
  - apply str_eqb_eq in E. subst k. injection Hget as <-.
    rewrite str_eqb_refl, orb_true_r.
    apply mem_not_In in Hnot. rewrite Hnot.
    pose proof (dict_weight_fresh size seen node d Hk) as Hrest.
    unfold dict_weight in Hrest. rewrite Hrest. lia.
  - assert (E' : str_eqb k node = false).
    { apply str_eqb_neq. apply str_eqb_neq in E. congruence. }
    rewrite E', orb_false_r. specialize (IH Hwf' Hget Hnot).
    destruct (mem k seen); lia.
Qed.

End DictFacts.

Lemma dict_get_app : forall (V : Type) (d1 d2 : dict V) k,
  dict_get k (d1 ++ d2)
  = match dict_get k d1 with Some v => Some v | None => dict_get k d2 end.
Proof.
  induction d1 as [|[k' v'] d1 IH]; intros d2 k; simpl; [reflexivity|].
  destruct (str_eqb k k'); [reflexivity | apply IH].
Qed.

Lemma preds_of_snoc : forall g node ps n,
  ~ In node (dict_keys g) ->
  preds_of (g ++ [(node, ps)]) n = if str_eqb n node then ps else preds_of g n.
Proof.
  intros g node ps n Hfresh. unfold preds_of. rewrite dict_get_app. simpl.
  destruct (str_eqb n node) eqn:E.
  - apply str_eqb_eq in E. subst.
    apply dict_get_None in Hfresh. now rewrite Hfresh.
  - destruct (dict_get n g); reflexivity.
Qed.

Lemma preds_of_key : forall g n x, In x (preds_of g n) -> In n (dict_keys g).
Proof.
  intros g n x H. unfold preds_of in H.
  destruct (dict_get n g) eqn:E; [|destruct H]. eapply dict_get_key; eassumption.
Qed.

Lemma modify_get : forall f node n2i x,
  dict_get x (modify node f n2i)
  = if str_eqb x node then option_map f (dict_get node n2i) else dict_get x n2i.
Proof.
  intros f node n2i x. unfold modify.
  destruct (dict_get node n2i) as [info|] eqn:E.
  - rewrite dict_get_set. destruct (str_eqb x node); reflexivity.
  - destruct (str_eqb x node) eqn:Ex; [|reflexivity].
    apply str_eqb_eq in Ex. subst. now rewrite E.
Qed.

Lemma modify_keys : forall f node n2i,
  dict_keys (modify node f n2i) = dict_keys n2i.
Proof.
  intros f node n2i. unfold modify.
  destruct (dict_get node n2i) as [info|] eqn:E; [|reflexivity].
  rewrite dict_keys_set. unfold dict_mem. now rewrite E.
Qed.

Lemma modify_wf : forall f node n2i, dict_wf n2i -> dict_wf (modify node f n2i).
Proof. intros f node n2i H. unfold dict_wf. now rewrite modify_keys. Qed.

Lemma get_nodeinfo_get : forall node n2i x,
  dict_get x (get_nodeinfo node n2i)
  = match dict_get x n2i with
    | Some i => Some i
    | None => if str_eqb x node then Some (mkNodeInfo 0 []) else None
    end.
Proof.
  intros node n2i x. unfold get_nodeinfo, dict_mem.
  destruct (dict_get node n2i) as [i|] eqn:E.
  - destruct (dict_get x n2i) eqn:Ex; [reflexivity|].
    destruct (str_eqb x node) eqn:E'; [|reflexivity].
    apply str_eqb_eq in E'. subst. congruence.
  - rewrite dict_get_set. destruct (str_eqb x node) eqn:E'.
    + apply str_eqb_eq in E'. subst. now rewrite E.
    + destruct (dict_get x n2i); reflexivity.
Qed.

Lemma get_nodeinfo_keys : forall node n2i x,
  In x (dict_keys (get_nodeinfo node n2i)) <-> x = node \/ In x (dict_keys n2i).
Proof.
  intros node n2i x. unfold get_nodeinfo. destruct (dict_mem node n2i) eqn:E.
  - apply dict_mem_In in E. split; [tauto|]. intros [->|H]; assumption.
  - apply dict_keys_set_In.
Qed.

Lemma get_nodeinfo_wf : forall node n2i,
  dict_wf n2i -> dict_wf (get_nodeinfo node n2i).
Proof.
  intros node n2i H. unfold get_nodeinfo.
  destruct (dict_mem node n2i); [assumption | now apply dict_set_wf].
Qed.

Lemma add_successor_adding : forall g node ps seen_preds pred n2i,
  ~ In node (dict_keys g) ->
  ~ In pred seen_preds ->
  adding g node ps seen_preds n2i ->
  adding g node ps (seen_preds ++ [pred]) (add_successor node n2i pred).
Proof.
  intros g node ps seen_preds pred n2i Hfresh Hnew (Hwf & Hkeys & Hinfo).
  unfold add_successor. split; [|split].
  - apply modify_wf. now apply get_nodeinfo_wf.
  - intros x. rewrite modify_keys, get_nodeinfo_keys, Hkeys, in_app_iff. simpl.
    intuition congruence.
  - intros x info. rewrite modify_get.
    destruct (str_eqb x pred) eqn:E; rewrite get_nodeinfo_get.
    + apply str_eqb_eq in E. subst x.
      destruct (dict_get pred n2i) as [i|] eqn:Ei; simpl.
      * intros H. injection H as <-. simpl.
        destruct (Hinfo pred i Ei) as (Hn & Hnd & Hs).
        split; [exact Hn|]. split.
        -- apply NoDup_app; [assumption | repeat constructor; tauto |].
           intros n Hn1 [<-|[]]. apply Hs in Hn1.
           destruct Hn1 as [Hn1|[_ Hn1]]; [|tauto].
           apply preds_of_key in Hn1. tauto.
        -- intros n. rewrite !in_app_iff, Hs. simpl. intuition congruence.
      * rewrite str_eqb_refl. simpl. intros H. injection H as <-. simpl.
        assert (Hnot : ~ (graph_node g pred \/ pred = node \/ In pred seen_preds)).
        { rewrite <- Hkeys. now apply dict_get_None. }
        destruct (str_eqb pred node) eqn:En;
          [apply str_eqb_eq in En; tauto|].
        split; [|split].
        -- assert (E0 : preds_of g pred = []).
           { unfold preds_of. destruct (dict_get pred g) eqn:Eg; [|reflexivity].
             exfalso. apply Hnot. left. left. eapply dict_get_key; eassumption. }
           now rewrite E0.
        -- repeat constructor; tauto.
        -- intros n. rewrite in_app_iff. simpl. split.
           ++ intros [<-|[]]. right. tauto.
           ++ intros [H|[-> _]]; [|now left].
              exfalso. apply Hnot. left. right. now exists n.
    + rewrite E. apply str_eqb_neq in E.
      destruct (dict_get x n2i) as [i|] eqn:Ei; simpl; [|intros H; discriminate H].
      intros H. injection H as <-.
      destruct (Hinfo x i Ei) as (Hn & Hnd & Hs).
      split; [exact Hn|]. split; [exact Hnd|].
      intros n. rewrite Hs, in_app_iff. simpl. intuition congruence.
Qed.

Lemma fold_add_successor_adding : forall g node ps todo seen_preds n2i,
  ~ In node (dict_keys g) ->
  NoDup (seen_preds ++ todo) ->
  adding g node ps seen_preds n2i ->
  adding g node ps (seen_preds ++ todo)
         (fold_left (add_successor node) todo n2i).
Proof.
  intros g node ps. induction todo as [|pred todo IH];
    intros seen_preds n2i Hfresh Hnd H; simpl.
  - now rewrite app_nil_r.
  - replace (seen_preds ++ pred :: todo) with ((seen_preds ++ [pred]) ++ todo)
      in * by (rewrite <- app_assoc; reflexivity).
    apply IH; [assumption | assumption |].
    apply add_successor_adding; [assumption | | assumption].
    rewrite <- app_assoc in Hnd. simpl in Hnd.
    apply NoDup_remove_2 in Hnd. rewrite in_app_iff in Hnd. tauto.
Qed.

Lemma add_built : forall g node ps ts,
  ready_nodes ts = None ->
  ~ In node (dict_keys g) ->
  NoDup ps ->
  built g (node2info ts) ->
  exists ts', add ts node ps = Ret ts'
              /\ ready_nodes ts' = None
              /\ npassedout ts' = npassedout ts
              /\ nfinished ts' = nfinished ts
              /\ built (g ++ [(node, ps)]) (node2info ts').
Proof.
  intros g node ps ts Hready Hfresh Hnd (Hwf & Hkeys & Hinfo).
  unfold add. rewrite Hready. eexists. split; [reflexivity|]. simpl.
  do 3 (split; [reflexivity|]).
  assert (Hstart : adding g node ps []
            (modify node
               (fun i => mkNodeInfo (npredecessors i + Z.of_nat (length ps))
                                    (successors i))
               (get_nodeinfo node (node2info ts)))).
  { split; [|split].
    - apply modify_wf. now apply get_nodeinfo_wf.
    - intros x. rewrite modify_keys, get_nodeinfo_keys, Hkeys. simpl. tauto.
    - intros x info. rewrite modify_get, !get_nodeinfo_get.
      destruct (str_eqb x node) eqn:E.
      + apply str_eqb_eq in E. subst x. rewrite str_eqb_refl.
        assert (E0 : preds_of g node = []).
        { unfold preds_of. destruct (dict_get node g) eqn:Eg; [|reflexivity].
          exfalso. apply Hfresh. eapply dict_get_key; eassumption. }
        destruct (dict_get node (node2info ts)) as [i|] eqn:Ei; simpl;
          intros H; injection H as <-; simpl.
        * destruct (Hinfo node i Ei) as (Hn & Hnd' & Hs).
          rewrite Hn, E0. simpl. split; [reflexivity|]. split; [assumption|].
          intros n. rewrite Hs. tauto.
        * split; [reflexivity|]. split; [constructor|].
          intros n. split; [tauto|]. intros [H|[_ []]].
          exfalso. apply dict_get_None in Ei. apply Ei, Hkeys.
          right. now exists n.
      + destruct (dict_get x (node2info ts)) as [i|] eqn:Ei; simpl;
          [|intros H; discriminate H].
        intros H. injection H as <-.
        destruct (Hinfo x i Ei) as (Hn & Hnd' & Hs).
        split; [assumption|]. split; [assumption|].
        intros n. rewrite Hs. tauto. }
  pose proof (fold_add_successor_adding g node ps ps [] _ Hfresh Hnd Hstart)
    as (Hwf' & Hkeys' & Hinfo').
  simpl in *. split; [exact Hwf'|]. split.
  - intros x. rewrite Hkeys'. unfold graph_node, dict_keys.
    rewrite map_app, in_app_iff. simpl. split.
    + intros [[H|[n H]]|[->|H]].
      * tauto.
      * right. exists n. rewrite preds_of_snoc by assumption.
        destruct (str_eqb n node) eqn:E; [|assumption].
        apply str_eqb_eq in E. subst. apply preds_of_key in H. tauto.
      * tauto.
      * right. exists node. rewrite preds_of_snoc by assumption.
        now rewrite str_eqb_refl.
    + intros [[H|[H|[]]]|[n H]]; [tauto | subst; tauto |].
      rewrite preds_of_snoc in H by assumption.
      destruct (str_eqb n node); [tauto|]. left. right. now exists n.
  - intros x info Hget. destruct (Hinfo' x info Hget) as (Hn & Hnd' & Hs).
    rewrite preds_of_snoc by assumption. split; [exact Hn|].
    split; [exact Hnd'|]. intros n. rewrite Hs, preds_of_snoc by assumption.
    destruct (str_eqb n node) eqn:E.
    + apply str_eqb_eq in E. subst. split; [|tauto].
      intros [H|[_ H]]; [|assumption]. apply preds_of_key in H. tauto.
    + apply str_eqb_neq in E. intuition congruence.
Qed.

Lemma graph_ok_snoc : forall g node ps,
  graph_ok (g ++ [(node, ps)]) ->
  graph_ok g /\ ~ In node (dict_keys g) /\ NoDup ps.
Proof.
  intros g node ps [Hwf Hnd]. unfold dict_wf, dict_keys in Hwf.
  rewrite map_app in Hwf. simpl in Hwf.
  assert (Hfresh : ~ In node (dict_keys g)).
  { apply NoDup_remove_2 in Hwf. now rewrite app_nil_r in Hwf. }
  split; [split|split].
  - apply NoDup_remove_1 in Hwf. now rewrite app_nil_r in Hwf.
  - intros n. specialize (Hnd n). rewrite preds_of_snoc in Hnd by assumption.
    destruct (str_eqb n node) eqn:E; [|assumption].
    apply str_eqb_eq in E. subst. unfold preds_of.
    apply dict_get_None in Hfresh. rewrite Hfresh. constructor.
  - assumption.
  - specialize (Hnd node). rewrite preds_of_snoc in Hnd by assumption.
    now rewrite str_eqb_refl in Hnd.
Qed.

Lemma add_all_built : forall todo g ts,
  graph_ok (g ++ todo) ->
  ready_nodes ts = None ->
  built g (node2info ts) ->
  exists ts', add_all ts todo = Ret ts'
              /\ ready_nodes ts' = None
              /\ npassedout ts' = npassedout ts
              /\ nfinished ts' = nfinished ts
              /\ built (g ++ todo) (node2info ts').
Proof.
  induction todo as [|[node ps] todo IH]; intros g ts Hok Hready Hbuilt; simpl.
  - exists ts. rewrite app_nil_r. tauto.
  - replace (g ++ (node, ps) :: todo) with ((g ++ [(node, ps)]) ++ todo) in *
      by (rewrite <- app_assoc; reflexivity).
    assert (Hok1 : graph_ok (g ++ [(node, ps)])).
    { destruct Hok as [Hwf Hnd]. split.
      - unfold dict_wf, dict_keys in *. rewrite map_app in Hwf.
        now apply NoDup_app_remove_r in Hwf.
      - intros n. specialize (Hnd n). unfold preds_of in *.
        rewrite dict_get_app in Hnd.
        destruct (dict_get n (g ++ [(node, ps)])); [assumption | constructor]. }
    destruct (graph_ok_snoc _ _ _ Hok1) as (_ & Hfresh & Hnd).
    destruct (add_built g node ps ts Hready Hfresh Hnd Hbuilt)
      as (ts1 & E1 & Hr1 & Hp1 & Hf1 & Hb1).
    rewrite E1. simpl.
    destruct (IH (g ++ [(node, ps)]) ts1 Hok Hr1 Hb1) as (ts2 & E2 & Hr2 & Hp2 & Hf2 & Hb2).
    exists ts2. split; [assumption|]. split; [assumption|].
    split; [congruence|]. split; [congruence | assumption].
Qed.

Lemma init_built : forall g,
  graph_ok g ->
  exists ts, init g = Ret ts
             /\ ready_nodes ts = None
             /\ npassedout ts = 0%Z
             /\ nfinished ts = 0%Z
             /\ built g (node2info ts).
Proof.
  intros g Hok. unfold init.
  apply (add_all_built g [] (mkSorter [] None 0 0));
    [assumption | reflexivity |].
  split; [constructor|]. split.
  - intros x. simpl. split; [tauto|]. intros [[]|[n []]].
  - intros x info H. discriminate.
Qed.

Section FindCycle.

Variable n2i : dict NodeInfo.
Hypothesis n2i_wf : dict_wf n2i.
Hypothesis n2i_closed : forall x y, edge n2i x y -> In y (dict_keys n2i).

Lemma frames_incl : forall stk its K K',
  (forall x, In x K -> In x K') ->
  frames n2i K stk its -> frames n2i K' stk its.
Proof.
  induction stk as [|s stk IH]; intros its K K' Hincl H; destruct its as [|r its];
    simpl in *; try tauto.
  destruct H as (H1 & H2 & H3). split; [|split].
  - intros y Hy. destruct (H1 y Hy); [tauto | right; auto].
  - assumption.
  - apply (IH its (s :: K)); [|assumption].
    intros x [->|Hx]; [now left | right; auto].
Qed.

Lemma ranked_closed : forall F x y,
  ranked n2i F -> In x F -> edge n2i x y -> In y F.
Proof.
  induction F as [|f F IH]; intros x y Hr Hx He; simpl in *; [tauto|].
  destruct Hr as [Hf Hr]. destruct Hx as [->|Hx].
  - right. now apply Hf.
  - right. now apply (IH x y).
Qed.

Lemma ranked_path_stays : forall F x y,
  ranked n2i F -> In x F -> clos_trans pystr (edge n2i) x y -> In y F.
Proof.
  intros F x y Hr Hx Hp. induction Hp as [x y He | x y z _ IH1 _ IH2].
  - now apply (ranked_closed F x y).
  - auto.
Qed.

(** A ranked list holds no node of a cycle. *)
Lemma ranked_acyclic : forall F x,
  ranked n2i F -> In x F -> ~ clos_trans pystr (edge n2i) x x.
Proof.
  induction F as [|f F IH]; intros x Hr Hx Hc; simpl in *; [tauto|].
  destruct Hr as [Hf Hr].
  destruct Hx as [->|Hx]; [|now apply (IH x)].
  apply (IH x Hr); [|assumption].
  apply clos_trans_t1n in Hc. inversion Hc as [? He | y ? He Hrest]; subst.
  - now apply Hf.
  - apply Hf in He. apply clos_t1n_trans in Hrest.
    now apply (ranked_path_stays F y x).
Qed.

Lemma is_path_reaches_top : forall stk t x,
  is_path n2i (t :: stk) -> In x (t :: stk) ->
  clos_refl_trans pystr (edge n2i) x t.
Proof.
  induction stk as [|b stk IH]; intros t x Hp Hx.
  - destruct Hx as [->|[]]. apply rt_refl.
  - destruct Hx as [->|Hx]; [apply rt_refl|].
    destruct Hp as [He Hp].
    apply rt_trans with b; [now apply IH | now apply rt_step].
Qed.

Lemma unseen_weight_le : forall (d : dict NodeInfo) sn,
  unseen_weight d sn <= edges d.
Proof.
  intros d sn. unfold unseen_weight, edges.
  apply (dict_weight_le (fun i => length (successors i))).
Qed.

Lemma unseen_weight_push : forall (d : dict NodeInfo) sn node info,
  dict_wf d -> dict_get node d = Some info -> ~ In node sn ->
  unseen_weight d (sn ++ [node]) + length (successors info)
  = unseen_weight d sn.
Proof.
  intros d sn node info. unfold unseen_weight.
  apply (dict_weight_push (fun i => length (successors i))).
Qed.

(** The inner loop: from a state in which every frame is accounted for, it
    either empties the stack or hands out the next successor of the top. *)
Lemma backtrack_spec : forall stk its n2s sn F,
  dfs_inv n2i (mkDfs stk its sn n2s) F F ->
  exists r d',
    backtrack stk its n2s sn = Ret (r, d')
    /\ seen d' = sn
    /\ exists F',
         incl F F'
         /\ match r with
            | None => dfs_inv n2i d' F' F' /\ stack d' = []
            | Some next =>
                dfs_inv n2i d' F' (next :: F')
                /\ In next (dict_keys n2i)
                /\ (exists t rest, stack d' = t :: rest /\ edge n2i t next)
                /\ S (list_sum (map (@length pystr) (itstack d')))
                   = list_sum (map (@length pystr) its)
            end.
Proof.
  induction stk as [|top stk IH]; intros its n2s sn F Hinv.
  - exists None, (mkDfs [] its sn n2s). simpl. split; [reflexivity|].
    split; [reflexivity|]. exists F. split; [apply incl_refl|]. tauto.
  - destruct Hinv as (Hfr & Hpath & Hnd & Hseen & Hwf & Hkeys & Hrank & Hin).
    simpl in *. destruct its as [|r its]; [tauto|].
    destruct Hfr as (Hsucc & Hincl & Hfr).
    destruct r as [|next more].
    + assert (Hmem : dict_mem top n2s = true).
      { apply dict_mem_In, Hkeys. now left. }
      rewrite Hmem.
      assert (Hnd' : NoDup (stk ++ top :: F)).
      { apply (Permutation_NoDup (l := top :: stk ++ F));
          [apply Permutation_middle | assumption]. }
      destruct (IH its (dict_del top n2s) sn (top :: F)) as (r & d' & E & Hsn & F' & HF & Hr).
      { unfold dfs_inv. simpl. split; [assumption|].
        split; [tauto|]. split; [assumption|].
        split; [intros x; rewrite Hseen; tauto|].
        split; [now apply dict_del_wf|].
        split.
        - intros x. rewrite dict_keys_del_In by assumption. rewrite Hkeys.
          inversion Hnd as [|? ? Htop _]; subst. rewrite in_app_iff in Htop.
          split; [intros [H1 [H2|H2]]; congruence|].
          intros H. split; [intros ->; tauto | tauto].
        - split.
          + split; [|assumption]. intros y Hy.
            destruct (Hsucc y Hy) as [[]|Hy']. assumption.
          + intros x [H|[<-|H]]; apply Hin; tauto. }
      exists r, d'. split; [exact E|]. split; [exact Hsn|].
      exists F'. split; [intros x Hx; apply HF; now right|].
      destruct r as [nx|]; [|exact Hr].
      destruct Hr as (H1 & H2 & H3 & H4). simpl. tauto.
    + exists (Some next), (mkDfs (top :: stk) (more :: its) sn n2s).
      split; [reflexivity|]. split; [reflexivity|].
      exists F. split; [apply incl_refl|].
      assert (Hedge : edge n2i top next) by (apply Hincl; now left).
      split; [|split; [|split]].
      * unfold dfs_inv. simpl. split; [|tauto].
        split; [|split].
        -- intros y Hy. destruct (Hsucc y Hy) as [[<-|Hy']|Hy']; simpl; tauto.
        -- intros y Hy. apply Hincl. now right.
        -- apply (frames_incl stk its (top :: F)); [|assumption].
           intros x [->|Hx]; simpl; tauto.
      * now apply (n2i_closed top).
      * exists top, stk. tauto.
      * simpl. lia.
Qed.

Lemma dfs_inv_forget : forall d F node,
  In node F -> dfs_inv n2i d F (node :: F) -> dfs_inv n2i d F F.
Proof.
  intros d F node Hin (Hfr & Hrest). split; [|exact Hrest].
  apply (frames_incl _ _ (node :: F)); [|assumption].
  intros x [->|Hx]; assumption.
Qed.

Lemma walk_spec : forall fuel node d F,
  dfs_inv n2i d F (node :: F) ->
  In node (dict_keys n2i) ->
  match stack d with t :: _ => edge n2i t node | [] => True end ->
  dfs_weight n2i d < fuel ->
  exists res d',
    walk fuel n2i node d = Ret (res, d')
    /\ match res with
       | Some c => c <> [] /\ cyclic_graph n2i
       | None =>
           exists F', incl F F' /\ dfs_inv n2i d' F' F' /\ stack d' = []
                      /\ In node (seen d') /\ incl (seen d) (seen d')
       end.
Proof.
  induction fuel as [|fuel IH]; intros node d F Hinv Hnode Htop Hfuel; [lia|].
  (* what follows once the node has been dealt with *)
  assert (Hnext : forall d1,
    dfs_inv n2i d1 F F -> dfs_weight n2i d1 <= dfs_weight n2i d ->
    In node (seen d1) -> incl (seen d) (seen d1) ->
    exists res d',
      (b <~ backtrack (stack d1) (itstack d1) (node2stacki d1) (seen d1) ;;
       match b with
       | (Some next, d2) => walk fuel n2i next d2
       | (None, d2) => Ret (None, d2)
       end)%outcome = Ret (res, d')
      /\ match res with
         | Some c => c <> [] /\ cyclic_graph n2i
         | None =>
             exists F', incl F F' /\ dfs_inv n2i d' F' F' /\ stack d' = []
                        /\ In node (seen d') /\ incl (seen d) (seen d')
         end).
  { intros d1 Hinv1 Hw1 Hseen1 Hincl1.
    destruct d1 as [stk1 its1 sn1 n2s1]. simpl in *.
    destruct (backtrack_spec stk1 its1 n2s1 sn1 F Hinv1)
      as (r & d2 & E & Hsn & F' & HF & Hr).
    rewrite E. simpl. destruct r as [next|].
    - destruct Hr as (Hinv2 & Hkey & (t & rest & Hstk & Hedge) & Hpend).
      destruct (IH next d2 F' Hinv2 Hkey) as (res & d' & E' & Hres).
      + now rewrite Hstk.
      + unfold dfs_weight in *. simpl in *. rewrite Hsn. lia.
      + exists res, d'. split; [exact E'|].
        destruct res as [c|]; [exact Hres|].
        destruct Hres as (F'' & HF' & Hinv' & Hstk' & _ & Hincl').
        rewrite Hsn in Hincl'.
        exists F''. split; [intros x Hx; auto|]. split; [assumption|].
        split; [assumption|]. split; [auto|].
        intros x Hx. auto.
    - exists None, d2. split; [reflexivity|]. destruct Hr as [Hinv2 Hstk2].
      exists F'. rewrite Hsn. tauto. }
  simpl. unfold visit.
  pose proof Hinv as (Hfr & Hpath & Hnd & Hseen & Hwf & Hkeys & Hrank & Hin).
  destruct (mem node (seen d)) eqn:Hmem.
  - apply mem_In in Hmem.
    destruct (dict_get node (node2stacki d)) as [i|] eqn:Hi.
    + simpl. eexists _, d. split; [reflexivity|]. split.
      * intros H. apply app_eq_nil in H. destruct H; discriminate.
      * apply dict_get_key, Hkeys in Hi.
        destruct (stack d) as [|t rest] eqn:Hstk; [destruct Hi|].
        exists node.
        apply (clos_rt_t _ _ node t node);
          [now apply (is_path_reaches_top rest) | now apply t_step].
    + simpl. apply dict_get_None in Hi.
      assert (HinF : In node F).
      { apply Hseen in Hmem. rewrite Hkeys in Hi. tauto. }
      apply (Hnext d (dfs_inv_forget d F node HinF Hinv));
        [lia | assumption | apply incl_refl].
  - apply mem_not_In in Hmem.
    destruct (dict_key_get n2i node Hnode) as (info & Hinfo). rewrite Hinfo.
    assert (Hfresh : ~ In node (stack d) /\ ~ In node F).
    { rewrite Hseen in Hmem. tauto. }
    apply (Hnext (mkDfs (node :: stack d) (successors info :: itstack d)
                        (seen d ++ [node])
                        (dict_set node (length (stack d)) (node2stacki d)))).
    + unfold dfs_inv. simpl. split; [split; [|split]|].
      * intros y Hy. left. unfold edge, succs_of in Hy. now rewrite Hinfo in Hy.
      * unfold succs_of. rewrite Hinfo. apply incl_refl.
      * assumption.
      * split; [split; [|assumption]|].
        -- destruct (stack d); [exact I | exact Htop].
        -- split; [constructor; [rewrite in_app_iff; tauto | assumption]|].
           split; [intros x; rewrite in_app_iff, Hseen; simpl; tauto|].
           split; [now apply dict_set_wf|].
           split; [intros x; rewrite dict_keys_set_In, Hkeys; intuition congruence|].
           split; [assumption|].
           intros x [[<-|H]|H]; [assumption | apply Hin; tauto | apply Hin; tauto].
    + unfold dfs_weight. simpl.
      pose proof (unseen_weight_push n2i (seen d) node info n2i_wf Hinfo Hmem).
      lia.
    + simpl. rewrite in_app_iff. simpl. tauto.
    + simpl. intros x Hx. rewrite in_app_iff. tauto.
Qed.

Lemma frames_nil : forall K its, frames n2i K [] its -> its = [].
Proof. intros K [|r its] H; [reflexivity | destruct H]. Qed.

Lemma find_cycle_from_spec : forall roots d F,
  dfs_inv n2i d F F -> stack d = [] -> incl roots (dict_keys n2i) ->
  exists res,
    find_cycle_from n2i roots d = Ret res
    /\ match res with
       | Some c => c <> [] /\ cyclic_graph n2i
       | None =>
           exists F', NoDup F' /\ ranked n2i F'
                      /\ (forall x, In x roots \/ In x F -> In x F')
                      /\ incl F' (dict_keys n2i)
       end.
Proof.
  induction roots as [|node roots IH]; intros d F Hinv Hstk Hroots;
    cbn [find_cycle_from].
  - exists None. split; [reflexivity|].
    destruct Hinv as (_ & _ & Hnd & _ & _ & _ & Hrank & Hin).
    rewrite Hstk in Hnd. simpl in Hnd. exists F.
    split; [assumption|]. split; [assumption|].
    split; [intros x [[]|Hx]; assumption|].
    intros x Hx. apply Hin. tauto.
  - assert (Hroots' : incl roots (dict_keys n2i)).
    { intros x Hx. apply Hroots. now right. }
    destruct (mem node (seen d)) eqn:Hmem.
    + destruct (IH d F Hinv Hstk Hroots') as (res & E & Hres).
      exists res. split; [exact E|]. destruct res as [c|]; [exact Hres|].
      destruct Hres as (F' & H1 & H2 & H3 & H4). exists F'.
      split; [assumption|]. split; [assumption|]. split; [|assumption].
      intros x [[<-|Hx]|Hx]; [|auto|auto].
      apply H3. right. apply mem_In in Hmem.
      destruct Hinv as (_ & _ & _ & Hseen & _). apply Hseen in Hmem.
      rewrite Hstk in Hmem. simpl in Hmem. tauto.
    + assert (Hinv' : dfs_inv n2i d F (node :: F)).
      { destruct Hinv as (Hfr & Hrest). split; [|exact Hrest].
        apply (frames_incl _ _ F); [intros x Hx; now right | assumption]. }
      destruct (walk_spec (S (edges n2i)) node d F Hinv')
        as (res & d' & E & Hres).
      * apply Hroots. now left.
      * now rewrite Hstk.
      * unfold dfs_weight. destruct Hinv as (Hfr & _). rewrite Hstk in Hfr.
        apply frames_nil in Hfr. rewrite Hfr. simpl.
        pose proof (unseen_weight_le n2i (seen d)). lia.
      * rewrite E. simpl. destruct res as [c|].
        -- exists (Some c). split; [reflexivity | exact Hres].
        -- destruct Hres as (F' & HF & Hinv1 & Hstk1 & Hseen1 & _).
           destruct (IH d' F' Hinv1 Hstk1 Hroots') as (res & E' & Hres).
           exists res. split; [exact E'|]. destruct res as [c|]; [exact Hres|].
           destruct Hres as (F'' & H1 & H2 & H3 & H4). exists F''.
           split; [assumption|]. split; [assumption|]. split; [|assumption].
           intros x [[<-|Hx]|Hx]; [|auto|auto].
           apply H3. right.
           destruct Hinv1 as (_ & _ & _ & Hs & _). apply Hs in Hseen1.
           rewrite Hstk1 in Hseen1. simpl in Hseen1. tauto.
Qed.

(** [_find_cycle] always answers: with a cycle when the graph has one, and
    otherwise with a ranking of all nodes behind it. *)
Lemma find_cycle_from_keys :
  exists res,
    find_cycle_from n2i (dict_keys n2i) (mkDfs [] [] [] []) = Ret res
    /\ match res with
       | Some c => c <> [] /\ cyclic_graph n2i
       | None =>
           exists F, NoDup F /\ ranked n2i F
                     /\ (forall x, In x (dict_keys n2i) <-> In x F)
       end.
Proof.
  destruct (find_cycle_from_spec (dict_keys n2i) (mkDfs [] [] [] []) [])
    as (res & E & Hres).
  - unfold dfs_inv. simpl. repeat split; try tauto; try constructor.
  - reflexivity.
  - apply incl_refl.
  - exists res. split; [exact E|]. destruct res as [c|]; [exact Hres|].
    destruct Hres as (F & H1 & H2 & H3 & H4). exists F.
    split; [assumption|]. split; [assumption|].
    intros x. split; [intros Hx; apply H3; now left | apply H4].
Qed.

Lemma ranked_not_cyclic : forall F,
  ranked n2i F -> (forall x, In x (dict_keys n2i) -> In x F) ->
  ~ cyclic_graph n2i.
Proof.
  intros F Hrank Hall [x Hx].
  apply (ranked_acyclic F x Hrank); [|assumption].
  apply Hall. apply clos_trans_t1n in Hx.
  assert (Hedge : exists y, edge n2i x y) by (inversion Hx; eauto).
  destruct Hedge as [y Hy]. unfold edge, succs_of in Hy.
  destruct (dict_get x n2i) eqn:E; [|destruct Hy].
  apply dict_get_key in E. exact E.
Qed.

End FindCycle.

Section Kahn.

Variable g : dict (list pystr).
Hypothesis g_ok : graph_ok g.

Lemma before_app_l : forall l r a b, before l a b -> before (l ++ r) a b.
Proof.
  intros l r a b (i & j & Hi & Hj & Hlt). exists i, j.
  rewrite !nth_error_app1; [tauto | |].
  - apply nth_error_Some. congruence.
  - apply nth_error_Some. congruence.
Qed.

Lemma before_app_lr : forall l r a b, In a l -> In b r -> before (l ++ r) a b.
Proof.
  intros l r a b Ha Hb.
  apply In_nth_error in Ha. destruct Ha as [i Hi].
  apply In_nth_error in Hb. destruct Hb as [j Hj].
  assert (Hlen : i < length l) by (apply nth_error_Some; congruence).
  exists i, (length l + j). split; [|split].
  - now rewrite nth_error_app1.
  - rewrite nth_error_app2 by lia. now replace (length l + j - length l) with j by lia.
  - lia.
Qed.

Lemma before_In : forall l a b, before l a b -> In a l /\ In b l.
Proof.
  intros l a b (i & j & Hi & Hj & _).
  split; eapply nth_error_In; eassumption.
Qed.

Lemma count_zero : forall done n,
  count g done n = 0%Z <-> forall p, In p (preds_of g n) -> In p done.
Proof.
  intros done n. unfold count. split.
  - intros H p Hp. destruct (mem p done) eqn:E; [now apply mem_In|].
    assert (Hin : In p (filter (fun p => negb (mem p done)) (preds_of g n))).
    { apply filter_In. split; [assumption | now rewrite E]. }
    destruct (filter _ (preds_of g n)); [destruct Hin | simpl in H; lia].
  - intros H.
    assert (E : filter (fun p => negb (mem p done)) (preds_of g n) = []).
    { induction (preds_of g n) as [|p l IH]; simpl; [reflexivity|].
      assert (Hp : mem p done = true) by (apply mem_In, H; now left).
      rewrite Hp. simpl. apply IH. intros q Hq. apply H. now right. }
    now rewrite E.
Qed.

Lemma filter_done_step : forall (l : list pystr) done x,
  NoDup l -> ~ In x done ->
  length (filter (fun p => negb (mem p done)) l)
  = length (filter (fun p => negb (mem p (done ++ [x]))) l)
    + (if mem x l then 1 else 0).
Proof.
  induction l as [|p l IH]; intros done x Hnd Hx; simpl; [reflexivity|].
  inversion Hnd as [|? ? Hp Hnd']; subst.
  rewrite mem_snoc. specialize (IH done x Hnd' Hx).
  destruct (str_eqb x p) eqn:E.
  - apply str_eqb_eq in E. subst p.
    assert (E1 : mem x done = false) by now apply mem_not_In.
    assert (E2 : mem x l = false) by now apply mem_not_In.
    rewrite E1, str_eqb_refl. simpl. rewrite E2 in IH. lia.
  - assert (E' : str_eqb p x = false).
    { apply str_eqb_neq. apply str_eqb_neq in E. congruence. }
    rewrite E', orb_false_r. simpl.
    destruct (mem p done); simpl; lia.
Qed.

Lemma count_step : forall done x n,
  ~ In x done ->
  count g (done ++ [x]) n
  = (count g done n - (if mem x (preds_of g n) then 1 else 0))%Z.
Proof.
  intros done x n Hx. unfold count.
  destruct g_ok as [_ Hnd].
  rewrite (filter_done_step (preds_of g n) done x (Hnd n) Hx).
  destruct (mem x (preds_of g n)); lia.
Qed.

Lemma count_nonneg : forall done n, (0 <= count g done n)%Z.
Proof. intros. unfold count. lia. Qed.

Lemma count_pos : forall done x n,
  In x (preds_of g n) -> ~ In x done -> (1 <= count g done n)%Z.
Proof.
  intros done x n Hin Hx.
  destruct (Z.eq_dec (count g done n) 0) as [E|E].
  - exfalso. apply Hx. now apply (proj1 (count_zero done n) E).
  - pose proof (count_nonneg done n). lia.
Qed.

Lemma status_pending : forall done out x,
  ~ In x done -> ~ In x out -> status g done out x = count g done x.
Proof.
  intros done out x H1 H2. unfold status.
  apply mem_not_In in H1. apply mem_not_In in H2. now rewrite H1, H2.
Qed.

Lemma pred_is_node : forall n p, In p (preds_of g n) -> graph_node g p.
Proof. intros n p H. right. now exists n. Qed.

Lemma succ_is_node : forall n p, In p (preds_of g n) -> graph_node g n.
Proof. intros n p H. left. eapply preds_of_key. eassumption. Qed.

(** [get_ready] marks the ready nodes. *)
Lemma mark_out_spec : forall nodes done out n2i,
  tracking g done out n2i ->
  (forall x, In x nodes -> graph_node g x /\ ~ In x done) ->
  exists n2i',
    mark_out n2i nodes = Ret n2i' /\ tracking g done (out ++ nodes) n2i'.
Proof.
  induction nodes as [|node nodes IH]; intros done out n2i Htr Hnodes; simpl.
  - exists n2i. rewrite app_nil_r. tauto.
  - destruct Htr as (Hwf & Hkeys & Hinfo).
    destruct (Hnodes node (or_introl eq_refl)) as [Hnode Hnd].
    apply Hkeys in Hnode. destruct (dict_key_get n2i node Hnode) as [info Hget].
    rewrite Hget.
    replace (out ++ node :: nodes) with ((out ++ [node]) ++ nodes)
      by (rewrite <- app_assoc; reflexivity).
    apply IH; [|intros x Hx; apply Hnodes; now right].
    split; [now apply dict_set_wf|]. split.
    + intros x. rewrite dict_keys_set_In, <- Hkeys. split; [|tauto].
      intros [->|H]; assumption.
    + intros x i. rewrite dict_get_set. destruct (str_eqb x node) eqn:E.
      * apply str_eqb_eq in E. subst x. intros H. injection H as <-. simpl.
        destruct (Hinfo node info Hget) as (H1 & H2 & _).
        split; [assumption|]. split; [assumption|].
        unfold status. apply mem_not_In in Hnd. rewrite Hnd, mem_snoc.
        now rewrite str_eqb_refl, orb_true_r.
      * intros H. destruct (Hinfo x i H) as (H1 & H2 & H3).
        split; [assumption|]. split; [assumption|].
        rewrite H3. unfold status. rewrite mem_snoc, E, orb_false_r. reflexivity.
Qed.

(** The inner loop of [done]: every successor of [node] loses one
    predecessor, and those left with none become ready. *)
Lemma release_spec : forall stale done out node n2i ready,
  releasing g done out node stale n2i ->
  NoDup stale ->
  ~ In node done ->
  (forall s, In s stale ->
             In node (preds_of g s) /\ ~ In s (done ++ [node]) /\ ~ In s out) ->
  NoDup ready ->
  (forall n, In n ready
             <-> graph_node g n /\ ~ In n (done ++ [node]) /\ ~ In n out
                 /\ (if mem n stale then count g done n
                     else count g (done ++ [node]) n) = 0%Z) ->
  exists n2i' ready',
    release n2i ready stale = Ret (n2i', ready')
    /\ releasing g done out node [] n2i'
    /\ ready_for g (done ++ [node]) out ready'.
Proof.
  induction stale as [|s stale IH];
    intros done out node n2i ready Hrel Hnd Hnode Hstale Hrnd Hready; simpl.
  - exists n2i, ready. split; [reflexivity|]. split; [assumption|].
    split; assumption.
  - destruct Hrel as (Hwf & Hkeys & Hinfo).
    inversion Hnd as [|? ? Hs Hnd']; subst.
    destruct (Hstale s (or_introl eq_refl)) as (Hpred & HsD & HsO).
    assert (Hskey : In s (dict_keys n2i)).
    { apply Hkeys. eapply succ_is_node. eassumption. }
    destruct (dict_key_get n2i s Hskey) as [info Hget]. rewrite Hget.
    destruct (Hinfo s info Hget) as (Hsn & Hss & Hcount).
    assert (HsD0 : ~ In s done) by (rewrite in_app_iff in HsD; tauto).
    assert (Hnow : npredecessors info = count g done s).
    { rewrite Hcount. unfold mem at 1. simpl. rewrite str_eqb_refl. simpl.
      now apply status_pending. }
    assert (Hstep : (npredecessors info - 1)%Z = count g (done ++ [node]) s).
    { rewrite Hnow, (count_step done node s Hnode).
      apply mem_In in Hpred. now rewrite Hpred. }
    assert (Hmem_s : forall n, mem n (s :: stale) = str_eqb n s || mem n stale).
    { intros n. reflexivity. }
    apply IH; try assumption.
    + split; [now apply dict_set_wf|]. split.
      * intros x. rewrite dict_keys_set_In, <- Hkeys. split; [|tauto].
        intros [->|H]; assumption.
      * intros x i. rewrite dict_get_set. destruct (str_eqb x s) eqn:E.
        -- apply str_eqb_eq in E. subst x. intros H. injection H as <-. simpl.
           split; [assumption|]. split; [assumption|].
           apply mem_not_In in Hs. rewrite Hs, Hstep.
           symmetry. now apply status_pending.
        -- intros H. destruct (Hinfo x i H) as (H1 & H2 & H3).
           split; [assumption|]. split; [assumption|].
           rewrite H3, Hmem_s, E. reflexivity.
    + intros x Hx. apply Hstale. now right.
    + destruct (npredecessors info - 1 =? 0)%Z eqn:Ez; [|assumption].
      apply NoDup_app; [assumption | repeat constructor; tauto |].
      intros x Hx [<-|[]]. apply Hready in Hx.
      rewrite Hmem_s, str_eqb_refl in Hx. simpl in Hx.
      pose proof (count_pos done node s Hpred Hnode). lia.
    + intros n.
      assert (Hold : In n ready
                     <-> graph_node g n /\ ~ In n (done ++ [node]) /\ ~ In n out
                         /\ n <> s
                         /\ (if mem n stale then count g done n
                             else count g (done ++ [node]) n) = 0%Z).
      { rewrite Hready, Hmem_s. destruct (str_eqb n s) eqn:E.
        - apply str_eqb_eq in E. subst n. simpl.
          pose proof (count_pos done node s Hpred Hnode). split; [lia | tauto].
        - apply str_eqb_neq in E. simpl. tauto. }
      assert (Hs' : mem s stale = false) by now apply mem_not_In.
      destruct (npredecessors info - 1 =? 0)%Z eqn:Ez.
      * apply Z.eqb_eq in Ez. rewrite in_app_iff, Hold. simpl. split.
        -- intros [H|[<-|[]]]; [tauto|]. rewrite Hs'. split; [|split; [|split]];
             try assumption; [eapply succ_is_node; eassumption | lia].
        -- intros (H1 & H2 & H3 & H4).
           destruct (pystr_eq_dec n s) as [->|Hne]; [tauto|]. left. tauto.
      * apply Z.eqb_neq in Ez. rewrite Hold. split; [tauto|].
        intros (H1 & H2 & H3 & H4). split; [assumption|]. split; [assumption|].
        split; [assumption|]. split; [|assumption].
        intros ->. rewrite Hs' in H4. lia.
Qed.

End Kahn.

Section KahnLoop.

Variable g : dict (list pystr).
Hypothesis g_ok : graph_ok g.

Lemma count_other : forall done x n,
  ~ In x done -> ~ In x (preds_of g n) ->
  count g (done ++ [x]) n = count g done n.
Proof.
  intros done x n Hx Hn. rewrite (count_step g g_ok done x n Hx).
  apply mem_not_In in Hn. rewrite Hn. lia.
Qed.

Lemma done_one_spec : forall ts node done out ready,
  ready_nodes ts = Some ready ->
  tracking g done out (node2info ts) ->
  ready_for g done out ready ->
  graph_node g node -> In node out -> ~ In node done ->
  (forall s, In node (preds_of g s) -> ~ In s done /\ ~ In s out) ->
  exists ts' ready',
    done_one ts node = Ret ts'
    /\ ready_nodes ts' = Some ready'
    /\ tracking g (done ++ [node]) out (node2info ts')
    /\ ready_for g (done ++ [node]) out ready'
    /\ npassedout ts' = npassedout ts
    /\ nfinished ts' = (nfinished ts + 1)%Z.
Proof.
  intros ts node done out ready Hready (Hwf & Hkeys & Hinfo) (Hrnd & Hrin)
         Hnode Hout Hdone Hsettled.
  unfold done_one. rewrite Hready.
  assert (Hkey : In node (dict_keys (node2info ts))) by now apply Hkeys.
  destruct (dict_key_get (node2info ts) node Hkey) as [nodeinfo Hget].
  rewrite Hget. destruct (Hinfo node nodeinfo Hget) as (Hsn & Hss & Hstat).
  assert (Hst : npredecessors nodeinfo = NODE_OUT).
  { rewrite Hstat. unfold status. apply mem_not_In in Hdone. rewrite Hdone.
    apply mem_In in Hout. now rewrite Hout. }
  rewrite Hst. simpl.
  assert (Hself : ~ In node (successors nodeinfo)).
  { intros H. apply Hss in H. apply Hsettled in H. tauto. }
  destruct (release_spec g g_ok (successors nodeinfo) done out node
              (dict_set node (mkNodeInfo NODE_DONE (successors nodeinfo))
                        (node2info ts)) ready)
    as (n2i' & ready' & E & Hrel & Hready').
  - split; [now apply dict_set_wf|]. split.
    + intros x. rewrite dict_keys_set_In, <- Hkeys. split; [|tauto].
      intros [->|H]; assumption.
    + intros x i. rewrite dict_get_set. destruct (str_eqb x node) eqn:Ex.
      * apply str_eqb_eq in Ex. subst x. intros H. injection H as <-. simpl.
        split; [assumption|]. split; [assumption|].
        apply mem_not_In in Hself. rewrite Hself. unfold status.
        now rewrite mem_snoc, str_eqb_refl, orb_true_r.
      * intros H. destruct (Hinfo x i H) as (H1 & H2 & H3).
        split; [assumption|]. split; [assumption|].
        rewrite H3. destruct (mem x (successors nodeinfo)) eqn:Em; [reflexivity|].
        apply mem_not_In in Em. rewrite Hss in Em.
        unfold status. rewrite mem_snoc, Ex, orb_false_r.
        now rewrite (count_other done node x Hdone Em).
  - assumption.
  - assumption.
  - intros s Hs. apply Hss in Hs. destruct (Hsettled s Hs) as [H1 H2].
    split; [assumption|]. split; [|assumption].
    rewrite in_app_iff. simpl. intros [H|[H|[]]]; [tauto|]. subst s. tauto.
  - assumption.
  - intros n. rewrite Hrin. rewrite in_app_iff. simpl.
    destruct (mem n (successors nodeinfo)) eqn:Em.
    + apply mem_In, Hss in Em. split; [|tauto].
      intros (H1 & H2 & H3 & H4). split; [assumption|].
      split; [|tauto]. intros [H|[H|[]]]; [tauto|]. subst n. tauto.
    + apply mem_not_In in Em. rewrite Hss in Em.
      rewrite (count_other done node n Hdone Em). split.
      * intros (H1 & H2 & H3 & H4). split; [assumption|].
        split; [|tauto]. intros [H|[H|[]]]; [tauto|]. subst n. tauto.
      * tauto.
  - rewrite E. simpl. eexists _, ready'. split; [reflexivity|]. simpl.
    split; [reflexivity|]. split; [|tauto].
    destruct Hrel as (H1 & H2 & H3). split; [assumption|].
    split; [assumption|]. exact H3.
Qed.

Lemma done_spec : forall nodes ts done out ready,
  ready_nodes ts = Some ready ->
  tracking g done out (node2info ts) ->
  ready_for g done out ready ->
  NoDup nodes ->
  (forall x, In x nodes -> graph_node g x /\ In x out /\ ~ In x done) ->
  (forall x s, In x nodes -> In x (preds_of g s) -> ~ In s done /\ ~ In s out) ->
  exists ts' ready',
    graphlib.done ts nodes = Ret ts'
    /\ ready_nodes ts' = Some ready'
    /\ tracking g (done ++ nodes) out (node2info ts')
    /\ ready_for g (done ++ nodes) out ready'
    /\ npassedout ts' = npassedout ts
    /\ nfinished ts' = (nfinished ts + Z.of_nat (length nodes))%Z.
Proof.
  induction nodes as [|node nodes IH];
    intros ts done out ready Hready Htr Hrf Hnd Hnodes Hsettled; simpl.
  - rewrite Hready. exists ts, ready. rewrite app_nil_r.
    split; [reflexivity|]. split; [assumption|]. split; [assumption|].
    split; [assumption|]. split; [reflexivity | lia].
  - inversion Hnd as [|? ? Hnew Hnd']; subst.
    destruct (Hnodes node (or_introl eq_refl)) as (Hnode & Hout & Hdone).
    destruct (done_one_spec ts node done out ready Hready Htr Hrf Hnode Hout Hdone)
      as (ts1 & ready1 & E1 & Hr1 & Htr1 & Hrf1 & Hp1 & Hf1).
    { intros s Hs. apply (Hsettled node s); [now left | assumption]. }
    rewrite E1. simpl.
    destruct (IH ts1 (done ++ [node]) out ready1 Hr1 Htr1 Hrf1 Hnd')
      as (ts2 & ready2 & E2 & Hr2 & Htr2 & Hrf2 & Hp2 & Hf2).
    { intros x Hx. destruct (Hnodes x (or_intror Hx)) as (H1 & H2 & H3).
      split; [assumption|]. split; [assumption|].
      rewrite in_app_iff. simpl. intros [H|[H|[]]]; [tauto|]. subst x. tauto. }
    { intros x s Hx Hs. destruct (Hsettled x s (or_intror Hx) Hs) as [H1 H2].
      split; [|assumption]. rewrite in_app_iff. simpl.
      intros [H|[H|[]]]; [tauto|]. subst s. tauto. }
    exists ts2, ready2. rewrite <- app_assoc in Htr2, Hrf2. simpl in Htr2, Hrf2.
    split; [assumption|]. split; [assumption|]. split; [assumption|].
    split; [assumption|]. split; [congruence|]. rewrite Hf2, Hf1. lia.
Qed.

Lemma status_after_round : forall yielded r x,
  status g (yielded ++ r) r x = status g (yielded ++ r) [] x.
Proof.
  intros yielded r x. unfold status.
  destruct (mem x (yielded ++ r)) eqn:E; [reflexivity|].
  apply mem_not_In in E. rewrite in_app_iff in E.
  assert (E' : mem x r = false) by (apply mem_not_In; tauto).
  now rewrite E'.
Qed.

(** The loop of [static_order] yields every node it can, in an order in
    which predecessors come first, within the fuel. *)
Lemma static_loop_spec : forall bound fuel ts yielded,
  (forall l, NoDup l -> (forall x, In x l -> graph_node g x) -> length l <= bound) ->
  round_inv g ts yielded ->
  bound < fuel + length yielded ->
  exists l,
    static_loop fuel ts yielded = Ret l
    /\ NoDup l
    /\ (forall x, In x l -> graph_node g x)
    /\ topological g l
    /\ (forall n, graph_node g n -> ~ In n l -> count g l n <> 0%Z).
Proof.
  intros bound. induction fuel as [|fuel IH]; intros ts yielded Hbound Hinv Hfuel.
  - destruct Hinv as (ready & _ & _ & _ & _ & Hnd & Hnodes & _).
    specialize (Hbound yielded Hnd Hnodes). lia.
  - destruct Hinv as (ready & Hready & Htr & Hrf & Hfin & Hnd & Hnodes & Htopo).
    simpl. unfold is_active. rewrite Hready. simpl.
    rewrite Hfin, Z.ltb_irrefl. simpl.
    destruct ready as [|r0 ready'].
    + exists yielded. split; [reflexivity|]. split; [assumption|].
      split; [assumption|]. split; [assumption|].
      intros n Hn Hnot Hc. destruct Hrf as [_ Hin].
      apply (proj2 (Hin n)). simpl. tauto.
    + cbn -[get_ready graphlib.done static_loop].
      remember (r0 :: ready') as ready eqn:Hr.
      assert (Hne : 1 <= length ready) by (subst ready; simpl; lia).
      clear Hr.
      destruct Hrf as [Hrnd Hrin].
      unfold get_ready. rewrite Hready.
      destruct (mark_out_spec g ready yielded [] (node2info ts) Htr)
        as (n2i1 & E1 & Htr1).
      { intros x Hx. apply Hrin in Hx. tauto. }
      rewrite E1. simpl in *.
      match goal with |- context [graphlib.done ?t ready] => set (ts1 := t) end.
      destruct (done_spec ready ts1 yielded ready [])
        as (ts2 & ready2 & E2 & Hr2 & Htr2 & Hrf2 & Hp2 & Hf2).
      * reflexivity.
      * exact Htr1.
      * split; [constructor|]. intros n. simpl. split; [tauto|].
        intros (H1 & H2 & H3 & H4). apply H3, Hrin. tauto.
      * assumption.
      * intros x Hx. pose proof (proj1 (Hrin x) Hx). tauto.
      * intros x s Hx Hs. apply Hrin in Hx. destruct Hx as (_ & Hx & _).
        split.
        -- intros Hsy. apply Hx.
           exact (proj1 (before_In _ _ _ (Htopo s x Hsy Hs))).
        -- intros Hsr. apply Hrin in Hsr. destruct Hsr as (_ & _ & _ & Hc).
           apply Hx. now apply (proj1 (count_zero g yielded s) Hc).
      * rewrite E2. simpl.
        assert (Hnd2 : NoDup (yielded ++ ready)).
        { apply NoDup_app; [assumption | assumption |].
          intros x Hx Hx'. apply Hrin in Hx'. tauto. }
        assert (Hnodes2 : forall x, In x (yielded ++ ready) -> graph_node g x).
        { intros x Hx. apply in_app_iff in Hx. destruct Hx as [Hx|Hx]; [auto|].
          apply Hrin in Hx. tauto. }
        apply IH; [assumption | | rewrite length_app; lia].
        exists ready2. split; [assumption|]. split.
        { destruct Htr2 as (H1 & H2 & H3). split; [assumption|].
          split; [assumption|]. intros x i Hi.
          destruct (H3 x i Hi) as (H4 & H5 & H6).
          split; [assumption|]. split; [assumption|].
          now rewrite H6, status_after_round. }
        split.
        { destruct Hrf2 as [H1 H2]. split; [assumption|].
          intros n. rewrite H2, in_app_iff. simpl. tauto. }
        split; [subst ts1; simpl in *; lia|].
        split; [assumption|]. split; [assumption|].
        intros n p Hn Hp. apply in_app_iff in Hn. destruct Hn as [Hn|Hn].
        -- apply before_app_l. now apply Htopo.
        -- apply before_app_lr; [|assumption].
           apply Hrin in Hn. destruct Hn as (_ & _ & _ & Hc).
           now apply (proj1 (count_zero g yielded n) Hc).
Qed.

End KahnLoop.

Lemma clos_trans_reverse : forall (R S : pystr -> pystr -> Prop),
  (forall a b, R a b -> S b a) ->
  forall x y, clos_trans pystr R x y -> clos_trans pystr S y x.
Proof.
  intros R S H x y Hxy. induction Hxy as [x y Hr | x y z _ IH1 _ IH2].
  - apply t_step. now apply H.
  - now apply t_trans with y.
Qed.

Section Ranking.

Variable n2i : dict NodeInfo.

(** No set of nodes of a ranked list can have, for each of its members, a
    member that precedes it in the graph. *)
Lemma ranked_drains : forall (P : pystr -> Prop) F,
  NoDup F -> ranked n2i F ->
  (forall n, In n F -> P n -> exists p, In p F /\ P p /\ edge n2i p n) ->
  forall x, In x F -> ~ P x.
Proof.
  intros P. induction F as [|f F IH]; intros Hnd Hrank Hpred x Hx; [destruct Hx|].
  inversion Hnd as [|? ? Hf Hnd']; subst. destruct Hrank as [Hsucc Hrank].
  assert (Hnf : ~ P f).
  { intros HPf. destruct (Hpred f (or_introl eq_refl) HPf) as (p & Hp & _ & He).
    apply Hf. destruct Hp as [<-|Hp]; [now apply Hsucc|].
    now apply (ranked_closed n2i F p f). }
  destruct Hx as [<-|Hx]; [assumption|].
  apply IH; try assumption.
  intros n Hn HPn. destruct (Hpred n (or_intror Hn) HPn) as (p & Hp & HPp & He).
  exists p. destruct Hp as [<-|Hp]; tauto.
Qed.

End Ranking.

Section Sorted.

Variable g : dict (list pystr).
Hypothesis g_ok : graph_ok g.

Lemma built_edge : forall n2i p n,
  built g n2i -> (edge n2i p n <-> depends g n p).
Proof.
  intros n2i p n (Hwf & Hkeys & Hinfo). unfold edge, succs_of, depends. split.
  - destruct (dict_get p n2i) as [info|] eqn:E; [|intros []].
    intros H. now apply (Hinfo p info E).
  - intros H. assert (Hp : In p (dict_keys n2i)).
    { apply Hkeys. eapply pred_is_node. eassumption. }
    destruct (dict_key_get n2i p Hp) as [info E]. rewrite E.
    now apply (Hinfo p info E).
Qed.

Lemma built_closed : forall n2i x y,
  built g n2i -> edge n2i x y -> In y (dict_keys n2i).
Proof.
  intros n2i x y Hb He. pose proof Hb as (_ & Hkeys & _).
  apply Hkeys. apply (built_edge n2i x y Hb) in He.
  eapply succ_is_node. exact He.
Qed.

Lemma built_cyclic : forall n2i,
  built g n2i -> (cyclic_graph n2i <-> cyclic g).
Proof.
  intros n2i Hb. split; intros [x Hx]; exists x.
  - apply (clos_trans_reverse (edge n2i) (depends g)); [|assumption].
    intros a b. apply built_edge. assumption.
  - apply (clos_trans_reverse (depends g) (edge n2i)); [|assumption].
    intros a b. apply built_edge. assumption.
Qed.

Lemma count_nil : forall n, count g [] n = Z.of_nat (length (preds_of g n)).
Proof.
  intros n. unfold count. f_equal. f_equal.
  induction (preds_of g n) as [|p l IH]; simpl; [reflexivity | now f_equal].
Qed.

Lemma built_tracking : forall n2i, built g n2i -> tracking g [] [] n2i.
Proof.
  intros n2i (Hwf & Hkeys & Hinfo). split; [assumption|]. split; [assumption|].
  intros x info Hget. destruct (Hinfo x info Hget) as (H1 & H2 & H3).
  split; [assumption|]. split; [assumption|].
  unfold status. simpl. now rewrite count_nil.
Qed.

Lemma NoDup_keys_filter : forall (V : Type) (f : pystr * V -> bool) (d : dict V),
  dict_wf d -> NoDup (map fst (filter f d)).
Proof.
  intros V f. induction d as [|[k v] d IH]; intros Hwf; simpl; [constructor|].
  inversion Hwf as [|? ? Hk Hwf']; subst.
  destruct (f (k, v)); simpl; [|now apply IH].
  constructor; [|now apply IH].
  intros H. apply Hk. apply in_map_iff in H. destruct H as ([k' v'] & E & H).
  simpl in E. subst k'. apply filter_In in H. destruct H as [H _].
  unfold dict_keys. apply in_map_iff. now exists (k, v').
Qed.

Lemma built_ready : forall n2i,
  built g n2i ->
  ready_for g [] [] (map fst (filter zero_predecessors n2i)).
Proof.
  intros n2i (Hwf & Hkeys & Hinfo). split; [now apply NoDup_keys_filter|].
  intros n. rewrite in_map_iff. split.
  - intros ([k info] & E & H). simpl in E. subst k.
    apply filter_In in H. destruct H as [Hin Hz].
    pose proof (dict_In_get n2i n info Hwf Hin) as Hget.
    split; [apply Hkeys; eapply dict_get_key; eassumption|].
    split; [tauto|]. split; [tauto|].
    unfold zero_predecessors in Hz. simpl in Hz. apply Z.eqb_eq in Hz.
    rewrite count_nil. rewrite <- (proj1 (Hinfo n info Hget)). exact Hz.
  - intros (Hn & _ & _ & Hc). apply Hkeys in Hn.
    destruct (dict_key_get n2i n Hn) as [info Hget].
    exists (n, info). split; [reflexivity|]. apply filter_In.
    split; [now apply dict_get_In|].
    unfold zero_predecessors. simpl. apply Z.eqb_eq.
    rewrite (proj1 (Hinfo n info Hget)), <- count_nil. exact Hc.
Qed.

Lemma count_nonzero_pred : forall done n,
  count g done n <> 0%Z -> exists p, In p (preds_of g n) /\ ~ In p done.
Proof.
  intros done n H. unfold count in H.
  destruct (filter (fun p => negb (mem p done)) (preds_of g n)) as [|p l] eqn:E;
    [simpl in H; lia|].
  assert (Hp : In p (filter (fun p => negb (mem p done)) (preds_of g n))).
  { rewrite E. now left. }
  apply filter_In in Hp. destruct Hp as [Hp Hm]. exists p. split; [assumption|].
  apply mem_not_In. now destruct (mem p done).
Qed.

(** The order [graphlib] computes for a graph: a cycle error exactly when
    the graph has a cycle, and otherwise all its nodes, each once, with
    every node after its predecessors. *)
Theorem sorted_spec :
  (cyclic g /\ exists c, sorted g = Raise (CycleError c))
  \/ (~ cyclic g
      /\ exists l, sorted g = Ret l
                   /\ NoDup l
                   /\ (forall x, In x l <-> graph_node g x)
                   /\ topological g l).
Proof.
  destruct (init_built g g_ok) as (ts & Einit & Hready & Hp0 & Hf0 & Hbuilt).
  unfold sorted. rewrite Einit. simpl. unfold static_order, prepare.
  rewrite Hready. unfold find_cycle. simpl.
  pose proof Hbuilt as (Hwf & Hkeys & Hinfo).
  destruct (find_cycle_from_keys (node2info ts) Hwf
              (fun x y => built_closed (node2info ts) x y Hbuilt))
    as (res & E & Hres).
  rewrite E. simpl. destruct res as [c|].
  - destruct Hres as [Hne Hcyc]. left.
    split; [now apply (built_cyclic (node2info ts) Hbuilt)|].
    destruct c as [|c0 c]; [congruence|]. exists (c0 :: c). reflexivity.
  - destruct Hres as (F & HndF & Hrank & HF). right.
    split.
    { intros Hc. apply (built_cyclic (node2info ts) Hbuilt) in Hc.
      revert Hc. apply (ranked_not_cyclic (node2info ts) F Hrank).
      intros x Hx. now apply HF. }
    set (ts' := mkSorter (node2info ts)
                  (Some (map fst (filter zero_predecessors (node2info ts))))
                  (npassedout ts) (nfinished ts)).
    destruct (static_loop_spec g g_ok (length (dict_keys (node2info ts)))
                (S (length (node2info ts))) ts' [])
      as (l & El & Hnd & Hnodes & Htopo & Hstuck).
    + intros l Hnd Hl. apply NoDup_incl_length; [assumption|].
      intros x Hx. apply Hkeys. auto.
    + exists (map fst (filter zero_predecessors (node2info ts))).
      split; [reflexivity|]. split; [now apply built_tracking|].
      split; [now apply built_ready|]. split; [simpl; congruence|].
      split; [constructor|]. split; [intros x []|].
      intros n p [].
    + unfold dict_keys. rewrite length_map. simpl. lia.
    + exists l. split; [exact El|]. split; [assumption|]. split; [|assumption].
      intros x. split; [auto|]. intros Hx.
      destruct (mem x l) eqn:Em; [now apply mem_In|]. exfalso.
      apply mem_not_In in Em.
      apply (ranked_drains (node2info ts)
               (fun n => graph_node g n /\ ~ In n l) F HndF Hrank)
        with (x := x); [| apply HF, Hkeys; assumption | tauto].
      intros n _ [Hn Hnl].
      destruct (count_nonzero_pred l n (Hstuck n Hn Hnl)) as (p & Hp & Hpl).
      exists p. split; [apply HF, Hkeys; eapply pred_is_node; eassumption|].
      split; [split; [eapply pred_is_node; eassumption | assumption]|].
      now apply (built_edge (node2info ts) p n Hbuilt).
Qed.

End Sorted.

Section Graphs.

Variable order : SetOrder.

(** *** The graph of the image configs *)

Lemma dict_set_fresh : forall (V : Type) (d : dict V) k v,
  ~ In k (dict_keys d) -> dict_set k v d = d ++ [(k, v)].
Proof.
  intros V. induction d as [|[k' v'] d IH]; intros k v H; simpl in *; [reflexivity|].
  assert (E : str_eqb k k' = false) by (apply str_eqb_neq; intros ->; tauto).
  rewrite E, IH by tauto. reflexivity.
Qed.

Lemma full_graph_fold : forall (m : ImageConfigsMap) (acc : dict (list pystr)),
  NoDup (dict_keys acc ++ dict_keys m) ->
  fold_left
    (fun graph item =>
       dict_set (fst item)
                (set_iter order (DepsOf (fst item)) (dict_values (deps (snd item))))
                graph)
    m acc
  = acc ++ map (graph_entry order) m.
Proof.
  induction m as [|[name conf] m IH]; intros acc Hnd; simpl.
  - now rewrite app_nil_r.
  - simpl in Hnd. rewrite dict_set_fresh.
    + rewrite IH.
      * rewrite <- app_assoc. reflexivity.
      * unfold dict_keys in *. rewrite map_app, <- app_assoc. exact Hnd.
    + apply NoDup_remove_2 in Hnd. rewrite in_app_iff in Hnd. tauto.
Qed.

Lemma full_graph_map : forall m : ImageConfigsMap,
  dict_wf m -> full_graph_of order m = map (graph_entry order) m.
Proof.
  intros m Hwf. unfold full_graph_of. now rewrite full_graph_fold.
Qed.

Lemma full_graph_keys : forall m : ImageConfigsMap,
  dict_wf m -> dict_keys (full_graph_of order m) = dict_keys m.
Proof.
  intros m Hwf. rewrite full_graph_map by assumption.
  unfold dict_keys. rewrite map_map. reflexivity.
Qed.

Lemma full_graph_get : forall (m : ImageConfigsMap) n,
  dict_wf m ->
  dict_get n (full_graph_of order m)
  = option_map (fun conf => set_iter order (DepsOf n) (dict_values (deps conf)))
               (dict_get n m).
Proof.
  intros m n Hwf. rewrite full_graph_map by assumption. clear Hwf.
  induction m as [|[k conf] m IH]; simpl; [reflexivity|].
  destruct (str_eqb n k) eqn:E; [|exact IH].
  apply str_eqb_eq in E. subst k. reflexivity.
Qed.

Lemma full_graph_depends : forall (m : ImageConfigsMap) n d,
  dict_wf m -> (depends (full_graph_of order m) n d <-> dep m n d).
Proof.
  intros m n d Hwf. unfold depends, preds_of, dep.
  rewrite full_graph_get by assumption.
  destruct (dict_get n m) as [conf|]; simpl.
  - rewrite set_iter_In. split; [eauto|].
    intros (c & E & H). now injection E as <-.
  - split; [intros [] | intros (c & E & _); discriminate].
Qed.

Lemma full_graph_ok : forall m : ImageConfigsMap,
  dict_wf m -> graph_ok (full_graph_of order m).
Proof.
  intros m Hwf. split.
  - unfold dict_wf. now rewrite full_graph_keys.
  - intros n. unfold preds_of. rewrite full_graph_get by assumption.
    destruct (dict_get n m); simpl; [apply set_iter_NoDup | constructor].
Qed.

Lemma clos_trans_iff : forall (R S : pystr -> pystr -> Prop),
  (forall a b, R a b <-> S a b) ->
  forall x y, clos_trans pystr R x y <-> clos_trans pystr S x y.
Proof.
  intros R S H x y. split; intros Hxy;
    induction Hxy as [x y Hr | x y z _ IH1 _ IH2];
    try (apply t_step; now apply H); now apply t_trans with y.
Qed.

Lemma clos_refl_trans_iff : forall (R S : pystr -> pystr -> Prop),
  (forall a b, R a b <-> S a b) ->
  forall x y, clos_refl_trans pystr R x y <-> clos_refl_trans pystr S x y.
Proof.
  intros R S H x y. split; intros Hxy;
    induction Hxy as [x y Hr | x | x y z _ IH1 _ IH2];
    try (apply rt_step; now apply H); try apply rt_refl;
    now apply rt_trans with y.
Qed.

(** *** The worklist loop *)

Lemma closed_contains : forall (R : pystr -> pystr -> Prop) (P : pystr -> Prop),
  (forall a b, P a -> R a b -> P b) ->
  forall a b, clos_refl_trans pystr R a b -> P a -> P b.
Proof.
  intros R P H a b Hab. induction Hab as [a b Hr | a | a b c _ IH1 _ IH2]; eauto.
Qed.

Lemma reach_spec : forall graph target fuel step nodes_to_visit visited_nodes,
  graph_ok graph ->
  reach_inv graph target nodes_to_visit visited_nodes ->
  length nodes_to_visit + dict_weight (@length pystr) visited_nodes graph < fuel ->
  exists visited,
    reach order fuel step graph nodes_to_visit visited_nodes = Ret visited
    /\ NoDup visited
    /\ forall x, In x visited <-> clos_refl_trans pystr (depends graph) target x.
Proof.
  intros graph target. induction fuel as [|fuel IH];
    intros step W V Hok (Hnd & Htarget & Hreach & Hclosed) Hfuel; [lia|].
  simpl.
  pose proof (set_iter_NoDup order (Worklist step) W) as Hond.
  pose proof (set_iter_In order (Worklist step) W) as Hoin.
  assert (Holen : length (set_iter order (Worklist step) W) <= length W).
  { apply NoDup_incl_length; [assumption|]. intros x Hx. now apply Hoin. }
  destruct (set_iter order (Worklist step) W) as [|current rest].
  - exists V. split; [reflexivity|]. split; [assumption|].
    assert (Hempty : forall x, ~ In x W) by (intros x Hx; now apply Hoin in Hx).
    intros x. split.
    + intros Hx. apply Hreach. now left.
    + intros Hx. apply (closed_contains (depends graph) (fun y => In y V))
        with (a := target); [|assumption|].
      * intros a b Ha Hab. destruct (Hclosed a b Ha Hab) as [H|H];
          [assumption | now apply Hempty in H].
      * destruct Htarget as [H|H]; [assumption | now apply Hempty in H].
  - inversion Hond as [|? ? Hcur Hrnd]; subst. simpl in Holen.
    assert (Hsplit : forall x, In x W -> x = current \/ In x rest).
    { intros x Hx. apply Hoin in Hx. destruct Hx; [left; congruence | tauto]. }
    assert (Hrest : forall x, In x rest -> In x W).
    { intros x Hx. apply Hoin. now right. }
    assert (HcurW : In current W) by (apply Hoin; now left).
    destruct (mem current V) eqn:Hmem.
    + apply mem_In in Hmem. apply IH; [assumption | | lia].
      split; [assumption|]. split; [|split].
      * destruct Htarget as [H|H]; [tauto|].
        destruct (Hsplit _ H) as [->|H']; tauto.
      * intros x [Hx|Hx]; apply Hreach; [tauto | right; auto].
      * intros v p Hv Hp. destruct (Hclosed v p Hv Hp) as [H|H]; [tauto|].
        destruct (Hsplit _ H) as [->|H']; tauto.
    + apply mem_not_In in Hmem.
      assert (Hnd' : NoDup (V ++ [current])).
      { apply NoDup_app; [assumption | repeat constructor; tauto |].
        intros x Hx [<-|[]]. tauto. }
      assert (Hcr : clos_refl_trans pystr (depends graph) target current).
      { apply Hreach. now right. }
      destruct (dict_get current graph) as [dependencies|] eqn:Hget.
      * apply IH; [assumption | |].
        -- split; [assumption|]. split; [|split].
           ++ rewrite !in_app_iff. simpl. destruct Htarget as [H|H]; [tauto|].
              destruct (Hsplit _ H) as [->|H']; tauto.
           ++ intros x. rewrite !in_app_iff. simpl.
              intros [[Hx|[<-|[]]]|[Hx|Hx]]; try (apply Hreach; tauto);
                try assumption; [apply Hreach; right; auto|].
              apply rt_trans with current; [assumption|]. apply rt_step.
              unfold depends, preds_of. now rewrite Hget.
           ++ intros v p. rewrite !in_app_iff. simpl. intros [Hv|[<-|[]]] Hp.
              ** destruct (Hclosed v p Hv Hp) as [H|H]; [tauto|].
                 destruct (Hsplit _ H) as [->|H']; tauto.
              ** unfold preds_of in Hp. rewrite Hget in Hp. tauto.
        -- rewrite length_app.
           pose proof (dict_weight_push (@length pystr) V current dependencies
                         graph (proj1 Hok) Hget Hmem). lia.
      * apply IH; [assumption | |].
        -- split; [assumption|]. split; [|split].
           ++ rewrite !in_app_iff. simpl. destruct Htarget as [H|H]; [tauto|].
              destruct (Hsplit _ H) as [->|H']; tauto.
           ++ intros x. rewrite !in_app_iff. simpl.
              intros [[Hx|[<-|[]]]|Hx]; try (apply Hreach; tauto);
                try assumption. apply Hreach. right. auto.
           ++ intros v p. rewrite !in_app_iff. simpl. intros [Hv|[<-|[]]] Hp.
              ** destruct (Hclosed v p Hv Hp) as [H|H]; [tauto|].
                 destruct (Hsplit _ H) as [->|H']; tauto.
              ** unfold preds_of in Hp. rewrite Hget in Hp. destruct Hp.
        -- rewrite (dict_weight_fresh (@length pystr) V current graph).
           ++ lia.
           ++ now apply dict_get_None.
Qed.

End Graphs.

Section Subgraph.

Variable order : SetOrder.

Lemma subgraph_fold : forall (graph : dict (list pystr)) nodes visited acc,
  dict_wf acc ->
  (forall n, dict_get n acc = if mem n visited then dict_get n graph else None) ->
  let sub :=
    fold_left
      (fun subgraph node =>
         match dict_get node graph with
         | Some dependencies => dict_set node dependencies subgraph
         | None => subgraph
         end) nodes acc in
  dict_wf sub
  /\ forall n, dict_get n sub
               = if mem n (visited ++ nodes) then dict_get n graph else None.
Proof.
  intros graph. induction nodes as [|node nodes IH]; intros visited acc Hwf Hacc;
    simpl.
  - rewrite app_nil_r. tauto.
  - replace (visited ++ node :: nodes) with ((visited ++ [node]) ++ nodes)
      by (rewrite <- app_assoc; reflexivity).
    apply IH.
    + destruct (dict_get node graph); [now apply dict_set_wf | assumption].
    + intros n. rewrite mem_snoc.
      destruct (dict_get node graph) as [ds|] eqn:E.
      * rewrite dict_get_set. destruct (str_eqb n node) eqn:En.
        -- apply str_eqb_eq in En. subst n. now rewrite orb_true_r.
        -- now rewrite orb_false_r.
      * rewrite Hacc. destruct (str_eqb n node) eqn:En.
        -- apply str_eqb_eq in En. subst n. rewrite orb_true_r.
           destruct (mem node visited); congruence.
        -- now rewrite orb_false_r.
Qed.

Lemma mem_set_iter : forall site l x, mem x (set_iter order site l) = mem x l.
Proof.
  intros site l x. destruct (mem x l) eqn:E.
  - apply mem_In. apply set_iter_In. now apply mem_In.
  - apply mem_not_In. rewrite set_iter_In. now apply mem_not_In.
Qed.

Lemma subgraph_get : forall graph visited n,
  dict_get n (subgraph_of order graph visited)
  = if mem n visited then dict_get n graph else None.
Proof.
  intros graph visited n. unfold subgraph_of.
  destruct (subgraph_fold graph (set_iter order Visited visited) [] [])
    as [_ H]; [constructor | reflexivity |].
  simpl in H. rewrite H. now rewrite mem_set_iter.
Qed.

Lemma subgraph_wf : forall graph visited,
  dict_wf (subgraph_of order graph visited).
Proof.
  intros graph visited. unfold subgraph_of.
  destruct (subgraph_fold graph (set_iter order Visited visited) [] [])
    as [H _]; [constructor | reflexivity | exact H].
Qed.

Lemma subgraph_preds : forall graph visited n,
  preds_of (subgraph_of order graph visited) n
  = if mem n visited then preds_of graph n else [].
Proof.
  intros graph visited n. unfold preds_of. rewrite subgraph_get.
  destruct (mem n visited); reflexivity.
Qed.

Lemma subgraph_ok : forall graph visited,
  graph_ok graph -> graph_ok (subgraph_of order graph visited).
Proof.
  intros graph visited [_ Hnd]. split; [apply subgraph_wf|].
  intros n. rewrite subgraph_preds.
  destruct (mem n visited); [apply Hnd | constructor].
Qed.

Lemma clos_trans_inside : forall (R : pystr -> pystr -> Prop) (P : pystr -> Prop),
  (forall a b, P a -> R a b -> P b) ->
  forall x y, clos_trans pystr R x y -> P x ->
              clos_trans pystr (fun a b => P a /\ R a b) x y /\ P y.
Proof.
  intros R P H x y Hxy. induction Hxy as [x y Hr | x y z _ IH1 _ IH2]; intros Hx.
  - split; [apply t_step; tauto | eauto].
  - destruct (IH1 Hx) as [H1 Hy]. destruct (IH2 Hy) as [H2 Hz].
    split; [now apply t_trans with y | assumption].
Qed.

Lemma clos_trans_mono : forall (R S : pystr -> pystr -> Prop),
  (forall a b, R a b -> S a b) ->
  forall x y, clos_trans pystr R x y -> clos_trans pystr S x y.
Proof.
  intros R S H x y Hxy. induction Hxy as [x y Hr | x y z _ IH1 _ IH2];
    [apply t_step; auto | now apply t_trans with y].
Qed.

Lemma clos_trans_source : forall (R : pystr -> pystr -> Prop) (P : pystr -> Prop),
  (forall a b, R a b -> P a) ->
  forall x y, clos_trans pystr R x y -> P x.
Proof.
  intros R P H x y Hxy. induction Hxy; eauto.
Qed.

Lemma closure_last : forall m target x,
  closure m target x ->
  x = target \/ exists n, closure m target n /\ dep m n x.
Proof.
  intros m target x H. unfold closure in *.
  apply clos_rt_rtn1 in H. inversion H as [|n ? Hd Hn]; subst.
  - now left.
  - right. exists n. split; [now apply clos_rtn1_rt | assumption].
Qed.

(** *** get_dependency_subgraph and the order of the full graph *)

Lemma get_dependency_subgraph_spec : forall m target st,
  dict_wf m -> dict_mem target m = true ->
  ((exists x, closure m target x /\ on_cycle m x)
   /\ exists c,
        get_dependency_subgraph order target m st
        = (Exit 1,
           mkState (REPO st) (events st ++ [Print (SubgraphCycle target c)])))
  \/ ((forall x, closure m target x -> ~ on_cycle m x)
      /\ exists l,
           get_dependency_subgraph order target m st = (Ret l, st)
           /\ NoDup l
           /\ (forall x, In x l <-> closure m target x)
           /\ (forall n d, In n l -> dep m n d -> before l d n)).
Proof.
  intros m target st Hwf Hmem.
  unfold get_dependency_subgraph. rewrite Hmem. cbn [negb].
  set (graph := full_graph_of order m).
  pose proof (full_graph_ok order m Hwf) as Hok. fold graph in Hok.
  assert (Hdep : forall a b, depends graph a b <-> dep m a b).
  { intros a b. now apply full_graph_depends. }
  destruct (reach_spec order graph target (S (S (graph_size graph))) 0
              [target] [] Hok) as (visited & Ereach & Hvnd & Hvin).
  { split; [constructor|]. split; [right; now left|]. split.
    - intros x [[]|[<-|[]]]. apply rt_refl.
    - intros v p []. }
  { simpl. pose proof (dict_weight_le (@length pystr) [] graph).
    unfold graph_size. lia. }
  assert (Hvisited : forall x, In x visited <-> closure m target x).
  { intros x. rewrite Hvin. now apply clos_refl_trans_iff. }
  assert (Hclosed : forall a b, In a visited -> dep m a b -> In b visited).
  { intros a b Ha Hab. apply Hvisited. apply rt_trans with a;
      [now apply Hvisited | now apply rt_step]. }
  set (sub := subgraph_of order graph visited).
  assert (Hsubdep : forall a b, depends sub a b <-> In a visited /\ dep m a b).
  { intros a b. unfold depends, sub. rewrite subgraph_preds.
    destruct (mem a visited) eqn:E.
    - apply mem_In in E. fold (depends graph a b). rewrite Hdep. tauto.
    - apply mem_not_In in E. simpl. tauto. }
  unfold bind, lift, try_except. fold graph. rewrite Ereach.
  cbv beta iota. fold sub.
  destruct (sorted_spec sub (subgraph_ok graph visited Hok))
    as [[Hcyc [c Ec]] | [Hacyc (l & El & Hnd & Hin & Htopo)]].
  - left. split.
    + destruct Hcyc as [x Hx]. exists x. split.
      * apply Hvisited.
        apply (clos_trans_source (depends sub) (fun a => In a visited))
          with (y := x); [|assumption].
        intros a b Hab. now apply Hsubdep in Hab.
      * apply (clos_trans_mono (depends sub) (dep m)); [|exact Hx].
        intros a b Hab. apply Hsubdep in Hab. tauto.
    + exists c. rewrite Ec. reflexivity.
  - right. split.
    + intros x Hx Hc. apply Hacyc. exists x.
      apply (clos_trans_iff (depends sub) (fun a b => In a visited /\ dep m a b));
        [assumption|].
      apply (clos_trans_inside (dep m) (fun a => In a visited)); try assumption.
      now apply Hvisited.
    + exists l. rewrite El. split; [reflexivity|]. split; [assumption|].
      assert (Hnode : forall x, graph_node sub x <-> In x visited).
      { intros x. split.
        - intros [Hk|[n Hn]].
          + apply dict_key_get in Hk. destruct Hk as [v Hv].
            unfold sub in Hv. rewrite subgraph_get in Hv.
            destruct (mem x visited) eqn:E; [now apply mem_In | discriminate].
          + fold (depends sub n x) in Hn. apply Hsubdep in Hn.
            now apply (Hclosed n x).
        - intros Hx. destruct (closure_last m target x (proj1 (Hvisited x) Hx))
            as [->|(n & Hn & Hnx)].
          + left. apply dict_mem_In. unfold dict_mem, sub.
            rewrite subgraph_get. apply mem_In in Hx. rewrite Hx.
            unfold graph. rewrite full_graph_get by assumption.
            unfold dict_mem in Hmem. destruct (dict_get target m); [reflexivity|].
            discriminate.
          + right. exists n. fold (depends sub n x). apply Hsubdep.
            split; [now apply Hvisited | assumption]. }
      split.
      * intros x. rewrite Hin, Hnode. apply Hvisited.
      * intros n d Hn Hd. apply Htopo; [assumption|].
        fold (depends sub n d). apply Hsubdep. split; [|assumption].
        apply Hnode, Hin. assumption.
Qed.

Lemma full_order_spec : forall m st,
  dict_wf m ->
  ((exists x, on_cycle m x)
   /\ exists c,
        full_order order m st
        = (Exit 1, mkState (REPO st) (events st ++ [Print (FullGraphCycle c)])))
  \/ ((forall x, ~ on_cycle m x)
      /\ exists l,
           full_order order m st
           = (Ret l, mkState (REPO st) (events st ++ [Print ProcessingAll]))
           /\ NoDup l
           /\ (forall x, In x l <-> In x (dict_keys m) \/ exists n, dep m n x)
           /\ (forall n d, dep m n d -> before l d n)).
Proof.
  intros m st Hwf. unfold full_order.
  set (graph := full_graph_of order m).
  pose proof (full_graph_ok order m Hwf) as Hok. fold graph in Hok.
  assert (Hdep : forall a b, depends graph a b <-> dep m a b).
  { intros a b. now apply full_graph_depends. }
  unfold try_except, bind, lift.
  destruct (sorted_spec graph Hok)
    as [[Hcyc [c Ec]] | [Hacyc (l & El & Hnd & Hin & Htopo)]].
  - left. split.
    + destruct Hcyc as [x Hx]. exists x.
      now apply (clos_trans_iff (depends graph) (dep m)).
    + exists c. rewrite Ec. reflexivity.
  - right. split.
    + intros x Hx. apply Hacyc. exists x.
      now apply (clos_trans_iff (depends graph) (dep m)).
    + exists l. rewrite El. split; [reflexivity|]. split; [assumption|].
      assert (Hnode : forall x, graph_node graph x
                                <-> In x (dict_keys m) \/ exists n, dep m n x).
      { intros x. unfold graph_node. unfold graph at 1.
        rewrite full_graph_keys by assumption.
        split; (intros [H|[n H]]; [now left | right; exists n]);
          now apply Hdep. }
      split.
      * intros x. now rewrite Hin, Hnode.
      * intros n d Hd. apply Htopo; [|now apply Hdep].
        apply Hin, Hnode. left. destruct Hd as (conf & E & _).
        eapply dict_get_key. eassumption.
Qed.

End Subgraph.

(** ** The claims on the order of the images *)

Lemma load_image_configs_from_wf : forall W search_paths all_configs st m st',
  dict_wf all_configs ->
  load_image_configs_from W search_paths all_configs st = (Ret m, st') ->
  dict_wf m.
Proof.
  intros W. induction search_paths as [|path search_paths IH];
    intros all_configs st m st' Hwf H; simpl in H.
  - unfold ret in H. injection H as <- _. assumption.
  - destruct (path_exists W (path_join W path (py "deps.json")));
      [|now apply (IH all_configs st m st')].
    unfold bind, print, lift in H. simpl in H.
    destruct (read_file W (path_join W path (py "deps.json")));
      try discriminate.
    destruct (json_deps W a) as [[configs|]| |]; simpl in H; try discriminate.
    + eapply IH; [|exact H]. now apply dict_update_wf.
    + eapply IH; [|exact H]. assumption.
Qed.

Lemma load_image_configs_wf : forall W search_paths st m st',
  load_image_configs W search_paths st = (Ret m, st') -> dict_wf m.
Proof.
  intros W search_paths st m st'. apply load_image_configs_from_wf. constructor.
Qed.

(** C2.  In a run without a target, once the configuration and the image
    configs are loaded: if no image depends on itself, the order the driver
    computes holds every dependency at a smaller index than each image
    that depends on it; if some image depends on itself, and the tag is not
    asked for, the run ends with exit code 1 and the cycle message is the
    only event after loading: no image is processed and no command is
    run. *)
Theorem full_order_is_topological :
  forall (W : World) (order : SetOrder) (args : Args) (st st1 st2 : State)
         (m : ImageConfigsMap),
    load_config W (config args) st = (Ret tt, st1) ->
    load_image_configs W (search_path args) st1 = (Ret m, st2) ->
    given (target_image args) = None ->
    ((forall x, ~ on_cycle m x) ->
     exists images_to_process,
       plan order args m st2
       = (Ret images_to_process,
          mkState (REPO st2) (events st2 ++ [Print ProcessingAll]))
       /\ NoDup images_to_process
       /\ forall n d, dep m n d -> before images_to_process d n)
    /\ ((exists x, on_cycle m x) ->
        print_tag args = false ->
        exists cycle,
          main W order args st
          = (Exit 1,
             mkState (REPO st2) (events st2 ++ [Print (FullGraphCycle cycle)]))).
Proof.
  intros W order args st st1 st2 m Hconfig Hload Hgiven.
  pose proof (load_image_configs_wf W _ _ _ _ Hload) as Hwf.
  assert (Hplan : forall s, plan order args m s = full_order order m s).
  { intros s. unfold plan. now rewrite Hgiven. }
  split.
  - intros Hacyclic.
    destruct (full_order_spec order m st2 Hwf)
      as [[[x Hx] _] | [_ (l & El & Hnd & _ & Htopo)]].
    + now apply Hacyclic in Hx.
    + exists l. rewrite Hplan. tauto.
  - intros Hcyclic Hprint.
    destruct (full_order_spec order m st2 Hwf)
      as [[_ [c Ec]] | [Hacyclic _]].
    + exists c. unfold main. unfold bind at 1. rewrite Hconfig.
      unfold bind at 1. rewrite Hload.
      unfold build_images, check_target. rewrite Hprint, Hgiven.
      unfold bind at 1. unfold ret at 1. unfold bind at 1.
      rewrite Hplan, Ec. reflexivity.
    + destruct Hcyclic as [x Hx]. now apply Hacyclic in Hx.
Qed.

(** The nodes of a list without repetition stand at one index only. *)
Lemma before_in_prefix : forall pre x post d,
  NoDup (pre ++ x :: post) -> before (pre ++ x :: post) d x -> In d pre.
Proof.
  intros pre x post d Hnd (i & j & Hi & Hj & Hlt).
  assert (Hx : nth_error (pre ++ x :: post) (length pre) = Some x).
  { rewrite nth_error_app2 by lia. now rewrite Nat.sub_diag. }
  assert (Hjeq : j = length pre).
  { apply (proj1 (NoDup_nth_error (pre ++ x :: post)) Hnd);
      [apply nth_error_Some; congruence | congruence]. }
  subst j. rewrite nth_error_app1 in Hi by assumption.
  eapply nth_error_In. eassumption.
Qed.

Lemma before_irrefl : forall l x, NoDup l -> ~ before l x x.
Proof.
  intros l x Hnd (i & j & Hi & Hj & Hlt).
  assert (i = j); [|lia].
  apply (proj1 (NoDup_nth_error l) Hnd); [apply nth_error_Some|]; congruence.
Qed.

(** Case analysis on the key looked up in a literal dictionary. *)
Ltac case_key E :=
  match type of E with
  | (if str_eqb ?a ?b then _ else _) = _ =>
      let H := fresh "Hkey" in
      destruct (str_eqb a b) eqn:H; [apply str_eqb_eq in H; subst a | ]
  end.

(** The closure of [a] in the chain [a -> b -> c], with [d] apart. *)
Lemma chain_dep : forall n d,
  dep chain_configs n d
  <-> (n = py "a" /\ d = py "b") \/ (n = py "b" /\ d = py "c").
Proof.
  intros n d. unfold dep. split.
  - intros (conf & E & H). simpl in E.
    repeat case_key E; try discriminate E; injection E as <-; simpl in H;
      try (destruct H as [<-|[]]); tauto.
  - intros [[-> ->]|[-> ->]]; eexists; (split; [reflexivity | now left]).
Qed.

Lemma chain_closure : forall x,
  closure chain_configs (py "a") x <-> In x [py "a"; py "b"; py "c"].
Proof.
  intros x. unfold closure. split.
  - intros H.
    apply (closed_contains (dep chain_configs)
             (fun y => In y [py "a"; py "b"; py "c"]) ) with (a := py "a");
      [|assumption | now left].
    intros a b Ha Hab. apply chain_dep in Hab.
    destruct Hab as [[-> ->]|[-> ->]]; simpl; tauto.
  - intros [<-|[<-|[<-|[]]]].
    + apply rt_refl.
    + apply rt_step. apply chain_dep. tauto.
    + apply rt_trans with (py "b"); apply rt_step; apply chain_dep; tauto.
Qed.

Lemma chain_acyclic : forall x, ~ on_cycle chain_configs x.
Proof.
  intros x Hx.
  set (rank := fun y : pystr =>
                 if str_eqb y (py "a") then 2
                 else if str_eqb y (py "b") then 1 else 0).
  assert (Hrank : forall a b,
            clos_trans pystr (dep chain_configs) a b -> rank b < rank a).
  { intros a b Hab. induction Hab as [a b H | a b c _ IH1 _ IH2]; [|lia].
    apply chain_dep in H. destruct H as [[-> ->]|[-> ->]]; vm_compute; lia. }
  specialize (Hrank x x Hx). lia.
Qed.

Lemma three_in_order : forall (l : list pystr) a b c,
  NoDup l -> (forall x, In x l <-> In x [a; b; c]) ->
  before l c b -> before l b a -> l = [c; b; a].
Proof.
  intros l a b c Hnd Hin (i & j & Hi & Hj & Hij) (j' & k & Hj' & Hk & Hjk).
  assert (j' = j).
  { apply (proj1 (NoDup_nth_error l) Hnd); [apply nth_error_Some|]; congruence. }
  subst j'.
  assert (Hlen : length l <= 3).
  { apply (NoDup_incl_length (l' := [a; b; c]) Hnd). intros x Hx. now apply Hin. }
  assert (Hk3 : k < length l) by (apply nth_error_Some; congruence).
  assert (i = 0 /\ j = 1 /\ k = 2) as (-> & -> & ->) by lia.
  destruct l as [|x0 [|x1 [|x2 [|x3 l]]]]; simpl in *; try lia.
  congruence.
Qed.

(** C3.  For a target that is not declared the result is the empty list.
    For a declared target, a returned list holds the target and its direct
    and transitive dependencies, each once and nothing else, with every
    dependency before the images that depend on it; and a list is returned
    whenever no image of that closure depends on itself.  In the graph
    [{a -> b, b -> c, c, d}] the closure of [a] is [[c; b; a]], whatever
    the order in which the interpreter enumerates its sets. *)
Theorem get_dependency_subgraph_closure :
  forall (order : SetOrder) (m : ImageConfigsMap) (target : pystr) (st : State),
    dict_wf m ->
    (dict_mem target m = false ->
     get_dependency_subgraph order target m st = (Ret [], st))
    /\ (dict_mem target m = true ->
        (forall l st',
            get_dependency_subgraph order target m st = (Ret l, st') ->
            NoDup l
            /\ (forall x, In x l <-> closure m target x)
            /\ (forall n d, In n l -> dep m n d -> before l d n))
        /\ ((forall x, closure m target x -> ~ on_cycle m x) ->
            exists l, get_dependency_subgraph order target m st = (Ret l, st)))
    /\ get_dependency_subgraph order (py "a") chain_configs st
       = (Ret [py "c"; py "b"; py "a"], st).
Proof.
  intros order m target st Hwf. split; [|split].
  - intros Hmem. unfold get_dependency_subgraph. now rewrite Hmem.
  - intros Hmem. split.
    + intros l st' E.
      destruct (get_dependency_subgraph_spec order m target st Hwf Hmem)
        as [[_ [c Ec]] | [_ (l' & El & H)]].
      * rewrite Ec in E. discriminate.
      * rewrite El in E. injection E as <- <-. exact H.
    + intros Hacyclic.
      destruct (get_dependency_subgraph_spec order m target st Hwf Hmem)
        as [[[x [Hx Hc]] _] | [_ (l & El & _)]].
      * now apply Hacyclic in Hc.
      * now exists l.
  - assert (Hcwf : dict_wf chain_configs).
    { unfold dict_wf. simpl.
      repeat constructor; simpl; intuition discriminate. }
    destruct (get_dependency_subgraph_spec order chain_configs (py "a") st
                Hcwf eq_refl)
      as [[[x [_ Hc]] _] | [_ (l & El & Hnd & Hin & Htopo)]].
    + now apply chain_acyclic in Hc.
    + rewrite El. f_equal. f_equal.
      apply three_in_order; try assumption.
      * intros x. rewrite Hin. apply chain_closure.
      * apply Htopo; [apply Hin, chain_closure; simpl; tauto|].
        apply chain_dep. tauto.
      * apply Htopo; [apply Hin, chain_closure; simpl; tauto|].
        apply chain_dep. tauto.
Qed.

Lemma get_dependency_subgraph_closure_witness :
  get_dependency_subgraph insertion_order (py "a") chain_configs initial_state
  = (Ret [py "c"; py "b"; py "a"], initial_state).
Proof.
  assert (Hwf : dict_wf chain_configs).
  { unfold dict_wf. simpl. repeat constructor; simpl; intuition discriminate. }
  exact (proj2 (proj2 (get_dependency_subgraph_closure
                         insertion_order chain_configs (py "a") initial_state
                         Hwf))).
Defined.

(** C10.  A name that a declared image refers to and that has no
    declaration of its own is an element of the order, before the image
    that refers to it: in the order of the closure of a target that
    reaches the image, and in the order of the whole graph. *)
Theorem undeclared_dependency_is_ordered :
  forall (order : SetOrder) (m : ImageConfigsMap) (target n d : pystr)
         (st st' : State) (l : list pystr),
    dict_wf m ->
    dep m n d ->
    dict_mem d m = false ->
    (get_dependency_subgraph order target m st = (Ret l, st') ->
     closure m target n ->
     In d l /\ before l d n)
    /\ (full_order order m st = (Ret l, st') ->
        In d l /\ before l d n).
Proof.
  intros order m target n d st st' l Hwf Hdep Hundeclared. split.
  - intros E Hn.
    destruct (dict_mem target m) eqn:Hmem.
    + destruct (get_dependency_subgraph_spec order m target st Hwf Hmem)
        as [[_ [c Ec]] | [_ (l' & El & Hnd & Hin & Htopo)]].
      * rewrite Ec in E. discriminate.
      * rewrite El in E. injection E as <- <-.
        assert (Hb : before l' d n) by (apply Htopo; [now apply Hin | assumption]).
        split; [exact (proj1 (before_In _ _ _ Hb)) | exact Hb].
    + exfalso. destruct (closure_last m target n Hn) as [->|(k & Hk & Hkn)].
      * destruct Hdep as (conf & Hget & _). unfold dict_mem in Hmem.
        now rewrite Hget in Hmem.
      * clear -Hn Hmem Hdep.
        unfold closure in Hn. apply clos_rt_rt1n in Hn.
        inversion Hn as [|y ? Hty _]; subst.
        -- destruct Hdep as (conf & Hget & _). unfold dict_mem in Hmem.
           now rewrite Hget in Hmem.
        -- destruct Hty as (conf & Hget & _). unfold dict_mem in Hmem.
           now rewrite Hget in Hmem.
  - intros E.
    destruct (full_order_spec order m st Hwf)
      as [[_ [c Ec]] | [_ (l' & El & Hnd & Hin & Htopo)]].
    + rewrite Ec in E. discriminate.
    + rewrite El in E. injection E as <- _.
      assert (Hb : before l' d n) by now apply Htopo.
      split; [exact (proj1 (before_In _ _ _ Hb)) | exact Hb].
Qed.

Lemma undeclared_dependency_is_ordered_witness :
  let l := [py "zz"; py "b"; py "a"] in
  get_dependency_subgraph insertion_order (py "a") undeclared_configs
                          initial_state = (Ret l, initial_state)
  /\ In (py "zz") l /\ before l (py "zz") (py "b").
Proof.
  assert (Hwf : dict_wf undeclared_configs).
  { unfold dict_wf. simpl. repeat constructor; simpl; intuition discriminate. }
  assert (Hdep : dep undeclared_configs (py "b") (py "zz")).
  { eexists. split; [reflexivity | now left]. }
  assert (Hclosure : closure undeclared_configs (py "a") (py "b")).
  { apply rt_step. eexists. split; [reflexivity | now left]. }
  assert (E : get_dependency_subgraph insertion_order (py "a")
                undeclared_configs initial_state
              = (Ret [py "zz"; py "b"; py "a"], initial_state))
    by (vm_compute; reflexivity).
  split; [exact E|].
  exact (proj1 (undeclared_dependency_is_ordered
                  insertion_order undeclared_configs (py "a") (py "b") (py "zz")
                  initial_state initial_state [py "zz"; py "b"; py "a"]
                  Hwf Hdep eq_refl)
               E Hclosure).
Defined.

Lemma full_order_is_topological_witness :
  let W := demo_world (scripted_runtime 0 0 0 0 0) in
  let args := mkArgs None false (py "devkit.json") [py "images"] in
  let loaded :=
    mkState [] [Print (LoadingImageConfigs (py "images/deps.json"))] in
  exists images_to_process,
    plan insertion_order args chain_configs loaded
    = (Ret images_to_process,
       mkState [] (events loaded ++ [Print ProcessingAll]))
    /\ NoDup images_to_process
    /\ forall n d, dep chain_configs n d -> before images_to_process d n.
Proof.
  exact (proj1 (full_order_is_topological
                  (demo_world (scripted_runtime 0 0 0 0 0)) insertion_order
                  (mkArgs None false (py "devkit.json") [py "images"])
                  initial_state initial_state
                  (mkState [] [Print (LoadingImageConfigs (py "images/deps.json"))])
                  chain_configs eq_refl eq_refl eq_refl)
               chain_acyclic).
Defined.

(** Scenario B of the specification: with [a -> b] and [b -> a] the run
    ends on the cycle before anything is processed. *)
Example cycle_stops_the_run :
  build_images (demo_world (scripted_runtime 1 1 0 0 0)) insertion_order
               (mkArgs None false (py "devkit.json") [py "images"])
               cyclic_configs initial_state
  = (Exit 1,
     mkState [] [Print (FullGraphCycle [py "a"; py "b"; py "a"])]).
Proof. vm_compute. reflexivity. Qed.

(** What the driver does with the undeclared name of C10: it looks the
    name up in the image configs and dies of the [KeyError]. *)
Example undeclared_dependency_key_error :
  fst (build_images (demo_world (scripted_runtime 0 0 0 0 0)) insertion_order
                    (mkArgs None false (py "devkit.json") [py "images"])
                    undeclared_configs initial_state)
  = Raise (KeyError (py "zz")).
Proof. vm_compute. reflexivity. Qed.

(** ** The dependency tags are there when they are looked up *)

Lemma resolved_snoc : forall log e,
  resolved log -> is_unresolved e = false -> resolved (log ++ [e]).
Proof.
  intros log e Hlog He. apply Forall_app. split; [assumption|].
  now constructor.
Qed.

Lemma quiet_ret : forall (A : Type) (a : A), quiet (ret a).
Proof. intros A a st H. exact H. Qed.

Lemma quiet_lift : forall (A : Type) (o : Outcome A), quiet (lift o).
Proof. intros A o st H. exact H. Qed.

Lemma quiet_sys_exit : forall (A : Type) code, quiet (@sys_exit A code).
Proof. intros A code st H. exact H. Qed.

Lemma quiet_raise : forall (A : Type) e, quiet (@raise A e).
Proof. intros A e st H. exact H. Qed.

Lemma quiet_print : forall m,
  is_unresolved (Print m) = false -> quiet (print m).
Proof. intros m Hm st H. simpl. now apply resolved_snoc. Qed.

Lemma quiet_bind : forall (A B : Type) (c : M A) (k : A -> M B),
  quiet c -> (forall a, quiet (k a)) -> quiet (bind c k).
Proof.
  intros A B c k Hc Hk st H. unfold bind. specialize (Hc st H).
  destruct (c st) as [[a| | |] st']; simpl in *; try assumption.
  now apply Hk.
Qed.

Lemma quiet_try_except : forall (A : Type) (c : M A) (handler : Exn -> M A),
  quiet c -> (forall e, quiet (handler e)) -> quiet (try_except c handler).
Proof.
  intros A c handler Hc Hh st H. unfold try_except. specialize (Hc st H).
  destruct (c st) as [[a| |e|] st']; simpl in *; try assumption.
  now apply Hh.
Qed.

Lemma quiet_subprocess_run : forall W argv check,
  quiet (subprocess_run W argv check).
Proof.
  intros W argv check st H. unfold subprocess_run.
  assert (H' : resolved (events st ++ [Run argv]))
    by (now apply resolved_snoc).
  destruct (runtime W (events st) argv) as [rc out err|e]; simpl;
    [destruct (check && negb (rc =? 0)%Z)|]; exact H'.
Qed.

Lemma quiet_when : forall cond body, quiet body -> quiet (when cond body).
Proof. intros [|] body H; [exact H | apply quiet_ret]. Qed.

(** Breaks a computation into its steps, none of which prints the
    message. *)
Ltac quiet_steps :=
  repeat first
    [ apply quiet_ret | apply quiet_lift | apply quiet_sys_exit
    | apply quiet_raise | apply quiet_subprocess_run
    | apply quiet_print; reflexivity
    | apply quiet_when
    | apply quiet_bind; [|intros ?]
    | apply quiet_try_except; [|intros ?]
    | match goal with
      | |- quiet (if ?b then _ else _) => destruct b
      | |- quiet (match ?x with _ => _ end) => destruct x
      end ].

Lemma quiet_load_config : forall W config_path,
  quiet (load_config W config_path).
Proof.
  intros W config_path. unfold load_config. quiet_steps.
  intros st H. exact H.
Qed.

Lemma quiet_load_image_configs : forall W search_paths all_configs,
  quiet (load_image_configs_from W search_paths all_configs).
Proof.
  intros W. induction search_paths as [|path search_paths IH];
    intros all_configs; simpl; quiet_steps; apply IH.
Qed.

Lemma quiet_manage_docker_image : forall W tag dockerfile_path args context_path,
  quiet (manage_docker_image W tag dockerfile_path args context_path).
Proof.
  intros W tag dockerfile_path args context_path.
  unfold manage_docker_image, manage_docker_image_body,
    manage_docker_image_handler, print_output.
  quiet_steps.
Qed.

Lemma quiet_report_image : forall image_name print_tag_mode target tag,
  quiet (report_image image_name print_tag_mode target tag).
Proof.
  intros image_name print_tag_mode target tag. unfold report_image.
  quiet_steps.
Qed.

Lemma quiet_check_target : forall args names, quiet (check_target args names).
Proof. intros args names. unfold check_target. quiet_steps. Qed.

Lemma quiet_plan : forall order args m, quiet (plan order args m).
Proof.
  intros order args m. unfold plan, get_dependency_subgraph, full_order.
  quiet_steps.
Qed.

(** When every dependency has its tag, binding the build arguments finds
    them all. *)
Lemma quiet_bind_build_args : forall image_name items generated_tags a1 a2,
  (forall arg_name dep_name,
      In (arg_name, dep_name) items -> dict_mem dep_name generated_tags = true) ->
  quiet (bind_build_args image_name items generated_tags a1 a2).
Proof.
  intros image_name. induction items as [|[arg_name dep_name] items IH];
    intros generated_tags a1 a2 Htags; simpl.
  - apply quiet_ret.
  - pose proof (Htags arg_name dep_name (or_introl eq_refl)) as Hmem.
    unfold dict_mem in Hmem.
    destruct (dict_get dep_name generated_tags); [|discriminate].
    quiet_steps. apply IH. intros arg d Hin. apply (Htags arg d). now right.
Qed.

Lemma bind_ret_inv : forall (A B : Type) (c : M A) (k : A -> M B) st b st',
  bind c k st = (Ret b, st') ->
  exists a st1, c st = (Ret a, st1) /\ k a st1 = (Ret b, st').
Proof.
  intros A B c k st b st' H. unfold bind in H.
  destruct (c st) as [[a| | |] st1]; try discriminate. eauto.
Qed.

Lemma address_image_tags : forall W image_name dependencies generated_tags
                                  search_paths st b st',
  address_image W image_name dependencies generated_tags search_paths st
    = (Ret b, st') ->
  tags b = dict_set image_name (current_tag b) generated_tags.
Proof.
  intros W image_name dependencies generated_tags search_paths st b st' H.
  unfold address_image in H.
  apply bind_ret_inv in H. destruct H as (_ & st1 & _ & H).
  destruct (find_dockerfile W search_paths _) as [found|].
  - destruct (negb (truthy found)).
    + apply bind_ret_inv in H. destruct H as (_ & st2 & _ & H). discriminate.
    + apply bind_ret_inv in H. destruct H as (args & st2 & _ & H).
      apply bind_ret_inv in H. destruct H as (sha & st3 & _ & H).
      apply bind_ret_inv in H. destruct H as (_ & st4 & _ & H).
      apply bind_ret_inv in H. destruct H as (repo & st5 & _ & H).
      apply bind_ret_inv in H. destruct H as (_ & st6 & _ & H).
      unfold ret in H. injection H as <- _. reflexivity.
  - apply bind_ret_inv in H. destruct H as (_ & st2 & _ & H). discriminate.
Qed.

Lemma quiet_address_image : forall W image_name dependencies generated_tags
                                   search_paths,
  (forall arg_name dep_name,
      In (arg_name, dep_name) dependencies ->
      dict_mem dep_name generated_tags = true) ->
  quiet (address_image W image_name dependencies generated_tags search_paths).
Proof.
  intros W image_name dependencies generated_tags search_paths Htags.
  unfold address_image.
  apply quiet_bind; [apply quiet_print; reflexivity | intros _].
  destruct (find_dockerfile W search_paths _) as [found|]; [|quiet_steps].
  destruct (negb (truthy found)); [quiet_steps|].
  apply quiet_bind; [now apply quiet_bind_build_args | intros args].
  quiet_steps. intros st H. exact H.
Qed.

Lemma process_image_spec : forall W image_name dependencies generated_tags
                                  print_tag_mode target search_paths,
  (forall arg_name dep_name,
      In (arg_name, dep_name) dependencies ->
      dict_mem dep_name generated_tags = true) ->
  quiet (process_image W image_name dependencies generated_tags print_tag_mode
                       target search_paths)
  /\ forall st tag generated_tags' st',
       process_image W image_name dependencies generated_tags print_tag_mode
                     target search_paths st = (Ret (tag, generated_tags'), st') ->
       forall x, x = image_name \/ dict_mem x generated_tags = true ->
                 dict_mem x generated_tags' = true.
Proof.
  intros W image_name dependencies generated_tags print_tag_mode target
         search_paths Htags. split.
  - unfold process_image.
    apply quiet_bind; [now apply quiet_address_image | intros b].
    apply quiet_bind; [apply quiet_manage_docker_image | intros _].
    apply quiet_bind; [apply quiet_report_image | intros _].
    apply quiet_ret.
  - intros st tag generated_tags' st' H x Hx. unfold process_image in H.
    apply bind_ret_inv in H. destruct H as (b & st1 & Hb & H).
    apply bind_ret_inv in H. destruct H as (_ & st2 & _ & H).
    apply bind_ret_inv in H. destruct H as (_ & st3 & _ & H).
    unfold ret in H. injection H as _ <- _.
    rewrite (address_image_tags _ _ _ _ _ _ _ _ Hb).
    apply dict_mem_In. apply dict_keys_set_In.
    destruct Hx as [->|Hx]; [now left | right; now apply dict_mem_In].
Qed.

Lemma dep_of_item : forall (m : ImageConfigsMap) image_name image_conf arg_name d,
  dict_get image_name m = Some image_conf ->
  In (arg_name, d) (deps image_conf) ->
  dep m image_name d.
Proof.
  intros m image_name image_conf arg_name d Hget Hin.
  exists image_conf. split; [assumption|].
  unfold dict_values. apply in_map_iff. now exists (arg_name, d).
Qed.

(** The loop of the driver: when the images come in an order in which
    dependencies stand before their dependents, every image finds the tags
    of its dependencies. *)
Lemma quiet_process_all : forall W (m : ImageConfigsMap) print_tag_mode target
                                 search_paths todo processed generated_tags,
  NoDup (processed ++ todo) ->
  (forall n d, In n (processed ++ todo) -> dep m n d ->
               before (processed ++ todo) d n) ->
  (forall x, In x processed -> dict_mem x generated_tags = true) ->
  quiet (process_all W todo m generated_tags print_tag_mode target search_paths).
Proof.
  intros W m print_tag_mode target search_paths.
  induction todo as [|image_name todo IH];
    intros processed generated_tags Hnd Horder Htags; simpl.
  - apply quiet_ret.
  - destruct (dict_get image_name m) as [image_conf|] eqn:Hget;
      [|apply quiet_raise].
    assert (Hdeps : forall arg_name d,
               In (arg_name, d) (deps image_conf) ->
               dict_mem d generated_tags = true).
    { intros arg_name d Hin. apply Htags.
      apply (before_in_prefix processed image_name todo d Hnd).
      apply Horder; [apply in_app_iff; right; now left|].
      now apply (dep_of_item m image_name image_conf arg_name d). }
    destruct (process_image_spec W image_name (deps image_conf) generated_tags
                print_tag_mode target search_paths Hdeps) as [Hquiet Hgrow].
    intros st Hst. unfold bind. specialize (Hquiet st Hst).
    destruct (process_image W image_name (deps image_conf) generated_tags
                print_tag_mode target search_paths st)
      as [[[tag generated_tags']| | |] st'] eqn:E; simpl in *; try assumption.
    apply (IH (processed ++ [image_name]) generated_tags').
    + now rewrite <- app_assoc.
    + rewrite <- app_assoc. exact Horder.
    + intros x Hx. apply (Hgrow st tag generated_tags' st' E).
      apply in_app_iff in Hx. destruct Hx as [Hx|[<-|[]]]; [right; auto | now left].
    + assumption.
Qed.

Lemma plan_ordered : forall order args (m : ImageConfigsMap) st l st',
  dict_wf m ->
  plan order args m st = (Ret l, st') ->
  NoDup l /\ forall n d, In n l -> dep m n d -> before l d n.
Proof.
  intros order args m st l st' Hwf H. unfold plan in H.
  destruct (given (target_image args)) as [t|].
  - apply bind_ret_inv in H. destruct H as (images & st1 & Himages & H).
    apply bind_ret_inv in H. destruct H as (_ & st2 & _ & H).
    unfold ret in H. injection H as <- _.
    destruct (dict_mem t m) eqn:Hmem.
    + destruct (get_dependency_subgraph_spec order m t st Hwf Hmem)
        as [[_ [c Ec]] | [_ (l' & El & Hnd & _ & Htopo)]].
      * rewrite Ec in Himages. discriminate.
      * rewrite El in Himages. injection Himages as <- _. tauto.
    + unfold get_dependency_subgraph in Himages. rewrite Hmem in Himages.
      unfold ret in Himages. simpl in Himages. injection Himages as <- _.
      split; [constructor | intros n d []].
  - destruct (full_order_spec order m st Hwf)
      as [[_ [c Ec]] | [_ (l' & El & Hnd & _ & Htopo)]].
    + rewrite Ec in H. discriminate.
    + rewrite El in H. injection H as <- _. split; [assumption|].
      intros n d _. apply Htopo.
Qed.

Lemma quiet_build_images : forall W order args (m : ImageConfigsMap),
  dict_wf m -> quiet (build_images W order args m).
Proof.
  intros W order args m Hwf. unfold build_images.
  apply quiet_bind; [apply quiet_check_target | intros target].
  intros st Hst. unfold bind at 1.
  pose proof (quiet_plan order args m st Hst) as Hplan.
  destruct (plan order args m st) as [[l| | |] st1] eqn:E; cbn [snd] in *;
    try exact Hplan.
  destruct (plan_ordered order args m st l st1 Hwf E) as [Hnd Horder].
  match goal with
  | |- resolved (events (snd (?c st1))) =>
      cut (quiet c); [intros Hq; exact (Hq st1 Hplan)|]
  end.
  apply quiet_bind.
  - apply (quiet_process_all W m (print_tag args) target (search_path args)
             l [] []); simpl; try assumption. intros x [].
  - intros _. quiet_steps.
Qed.

(** C7.  The message of the unresolved-dependency branch of
    [process_image] is never printed by [main]: the images are processed in
    the order computed from the graph, so each lookup of a dependency in
    [generated_tags] comes after the dependency was processed and its tag
    recorded.  (Nothing is assumed on the names the images refer to: a
    name without a declaration stops the run before with a [KeyError],
    see [undeclared_dependency_key_error].) *)
Theorem dependency_tags_are_resolved :
  forall (W : World) (order : SetOrder) (args : Args) (st : State),
    resolved (events st) ->
    resolved (events (snd (main W order args st))).
Proof.
  intros W order args st Hst. unfold main.
  revert st Hst. apply quiet_bind; [apply quiet_load_config | intros _].
  intros st Hst. unfold bind.
  pose proof (quiet_load_image_configs W (search_path args) [] st Hst) as Hload.
  fold (load_image_configs W (search_path args) st) in Hload.
  destruct (load_image_configs W (search_path args) st) as [[m| | |] st1] eqn:E;
    simpl in *; try assumption.
  apply quiet_build_images; [|assumption].
  now apply (load_image_configs_wf W (search_path args) st m st1).
Qed.

Lemma dependency_tags_are_resolved_witness :
  resolved
    (events
       (snd (main (demo_world (scripted_runtime 0 0 0 0 0)) insertion_order
                  (mkArgs None false (py "devkit.json") [py "images"])
                  initial_state))).
Proof.
  exact (dependency_tags_are_resolved
           (demo_world (scripted_runtime 0 0 0 0 0)) insertion_order
           (mkArgs None false (py "devkit.json") [py "images"])
           initial_state (Forall_nil _)).
Defined.

(** The branch itself is there: [process_image] called on its own, with no
    tag recorded for the dependency, prints the message and exits with
    code 1 (the repository's [test_process_image_dependency_not_found]). *)
Example unresolved_branch_when_called_directly :
  process_image (demo_world (scripted_runtime 0 0 0 0 0)) (py "a")
                [(py "FROM", py "b")] [] false None [py "images"] initial_state
  = (Exit 1,
     mkState [] [Print (Processing (py "a"));
                 Print (DependencyTagNotFound (py "b") (py "a") (py "FROM"));
                 Print EnsureBuildOrder]).
Proof. vm_compute. reflexivity. Qed.

(** * Further properties of the script *)

(** ** One call of manage_docker_image *)

Lemma no_exit_ret : forall (A : Type) (a : A), no_exit (ret a).
Proof. intros A a st. exact I. Qed.

Lemma no_exit_raise : forall (A : Type) e, no_exit (@raise A e).
Proof. intros A e st. exact I. Qed.

Lemma no_exit_print : forall m, no_exit (print m).
Proof. intros m st. exact I. Qed.

Lemma no_exit_bind : forall (A B : Type) (c : M A) (k : A -> M B),
  no_exit c -> (forall a, no_exit (k a)) -> no_exit (bind c k).
Proof.
  intros A B c k Hc Hk st. unfold bind. specialize (Hc st).
  destruct (c st) as [[a| | |] st']; simpl in *; try assumption.
  apply Hk.
Qed.

Lemma no_exit_subprocess_run : forall W argv check,
  no_exit (subprocess_run W argv check).
Proof.
  intros W argv check st. unfold subprocess_run.
  destruct (runtime W (events st) argv) as [rc out err|e]; simpl;
    [destruct (check && negb (rc =? 0)%Z)|]; exact I.
Qed.

Lemma no_exit_when : forall cond body, no_exit body -> no_exit (when cond body).
Proof. intros [|] body H; [exact H | apply no_exit_ret]. Qed.

Lemma no_exit_build_arg_flags : forall l, no_exit (lift (build_arg_flags l)).
Proof.
  intros l st. unfold lift. simpl.
  assert (H : forall l,
             match build_arg_flags l with
             | Exit _ | Unfinished => False
             | _ => True
             end
             /\ forall a,
                  match build_arg_flags (a :: l) with
                  | Exit _ | Unfinished => False
                  | _ => True
                  end).
  { clear l. induction l as [|b l [IH1 IH2]].
    - split; [exact I | intros a; exact I].
    - split; [apply IH2|]. intros a. simpl.
      destruct (build_arg_flags l); simpl; auto. }
  apply H.
Qed.

Ltac no_exit_steps :=
  repeat first
    [ apply no_exit_ret | apply no_exit_raise | apply no_exit_subprocess_run
    | apply no_exit_print | apply no_exit_build_arg_flags
    | apply no_exit_when
    | apply no_exit_bind; [|intros ?]
    | match goal with
      | |- no_exit (if ?b then _ else _) => destruct b
      | |- no_exit (match ?x with _ => _ end) => destruct x
      | |- no_exit (let '(_, _) := ?x in _) => destruct x
      end ].

Lemma no_exit_manage_docker_image_body : forall W tag dockerfile_path args context_path,
  no_exit (manage_docker_image_body W tag dockerfile_path args context_path).
Proof.
  intros W tag dockerfile_path args context_path.
  unfold manage_docker_image_body, print_output.
  no_exit_steps.
Qed.

Lemma manage_docker_image_managed :
  forall (W : World) (tag dockerfile_path : pystr) (build_args_list : list pystr)
         (context_path : pystr) (st : State),
    managed
      (fst (manage_docker_image W tag dockerfile_path build_args_list
                                context_path st)).
Proof.
  intros W tag dockerfile_path build_args_list context_path st.
  unfold manage_docker_image, try_except.
  pose proof (no_exit_manage_docker_image_body W tag dockerfile_path
                build_args_list context_path st) as Hbody.
  destruct (manage_docker_image_body W tag dockerfile_path build_args_list
              context_path st) as [[[]|code|e|] st']; simpl in *;
    try contradiction; try exact I.
  destruct e as [rc cmd out err| | | | | | | | |]; simpl; try exact I.
  - unfold bind, print, when, ret, sys_exit.
    destruct (truthy out), (truthy err); simpl;
      destruct (rc =? 0)%Z eqn:E; simpl; try discriminate;
      now apply Z.eqb_neq.
  - discriminate.
Qed.

(** X1.  However the container runtime answers, [manage_docker_image]
    ends in one of three ways: it returns; it calls [sys.exit] with a
    code that is not zero; or an exception other than
    [CalledProcessError] and [FileNotFoundError] goes through.  The two
    exceptions it has handlers for never escape, and it never exits with
    code 0. *)
Theorem manage_docker_image_outcomes :
  forall (W : World) (tag dockerfile_path : pystr) (build_args_list : list pystr)
         (context_path : pystr) (st : State),
    match fst (manage_docker_image W tag dockerfile_path build_args_list
                                   context_path st) with
    | Ret _ => True
    | Exit code => code <> 0%Z
    | Raise e =>
        e <> FileNotFoundError
        /\ forall returncode cmd stdout stderr,
             e <> CalledProcessError returncode cmd stdout stderr
    | Unfinished => False
    end.
Proof.
  intros W tag dockerfile_path build_args_list context_path st.
  pose proof (manage_docker_image_managed W tag dockerfile_path
                build_args_list context_path st) as H.
  destruct (fst (manage_docker_image W tag dockerfile_path build_args_list
                   context_path st)) as [[]|code|e|]; simpl in H;
    try assumption.
  destruct e; try contradiction;
    (split; [discriminate | intros returncode cmd stdout stderr;
                            discriminate]).
Qed.

Lemma handler_commands : forall tag e st,
  commands (events (snd (manage_docker_image_handler tag e st)))
  = commands (events st)
  /\ REPO (snd (manage_docker_image_handler tag e st)) = REPO st.
Proof.
  intros tag e st.
  destruct e as [rc cmd out err| | | | | | | | |]; simpl; auto.
  - unfold bind, print, when, ret, sys_exit.
    destruct (truthy out), (truthy err); simpl;
      repeat (rewrite commands_app; simpl); rewrite ?app_nil_r; auto.
  - unfold bind, print, sys_exit. simpl. rewrite commands_app. simpl.
    now rewrite app_nil_r.
Qed.

Ltac shape cs :=
  split; [reflexivity|]; exists cs;
  split;
  [ repeat (rewrite <- app_assoc; simpl);
    repeat (rewrite commands_app; simpl);
    rewrite ?commands_output_events, ?app_nil_r; simpl; reflexivity
  | ].

Lemma manage_docker_image_body_commands :
  forall (W : World) (tag dockerfile_path : pystr) (build_args_list : list pystr)
         (context_path : pystr) (st : State),
    let st' := snd (manage_docker_image_body W tag dockerfile_path
                      build_args_list context_path st) in
    REPO st' = REPO st
    /\ exists cs,
         commands (events st') = commands (events st) ++ cs
         /\ (cs = [inspect_cmd tag]
             \/ cs = [inspect_cmd tag; manifest_inspect_cmd tag]
             \/ cs = [inspect_cmd tag; manifest_inspect_cmd tag; pull_cmd tag]
             \/ exists flags,
                  build_arg_flags build_args_list = Ret flags
                  /\ let build_cmd :=
                       docker_build_cmd tag dockerfile_path flags context_path in
                     cs = [inspect_cmd tag; manifest_inspect_cmd tag; build_cmd]
                     \/ cs = [inspect_cmd tag; manifest_inspect_cmd tag;
                              build_cmd; push_cmd tag]).
Proof.
  intros W tag dockerfile_path build_args_list context_path st st'. subst st'.
  unfold manage_docker_image_body. step.
  destruct (runtime W _ (inspect_cmd tag)) as [rc1 o1 e1|x1]; simpl;
    [|shape [inspect_cmd tag]; now left].
  destruct (rc1 =? 0)%Z; simpl; [shape [inspect_cmd tag]; now left|].
  rewrite <- ?app_assoc; simpl.
  destruct (runtime W _ (manifest_inspect_cmd tag)) as [rc2 o2 e2|x2]; simpl;
    [|shape [inspect_cmd tag; manifest_inspect_cmd tag]; right; now left].
  destruct (rc2 =? 0)%Z; simpl; rewrite <- ?app_assoc; simpl.
  - destruct (runtime W _ (pull_cmd tag)) as [rc3 o3 e3|x3]; simpl;
      [destruct (rc3 =? 0)%Z; simpl; rewrite ?print_output_run; simpl|];
      (shape [inspect_cmd tag; manifest_inspect_cmd tag; pull_cmd tag];
       right; right; now left).
  - destruct (build_arg_flags build_args_list) as [flags| |x|] eqn:Hflags;
      simpl;
      try (shape [inspect_cmd tag; manifest_inspect_cmd tag]; right; now left).
    rewrite <- ?app_assoc; simpl.
    destruct (runtime W _ (docker_build_cmd _ _ _ _)) as [rc3 o3 e3|x3];
      simpl;
      [destruct (rc3 =? 0)%Z; simpl|];
      try (shape [inspect_cmd tag; manifest_inspect_cmd tag;
                  docker_build_cmd tag dockerfile_path flags context_path];
           right; right; right; exists flags; split; [reflexivity|];
           now left).
    rewrite print_output_run. simpl. rewrite <- ?app_assoc; simpl.
    destruct (runtime W _ (push_cmd tag)) as [rc4 o4 e4|x4]; simpl;
      [destruct (rc4 =? 0)%Z; simpl; rewrite ?print_output_run; simpl;
       [|destruct (truthy e4); simpl]|];
      (shape [inspect_cmd tag; manifest_inspect_cmd tag;
              docker_build_cmd tag dockerfile_path flags context_path;
              push_cmd tag];
       right; right; right; exists flags; split; [reflexivity|]; now right).
Qed.

(** X2.  The commands one call of [manage_docker_image] runs are, in
    this order: the local inspect alone; or the two inspects; or the two
    inspects and the pull; or the two inspects and the build; or the two
    inspects, the build and the push.  So nothing is pushed that was not
    built just before, an image is never both pulled and built, and the
    build command carries one [--build-arg] pair per pair of the argument
    list.  The registry prefix is left as it was. *)
Theorem manage_docker_image_commands :
  forall (W : World) (tag dockerfile_path : pystr) (build_args_list : list pystr)
         (context_path : pystr) (st : State),
    let st' := snd (manage_docker_image W tag dockerfile_path build_args_list
                                        context_path st) in
    REPO st' = REPO st
    /\ exists cs,
         commands (events st') = commands (events st) ++ cs
         /\ (cs = [inspect_cmd tag]
             \/ cs = [inspect_cmd tag; manifest_inspect_cmd tag]
             \/ cs = [inspect_cmd tag; manifest_inspect_cmd tag; pull_cmd tag]
             \/ exists flags,
                  build_arg_flags build_args_list = Ret flags
                  /\ let build_cmd :=
                       docker_build_cmd tag dockerfile_path flags context_path in
                     cs = [inspect_cmd tag; manifest_inspect_cmd tag; build_cmd]
                     \/ cs = [inspect_cmd tag; manifest_inspect_cmd tag;
                              build_cmd; push_cmd tag]).
Proof.
  intros W tag dockerfile_path build_args_list context_path st st'. subst st'.
  unfold manage_docker_image, try_except.
  pose proof (manage_docker_image_body_commands W tag dockerfile_path
                build_args_list context_path st) as Hbody.
  simpl in Hbody.
  destruct (manage_docker_image_body W tag dockerfile_path build_args_list
              context_path st) as [[[]|code|e|] st1]; simpl in *;
    try exact Hbody.
  destruct (handler_commands tag e st1) as [Hc Hr].
  rewrite Hc, Hr. exact Hbody.
Qed.

Lemma manage_docker_image_repo :
  forall W tag dockerfile_path build_args_list context_path st,
    REPO (snd (manage_docker_image W tag dockerfile_path build_args_list
                                   context_path st)) = REPO st.
Proof.
  intros W tag dockerfile_path build_args_list context_path st.
  unfold manage_docker_image, try_except.
  pose proof (manage_docker_image_body_commands W tag dockerfile_path
                build_args_list context_path st) as [Hbody _].
  simpl in Hbody.
  destruct (manage_docker_image_body W tag dockerfile_path build_args_list
              context_path st) as [[[]|code|e|] st1]; simpl in *;
    try exact Hbody.
  destruct (handler_commands tag e st1) as [_ Hr]. now rewrite Hr.
Qed.

(** X3.  When the image is neither local nor in the registry and the
    build command fails, [manage_docker_image] reports the failed command
    and exits with the return code of the build; the push is not
    attempted. *)
Theorem build_failure_is_fatal :
  forall (W : World) (tag dockerfile_path : pystr) (build_args_list : list pystr)
         (context_path : pystr) (st : State)
         (rc1 rc2 rc3 : Z) (o1 e1 o2 e2 o3 e3 : pystr) (flags : list pystr),
    let h1 := events st ++ [Print (CheckingLocal tag)] in
    runtime W h1 (inspect_cmd tag) = Completed rc1 o1 e1 ->
    rc1 <> 0%Z ->
    let h2 := h1 ++ [Run (inspect_cmd tag); Print (CheckingRemote tag)] in
    runtime W h2 (manifest_inspect_cmd tag) = Completed rc2 o2 e2 ->
    rc2 <> 0%Z ->
    build_arg_flags build_args_list = Ret flags ->
    let cmd := docker_build_cmd tag dockerfile_path flags context_path in
    let h3 := h2 ++ [Run (manifest_inspect_cmd tag);
                     Print (NotFoundBuilding tag);
                     Print (ExecutingBuild cmd)] in
    runtime W h3 cmd = Completed rc3 o3 e3 ->
    rc3 <> 0%Z ->
    let r := manage_docker_image W tag dockerfile_path build_args_list
                                 context_path st in
    r = (Exit rc3,
         mkState (REPO st)
                 (h3 ++ [Run cmd; Print (DockerOperationError tag);
                         Print (FailedCommand cmd)]
                     ++ (if truthy o3 then [Print (FailedStdout o3)] else [])
                     ++ (if truthy e3 then [Print (FailedStderr e3)] else [])))
    /\ commands (events (snd r))
       = commands (events st)
         ++ [inspect_cmd tag; manifest_inspect_cmd tag; cmd].
Proof.
  intros W tag dockerfile_path build_args_list context_path st rc1 rc2 rc3
         o1 e1 o2 e2 o3 e3 flags h1 H1 Hrc1 h2 H2 Hrc2 Hflags cmd h3 H3 Hrc3 r.
  assert (E : r = (Exit rc3,
         mkState (REPO st)
                 (h3 ++ [Run cmd; Print (DockerOperationError tag);
                         Print (FailedCommand cmd)]
                     ++ (if truthy o3 then [Print (FailedStdout o3)] else [])
                     ++ (if truthy e3 then [Print (FailedStderr e3)] else [])))).
  { subst r h1 h2 h3. rewrite <- ?app_assoc in *. simpl in *.
    unfold manage_docker_image, try_except, manage_docker_image_body. step.
    rewrite H1. simpl. rewrite (nonzero_eqb Hrc1). step.
    rewrite H2. simpl. rewrite (nonzero_eqb Hrc2). step.
    rewrite Hflags. step. fold cmd. rewrite H3. simpl.
    rewrite (nonzero_eqb Hrc3). simpl. step.
    destruct (truthy o3), (truthy e3); simpl;
      repeat (rewrite <- app_assoc; simpl);
      rewrite ?(nonzero_eqb Hrc3); reflexivity. }
  split; [exact E|]. rewrite E. subst h1 h2 h3. simpl.
  repeat (rewrite <- app_assoc; simpl).
  repeat (rewrite commands_app; simpl).
  destruct (truthy o3), (truthy e3); reflexivity.
Qed.

Lemma build_failure_is_fatal_witness :
  let W := demo_world (scripted_runtime 1 1 0 2 0) in
  let tag := py "devkit/c:amd64-0" in
  let r := manage_docker_image W tag (py "images/c.Dockerfile") []
                               (py "images") initial_state in
  fst r = Exit 2
  /\ commands (events (snd r))
     = [inspect_cmd tag; manifest_inspect_cmd tag;
        docker_build_cmd tag (py "images/c.Dockerfile") [] (py "images")].
Proof.
  intros W tag r.
  destruct (build_failure_is_fatal W tag (py "images/c.Dockerfile") []
              (py "images") initial_state 1 1 2 [] [] [] [] [] [] [])
    as [E C].
  - reflexivity.
  - discriminate.
  - reflexivity.
  - discriminate.
  - reflexivity.
  - reflexivity.
  - discriminate.
  - split; [fold r in E; rewrite E; reflexivity | exact C].
Defined.

(** X4.  When the very first command cannot be started because there is
    no [docker] executable ([FileNotFoundError]), [manage_docker_image]
    prints the hint and exits with code 1 after that single attempt. *)
Theorem missing_docker_is_fatal :
  forall (W : World) (tag dockerfile_path : pystr) (build_args_list : list pystr)
         (context_path : pystr) (st : State),
    runtime W (events st ++ [Print (CheckingLocal tag)]) (inspect_cmd tag)
      = RunRaises FileNotFoundError ->
    manage_docker_image W tag dockerfile_path build_args_list context_path st
    = (Exit 1,
       mkState (REPO st)
               (events st ++ [Print (CheckingLocal tag);
                              Run (inspect_cmd tag);
                              Print DockerNotFound])).
Proof.
  intros W tag dockerfile_path build_args_list context_path st H.
  unfold manage_docker_image, try_except, manage_docker_image_body. step.
  rewrite H. simpl. step. reflexivity.
Qed.

Lemma missing_docker_is_fatal_witness :
  manage_docker_image (demo_world (fun _ _ => RunRaises FileNotFoundError))
                      (py "devkit/c:amd64-0") (py "images/c.Dockerfile") []
                      (py "images") initial_state
  = (Exit 1,
     mkState [] [Print (CheckingLocal (py "devkit/c:amd64-0"));
                 Run (inspect_cmd (py "devkit/c:amd64-0"));
                 Print DockerNotFound]).
Proof.
  exact (missing_docker_is_fatal
           (demo_world (fun _ _ => RunRaises FileNotFoundError))
           (py "devkit/c:amd64-0") (py "images/c.Dockerfile") []
           (py "images") initial_state eq_refl).
Defined.

(** ** Sorting *)

Lemma str_leb_refl : forall a, str_leb a a = true.
Proof.
  induction a as [|x a IH]; simpl; [reflexivity|].
  now rewrite N.ltb_irrefl.
Qed.

Lemma str_leb_total : forall a b, str_leb a b = true \/ str_leb b a = true.
Proof.
  induction a as [|x a IH]; intros [|y b]; simpl; auto.
  destruct (N.ltb_spec x y) as [Hxy|Hxy]; [now left|].
  destruct (N.ltb_spec y x) as [Hyx|Hyx]; [now right|].
  apply IH.
Qed.

Lemma str_leb_antisym : forall a b,
  str_leb a b = true -> str_leb b a = true -> a = b.
Proof.
  induction a as [|x a IH]; intros [|y b]; simpl; try discriminate; auto.
  destruct (N.ltb_spec x y) as [Hxy|Hxy].
  - destruct (N.ltb_spec y x) as [Hyx|Hyx]; [lia|]. discriminate.
  - destruct (N.ltb_spec y x) as [Hyx|Hyx]; [discriminate|].
    intros H1 H2. assert (x = y) by lia. subst. f_equal. now apply IH.
Qed.

Lemma str_leb_trans : forall a b c,
  str_leb a b = true -> str_leb b c = true -> str_leb a c = true.
Proof.
  induction a as [|x a IH]; intros [|y b] [|z c]; simpl; try discriminate; auto.
  destruct (N.ltb_spec x y) as [Hxy|Hxy].
  - intros _. destruct (N.ltb_spec y z) as [Hyz|Hyz].
    + intros _. destruct (N.ltb_spec x z); [reflexivity | lia].
    + destruct (N.ltb_spec z y); [discriminate|]. intros _.
      destruct (N.ltb_spec x z); [reflexivity | lia].
  - destruct (N.ltb_spec y x) as [Hyx|Hyx]; [discriminate|].
    assert (x = y) by lia. subst y. intros Hab.
    destruct (N.ltb_spec x z) as [Hxz|Hxz]; [reflexivity|].
    destruct (N.ltb_spec z x) as [Hzx|Hzx]; [discriminate|].
    now apply IH.
Qed.

Lemma insert_sorted_perm : forall x l, Permutation (x :: l) (insert_sorted x l).
Proof.
  intros x. induction l as [|y l IH]; simpl; [reflexivity|].
  destruct (str_leb x y); [reflexivity|].
  rewrite perm_swap. now apply perm_skip.
Qed.

Lemma list_sort_perm : forall l, Permutation l (list_sort l).
Proof.
  induction l as [|x l IH]; simpl; [reflexivity|].
  rewrite <- insert_sorted_perm. now apply perm_skip.
Qed.

Lemma insert_sorted_ascending : forall x l,
  ascending l -> ascending (insert_sorted x l).
Proof.
  intros x. induction l as [|y l IH]; intros Hl; simpl.
  - split; [intros y []|exact I].
  - destruct Hl as [Hy Hl].
    destruct (str_leb x y) eqn:E.
    + split; [|split; assumption].
      intros z [<-|Hz]; [assumption|].
      apply (str_leb_trans x y z); auto.
    + split; [|now apply IH].
      intros z Hz.
      apply (Permutation_in _ (Permutation_sym (insert_sorted_perm x l))) in Hz.
      destruct Hz as [<-|Hz]; [|now apply Hy].
      destruct (str_leb_total x y) as [H|H]; [congruence | assumption].
Qed.

Lemma list_sort_ascending : forall l, ascending (list_sort l).
Proof.
  induction l as [|x l IH]; simpl; [exact I|].
  now apply insert_sorted_ascending.
Qed.

Lemma ascending_unique : forall l1 l2,
  ascending l1 -> ascending l2 -> Permutation l1 l2 -> l1 = l2.
Proof.
  induction l1 as [|x l1 IH]; intros l2 H1 H2 Hp.
  - apply Permutation_nil in Hp. now subst.
  - destruct l2 as [|y l2];
      [apply Permutation_sym, Permutation_nil in Hp; discriminate|].
    destruct H1 as [Hx H1], H2 as [Hy H2].
    assert (x = y).
    { assert (Hin1 : In y (x :: l1))
        by (apply (Permutation_in _ (Permutation_sym Hp)); now left).
      assert (Hin2 : In x (y :: l2))
        by (apply (Permutation_in _ Hp); now left).
      destruct Hin1 as [->|Hin1]; [reflexivity|].
      destruct Hin2 as [->|Hin2]; [reflexivity|].
      apply str_leb_antisym; auto. }
    subst y. f_equal. apply IH; try assumption.
    now apply Permutation_cons_inv in Hp.
Qed.

Lemma list_sort_permutation : forall l1 l2,
  Permutation l1 l2 -> list_sort l1 = list_sort l2.
Proof.
  intros l1 l2 Hp. apply ascending_unique; try apply list_sort_ascending.
  rewrite <- !list_sort_perm. exact Hp.
Qed.

(** ** The first half of process_image *)

Lemma bind_build_args_run : forall image_name items generated_tags a1 a2 st,
  (forall item, In item items -> dict_mem (snd item) generated_tags = true) ->
  bind_build_args image_name items generated_tags a1 a2 st
  = (Ret (a1 ++ manage_args generated_tags items,
          a2 ++ sha_args generated_tags items),
     mkState (REPO st)
             (events st ++ build_arg_events image_name generated_tags items)).
Proof.
  intros image_name. induction items as [|[arg_name dep_name] items IH];
    intros generated_tags a1 a2 st Htags; simpl.
  - unfold ret. rewrite !app_nil_r. now destruct st.
  - pose proof (Htags (arg_name, dep_name) (or_introl eq_refl)) as Hmem.
    unfold dict_mem in Hmem. simpl in Hmem. unfold tag_of at 1 2 3.
    destruct (dict_get dep_name generated_tags) as [dep_tag|];
      [|discriminate].
    unfold bind at 1, print. rewrite IH by (intros item Hin; apply Htags; now right).
    simpl. rewrite <- !app_assoc. reflexivity.
Qed.

Lemma bind_build_args_inv : forall image_name items generated_tags a1 a2 st r st',
  bind_build_args image_name items generated_tags a1 a2 st = (Ret r, st') ->
  forall item, In item items -> dict_mem (snd item) generated_tags = true.
Proof.
  intros image_name. induction items as [|[arg_name dep_name] items IH];
    intros generated_tags a1 a2 st r st' H item Hin; simpl in *.
  - contradiction.
  - unfold dict_mem.
    destruct (dict_get dep_name generated_tags) as [dep_tag|] eqn:E.
    + apply bind_ret_inv in H. destruct H as (_ & st1 & _ & H).
      destruct Hin as [<-|Hin]; [simpl; now rewrite E|].
      apply (IH _ _ _ _ _ _ H item Hin).
    + apply bind_ret_inv in H. destruct H as (_ & st1 & _ & H).
      apply bind_ret_inv in H. destruct H as (_ & st2 & _ & H).
      discriminate.
Qed.

(** The run of [address_image] when the Dockerfile is found, every
    dependency has a tag and the digest can be computed. *)
Lemma address_image_run :
  forall W image_name dependencies generated_tags search_paths st found sha,
    find_dockerfile W search_paths (image_name ++ py ".Dockerfile") = Some found ->
    truthy found = true ->
    (forall item, In item dependencies ->
                  dict_mem (snd item) generated_tags = true) ->
    let dockerfile_path := path_realpath W found in
    let sorted_args := list_sort (sha_args generated_tags dependencies) in
    calculate_sha256 W dockerfile_path sorted_args = Ret sha ->
    let tag := get_image_tag (REPO st) image_name sha in
    address_image W image_name dependencies generated_tags search_paths st
    = (Ret (mkBuild tag dockerfile_path
                    (manage_args generated_tags dependencies)
                    (path_dirname W dockerfile_path)
                    (dict_set image_name tag generated_tags)),
       mkState (REPO st)
               (events st
                ++ [Print (Processing image_name)]
                ++ build_arg_events image_name generated_tags dependencies
                ++ [Print (ShaInfo dockerfile_path sorted_args sha);
                    Print (TagFor image_name tag)])).
Proof.
  intros W image_name dependencies generated_tags search_paths st found sha
         Hfind Htruthy Htags dockerfile_path sorted_args Hsha tag.
  unfold address_image. unfold bind at 1, print. rewrite Hfind, Htruthy.
  cbn [negb]. unfold bind at 1.
  rewrite bind_build_args_run by assumption. cbn [fst snd app].
  fold dockerfile_path. fold sorted_args.
  unfold bind at 1, try_except, lift. rewrite Hsha.
  unfold bind, print, ret. simpl. fold tag.
  repeat (rewrite <- app_assoc; simpl). reflexivity.
Qed.

Lemma address_image_inv :
  forall W image_name dependencies generated_tags search_paths st b st',
    address_image W image_name dependencies generated_tags search_paths st
      = (Ret b, st') ->
    exists found sha,
      find_dockerfile W search_paths (image_name ++ py ".Dockerfile") = Some found
      /\ truthy found = true
      /\ (forall item, In item dependencies ->
                       dict_mem (snd item) generated_tags = true)
      /\ calculate_sha256 W (path_realpath W found)
           (list_sort (sha_args generated_tags dependencies)) = Ret sha.
Proof.
  intros W image_name dependencies generated_tags search_paths st b st' H.
  unfold address_image in H.
  apply bind_ret_inv in H. destruct H as (_ & st1 & _ & H).
  destruct (find_dockerfile W search_paths _) as [found|].
  - destruct (truthy found) eqn:Htruthy; cbn [negb] in H.
    + apply bind_ret_inv in H. destruct H as (args & st2 & Hargs & H).
      apply bind_ret_inv in H. destruct H as (sha & st3 & Hsha & H).
      pose proof (bind_build_args_inv _ _ _ _ _ _ _ _ Hargs) as Htags.
      rewrite bind_build_args_run in Hargs by assumption.
      injection Hargs as <- _. cbn [fst snd app] in Hsha.
      exists found, sha. repeat split; try assumption.
      unfold try_except, lift in Hsha.
      destruct (calculate_sha256 W _ _) as [s| |e|]; try discriminate.
      * now injection Hsha as -> _.
      * destruct e; discriminate.
    + apply bind_ret_inv in H. destruct H as (_ & st2 & _ & H). discriminate.
  - apply bind_ret_inv in H. destruct H as (_ & st2 & _ & H). discriminate.
Qed.

(** X5.  The Dockerfile [process_image] settles on is the one of the
    first search path, in the order given, under which the file exists;
    search paths after it are not looked at, and there is none exactly
    when the file exists under no search path. *)
Theorem find_dockerfile_first_match :
  forall (W : World) (search_paths : list pystr) (dockerfile_name p : pystr),
    find_dockerfile W search_paths dockerfile_name = Some p
    <-> exists before_it path after_it,
          search_paths = before_it ++ path :: after_it
          /\ p = path_join W path dockerfile_name
          /\ path_exists W p = true
          /\ forall q, In q before_it ->
                       path_exists W (path_join W q dockerfile_name) = false.
Proof.
  intros W search_paths dockerfile_name p.
  induction search_paths as [|path search_paths IH]; simpl.
  - split; [discriminate|]. intros (l1 & d & l2 & H & _).
    destruct l1; discriminate.
  - destruct (path_exists W (path_join W path dockerfile_name)) eqn:E.
    + split.
      * intros H. injection H as <-.
        exists [], path, search_paths. repeat split; auto. intros q [].
      * intros ([|q l1] & d & l2 & H & -> & Hp & Hpre); simpl in H;
          injection H as <- ->; [reflexivity|].
        rewrite (Hpre path (or_introl eq_refl)) in E. discriminate.
    + rewrite IH. split.
      * intros (l1 & d & l2 & -> & -> & Hp & Hpre).
        exists (path :: l1), d, l2. repeat split; auto.
        intros q [<-|Hq]; auto.
      * intros ([|q l1] & d & l2 & H & -> & Hp & Hpre); simpl in H;
          injection H as <- ->; [congruence|].
        exists l1, d, l2. repeat split; auto.
        intros q' Hq'. apply Hpre. now right.
Qed.

Lemma find_dockerfile_none : forall W search_paths dockerfile_name,
  (forall path, In path search_paths ->
                path_exists W (path_join W path dockerfile_name) = false) ->
  find_dockerfile W search_paths dockerfile_name = None.
Proof.
  intros W search_paths dockerfile_name.
  induction search_paths as [|path search_paths IH]; intros H; simpl;
    [reflexivity|].
  rewrite (H path (or_introl eq_refl)). apply IH.
  intros q Hq. apply H. now right.
Qed.

(** X6.  When the Dockerfile of an image exists under none of the search
    paths (in particular when there is no search path), [process_image]
    prints the error and exits with code 1: no dependency is looked up, no
    digest is computed and no command is run. *)
Theorem missing_dockerfile_is_fatal :
  forall (W : World) (image_name : pystr) (dependencies generated_tags : dict pystr)
         (print_tag_mode : bool) (target : option pystr)
         (search_paths : list pystr) (st : State),
    let dockerfile_name := image_name ++ py ".Dockerfile" in
    (forall path, In path search_paths ->
                  path_exists W (path_join W path dockerfile_name) = false) ->
    process_image W image_name dependencies generated_tags print_tag_mode
                  target search_paths st
    = (Exit 1,
       mkState (REPO st)
               (events st
                ++ [Print (Processing image_name);
                    Print (DockerfileNotFound dockerfile_name image_name
                                              search_paths)])).
Proof.
  intros W image_name dependencies generated_tags print_tag_mode target
         search_paths st dockerfile_name H.
  unfold process_image, address_image. fold dockerfile_name.
  rewrite (find_dockerfile_none _ _ _ H).
  unfold bind, print, sys_exit. simpl. now rewrite <- app_assoc.
Qed.

Lemma missing_dockerfile_is_fatal_witness :
  process_image (demo_world (scripted_runtime 0 0 0 0 0)) (py "e") [] []
                false None [py "images"; py "more"] initial_state
  = (Exit 1,
     mkState [] [Print (Processing (py "e"));
                 Print (DockerfileNotFound (py "e.Dockerfile") (py "e")
                                           [py "images"; py "more"])]).
Proof.
  apply (missing_dockerfile_is_fatal
           (demo_world (scripted_runtime 0 0 0 0 0)) (py "e") [] []
           false None [py "images"; py "more"] initial_state).
  intros path [<-|[<-|[]]]; reflexivity.
Defined.

Lemma build_arg_flags_manage_args : forall generated_tags dependencies,
  build_arg_flags (manage_args generated_tags dependencies)
  = Ret (flag_args generated_tags dependencies).
Proof.
  intros generated_tags. induction dependencies as [|item items IH];
    simpl; [reflexivity|].
  fold (manage_args generated_tags items). rewrite IH. reflexivity.
Qed.

(** X7.  When the first half of [process_image] gets through, every
    dependency had a tag, the argument list handed to
    [manage_docker_image] holds the name of each build argument followed
    by the tag of its dependency, in the order of the dependency
    dictionary, and the loop of [manage_docker_image] turns that list into
    one [--build-arg NAME=TAG] pair per dependency without running over
    the end of the list. *)
Theorem build_args_name_every_dependency :
  forall (W : World) (image_name : pystr) (dependencies generated_tags : dict pystr)
         (search_paths : list pystr) (st st' : State) (b : Build),
    address_image W image_name dependencies generated_tags search_paths st
      = (Ret b, st') ->
    (forall item, In item dependencies ->
                  dict_get (snd item) generated_tags
                  = Some (tag_of generated_tags (snd item)))
    /\ build_args b = manage_args generated_tags dependencies
    /\ build_arg_flags (build_args b)
       = Ret (flag_args generated_tags dependencies).
Proof.
  intros W image_name dependencies generated_tags search_paths st st' b H.
  destruct (address_image_inv _ _ _ _ _ _ _ _ H)
    as (found & sha & Hfind & Htruthy & Htags & Hsha).
  rewrite (address_image_run W image_name dependencies generated_tags
             search_paths st found sha Hfind Htruthy Htags Hsha) in H.
  injection H as <- _. cbn [build_args].
  split; [|split; [reflexivity | apply build_arg_flags_manage_args]].
  intros item Hin. specialize (Htags item Hin).
  unfold dict_mem in Htags. unfold tag_of.
  now destruct (dict_get (snd item) generated_tags).
Qed.

Lemma build_args_name_every_dependency_witness :
  exists b st',
    address_image (demo_world (scripted_runtime 0 0 0 0 0)) (py "a")
                  [(py "FROM", py "b")] [(py "b", py "devkit/b:amd64-0")]
                  [py "images"] initial_state = (Ret b, st')
    /\ build_arg_flags (build_args b)
       = Ret [py "--build-arg"; py "FROM=devkit/b:amd64-0"].
Proof.
  destruct (address_image (demo_world (scripted_runtime 0 0 0 0 0)) (py "a")
              [(py "FROM", py "b")] [(py "b", py "devkit/b:amd64-0")]
              [py "images"] initial_state) as [[b| | |] st'] eqn:E;
    try (vm_compute in E; discriminate).
  exists b, st'. split; [reflexivity|].
  exact (proj2 (proj2 (build_args_name_every_dependency _ _ _ _ _ _ _ _ E))).
Defined.

(** X8.  The tag of an image does not depend on the order in which its
    dependencies are declared: with the same dependencies in another
    order, [process_image] finds the same Dockerfile, computes the same
    tag and records it in the same way (the build arguments are sorted
    before they are hashed). *)
Theorem tag_ignores_dependency_order :
  forall (W : World) (image_name : pystr)
         (dependencies dependencies' generated_tags : dict pystr)
         (search_paths : list pystr) (st st' : State) (b : Build),
    Permutation dependencies dependencies' ->
    address_image W image_name dependencies generated_tags search_paths st
      = (Ret b, st') ->
    exists b' st'',
      address_image W image_name dependencies' generated_tags search_paths st
        = (Ret b', st'')
      /\ current_tag b' = current_tag b
      /\ dockerfile b' = dockerfile b
      /\ tags b' = tags b.
Proof.
  intros W image_name dependencies dependencies' generated_tags search_paths
         st st' b Hperm H.
  destruct (address_image_inv _ _ _ _ _ _ _ _ H)
    as (found & sha & Hfind & Htruthy & Htags & Hsha).
  rewrite (address_image_run W image_name dependencies generated_tags
             search_paths st found sha Hfind Htruthy Htags Hsha) in H.
  injection H as <- _.
  assert (Htags' : forall item, In item dependencies' ->
                                dict_mem (snd item) generated_tags = true).
  { intros item Hin. apply Htags.
    now apply (Permutation_in _ (Permutation_sym Hperm)). }
  assert (Hsha' : calculate_sha256 W (path_realpath W found)
                    (list_sort (sha_args generated_tags dependencies'))
                  = Ret sha).
  { rewrite <- Hsha. f_equal. apply list_sort_permutation.
    unfold sha_args. now apply Permutation_map, Permutation_sym. }
  eexists _, _. split.
  - apply (address_image_run W image_name dependencies' generated_tags
             search_paths st found sha Hfind Htruthy Htags' Hsha').
  - auto.
Qed.

Lemma tag_ignores_dependency_order_witness :
  let W := demo_world (scripted_runtime 0 0 0 0 0) in
  let generated_tags :=
    [(py "b", py "devkit/b:amd64-0"); (py "c", py "devkit/c:amd64-1")] in
  exists b st' b' st'',
    address_image W (py "a") [(py "FROM", py "b"); (py "BASE", py "c")]
                  generated_tags [py "images"] initial_state = (Ret b, st')
    /\ address_image W (py "a") [(py "BASE", py "c"); (py "FROM", py "b")]
                     generated_tags [py "images"] initial_state = (Ret b', st'')
    /\ current_tag b' = current_tag b.
Proof.
  intros W generated_tags.
  destruct (address_image W (py "a") [(py "FROM", py "b"); (py "BASE", py "c")]
              generated_tags [py "images"] initial_state)
    as [[b| | |] st'] eqn:E; try (vm_compute in E; discriminate).
  destruct (tag_ignores_dependency_order W (py "a")
              [(py "FROM", py "b"); (py "BASE", py "c")]
              [(py "BASE", py "c"); (py "FROM", py "b")]
              generated_tags [py "images"] initial_state st' b
              (perm_swap _ _ _) E) as (b' & st'' & E' & Htag & _).
  exists b, st', b', st''. auto.
Defined.

(** X9.  When a dependency has no tag yet, [process_image] stops at the
    first such dependency in the order of the dependency dictionary:
    the dependencies before it are reported, the error names the
    dependency, the image and the build argument, and the exit code is 1.
    No digest is computed and no command is run. *)
Theorem untagged_dependency_is_fatal :
  forall (W : World) (image_name : pystr)
         (resolved_items later_items generated_tags : dict pystr)
         (arg_name dep_image_name : pystr)
         (print_tag_mode : bool) (target : option pystr)
         (search_paths : list pystr) (st : State) (found : pystr),
    find_dockerfile W search_paths (image_name ++ py ".Dockerfile") = Some found ->
    truthy found = true ->
    (forall item, In item resolved_items ->
                  dict_mem (snd item) generated_tags = true) ->
    dict_mem dep_image_name generated_tags = false ->
    process_image W image_name
                  (resolved_items ++ (arg_name, dep_image_name) :: later_items)
                  generated_tags print_tag_mode target search_paths st
    = (Exit 1,
       mkState (REPO st)
               (events st
                ++ [Print (Processing image_name)]
                ++ build_arg_events image_name generated_tags resolved_items
                ++ [Print (DependencyTagNotFound dep_image_name image_name
                                                 arg_name);
                    Print EnsureBuildOrder])).
Proof.
  intros W image_name resolved_items later_items generated_tags arg_name
         dep_image_name print_tag_mode target search_paths st found
         Hfind Htruthy Htags Hmissing.
  unfold process_image, address_image.
  unfold bind at 1 2, print. rewrite Hfind, Htruthy. cbn [negb].
  unfold bind at 1.
  assert (Hloop : forall items a1 a2 st0,
             (forall item, In item items ->
                           dict_mem (snd item) generated_tags = true) ->
             bind_build_args image_name
               (items ++ (arg_name, dep_image_name) :: later_items)
               generated_tags a1 a2 st0
             = (Exit 1,
                mkState (REPO st0)
                  (events st0
                   ++ build_arg_events image_name generated_tags items
                   ++ [Print (DependencyTagNotFound dep_image_name image_name
                                                    arg_name);
                       Print EnsureBuildOrder]))).
  { induction items as [|[a d] items IH]; intros a1 a2 st0 Hitems; simpl.
    - unfold dict_mem in Hmissing.
      destruct (dict_get dep_image_name generated_tags); [discriminate|].
      unfold bind, print, sys_exit. simpl. now rewrite <- app_assoc.
    - pose proof (Hitems (a, d) (or_introl eq_refl)) as Hmem.
      unfold dict_mem in Hmem. simpl in Hmem. unfold tag_of.
      destruct (dict_get d generated_tags) as [dep_tag|]; [|discriminate].
      unfold bind at 1, print.
      rewrite IH by (intros item Hin; apply Hitems; now right).
      simpl. now rewrite <- !app_assoc. }
  rewrite (Hloop resolved_items [] [] _ Htags). simpl.
  now rewrite <- !app_assoc.
Qed.

Lemma untagged_dependency_is_fatal_witness :
  process_image (demo_world (scripted_runtime 0 0 0 0 0)) (py "a")
                [(py "BASE", py "c"); (py "FROM", py "b")]
                [(py "c", py "devkit/c:amd64-1")]
                false None [py "images"] initial_state
  = (Exit 1,
     mkState [] [Print (Processing (py "a"));
                 Print (BuildArg (py "a") (py "BASE") (py "c")
                                 (py "devkit/c:amd64-1"));
                 Print (DependencyTagNotFound (py "b") (py "a") (py "FROM"));
                 Print EnsureBuildOrder]).
Proof.
  apply (untagged_dependency_is_fatal
           (demo_world (scripted_runtime 0 0 0 0 0)) (py "a")
           [(py "BASE", py "c")] [] [(py "c", py "devkit/c:amd64-1")]
           (py "FROM") (py "b") false None [py "images"] initial_state
           (py "images/a.Dockerfile")).
  - reflexivity.
  - reflexivity.
  - intros item [<-|[]]. reflexivity.
  - reflexivity.
Defined.

(** X10.  When [process_image] returns, the tag it returns is the one
    recorded for the image in [generated_tags]; the tags of the other
    images are the ones that were there before, and the registry prefix
    is unchanged. *)
Theorem process_image_records_tag :
  forall (W : World) (image_name : pystr) (dependencies generated_tags : dict pystr)
         (print_tag_mode : bool) (target : option pystr)
         (search_paths : list pystr) (st st' : State)
         (tag : pystr) (generated_tags' : dict pystr),
    process_image W image_name dependencies generated_tags print_tag_mode
                  target search_paths st
      = (Ret (tag, generated_tags'), st') ->
    dict_get image_name generated_tags' = Some tag
    /\ (forall other, other <> image_name ->
                      dict_get other generated_tags'
                      = dict_get other generated_tags)
    /\ REPO st' = REPO st.
Proof.
  intros W image_name dependencies generated_tags print_tag_mode target
         search_paths st st' tag generated_tags' H.
  unfold process_image in H.
  apply bind_ret_inv in H. destruct H as (b & st1 & Hb & H).
  apply bind_ret_inv in H. destruct H as ([] & st2 & Hmanage & H).
  apply bind_ret_inv in H. destruct H as ([] & st3 & Hreport & H).
  unfold ret in H. injection H as <- <- <-.
  rewrite (address_image_tags _ _ _ _ _ _ _ _ Hb).
  split; [apply dict_get_set_same|].
  split; [intros other Hother; now apply dict_get_set_other|].
  destruct (address_image_inv _ _ _ _ _ _ _ _ Hb)
    as (found & sha & Hfind & Htruthy & Htags & Hsha).
  rewrite (address_image_run W image_name dependencies generated_tags
             search_paths st found sha Hfind Htruthy Htags Hsha) in Hb.
  injection Hb as _ Hst1.
  pose proof (manage_docker_image_repo W (current_tag b) (dockerfile b)
                (build_args b) (context b) st1) as Hrepo.
  rewrite Hmanage in Hrepo. cbn [snd] in Hrepo.
  rewrite report_image_run in Hreport.
  destruct (is_print_target print_tag_mode target image_name);
    [discriminate|].
  injection Hreport as <-. rewrite <- Hst1 in Hrepo. cbn [REPO] in Hrepo.
  now destruct print_tag_mode.
Qed.

Lemma process_image_records_tag_witness :
  exists tag generated_tags' st',
    process_image (demo_world (scripted_runtime 0 0 0 0 0)) (py "c") []
                  [(py "d", py "devkit/d:amd64-0")] false None [py "images"]
                  initial_state
    = (Ret (tag, generated_tags'), st')
    /\ dict_get (py "c") generated_tags' = Some tag
    /\ dict_get (py "d") generated_tags' = Some (py "devkit/d:amd64-0").
Proof.
  destruct (process_image (demo_world (scripted_runtime 0 0 0 0 0)) (py "c") []
              [(py "d", py "devkit/d:amd64-0")] false None [py "images"]
              initial_state) as [[[tag generated_tags']| | |] st'] eqn:E;
    try (vm_compute in E; discriminate).
  destruct (process_image_records_tag _ _ _ _ _ _ _ _ _ _ _ E)
    as (Hsame & Hother & _).
  exists tag, generated_tags', st'. split; [reflexivity|].
  split; [exact Hsame|]. rewrite Hother; [reflexivity | discriminate].
Defined.

(** X11.  When the Dockerfile was found but the path it resolves to
    cannot be opened because nothing is there, the [FileNotFoundError] of
    [calculate_sha256] is caught: [process_image] prints the error and
    exits with code 1 before any command is run. *)
Theorem vanished_dockerfile_is_fatal :
  forall (W : World) (image_name : pystr) (dependencies generated_tags : dict pystr)
         (print_tag_mode : bool) (target : option pystr)
         (search_paths : list pystr) (st : State) (found : pystr),
    find_dockerfile W search_paths (image_name ++ py ".Dockerfile") = Some found ->
    truthy found = true ->
    (forall item, In item dependencies ->
                  dict_mem (snd item) generated_tags = true) ->
    fs W (path_realpath W found) = NoEntry ->
    process_image W image_name dependencies generated_tags print_tag_mode
                  target search_paths st
    = (Exit 1,
       mkState (REPO st)
               (events st
                ++ [Print (Processing image_name)]
                ++ build_arg_events image_name generated_tags dependencies
                ++ [Print (DockerfileDisappeared (path_realpath W found)
                                                 image_name)])).
Proof.
  intros W image_name dependencies generated_tags print_tag_mode target
         search_paths st found Hfind Htruthy Htags Hgone.
  unfold process_image, address_image.
  unfold bind at 1 2, print. rewrite Hfind, Htruthy. cbn [negb].
  unfold bind at 1. rewrite bind_build_args_run by assumption.
  cbn [fst snd app].
  unfold bind at 1, try_except, lift, calculate_sha256, read_file.
  rewrite Hgone. simpl. unfold bind, print, sys_exit. simpl.
  now rewrite <- !app_assoc.
Qed.

Lemma vanished_dockerfile_is_fatal_witness :
  process_image dangling_world (py "c") [] [] false None [py "images"]
                initial_state
  = (Exit 1,
     mkState [] [Print (Processing (py "c"));
                 Print (DockerfileDisappeared (py "gone/images/c.Dockerfile")
                                              (py "c"))]).
Proof.
  apply (vanished_dockerfile_is_fatal dangling_world (py "c") [] [] false None
           [py "images"] initial_state (py "images/c.Dockerfile")).
  - reflexivity.
  - reflexivity.
  - intros item [].
  - reflexivity.
Defined.

(** ** Loading the image configs *)

Lemma dict_get_update_other : forall {V : Type} (d2 d : dict V) k,
  dict_get k d2 = None -> dict_get k (dict_update d d2) = dict_get k d.
Proof.
  intros V. unfold dict_update.
  induction d2 as [|[k' v'] d2 IH]; intros d k H; simpl in *; [reflexivity|].
  destruct (str_eqb k k') eqn:E; [discriminate|].
  rewrite (IH _ _ H). apply dict_get_set_other. now apply str_eqb_neq.
Qed.

Lemma dict_get_update_same : forall {V : Type} (d2 d : dict V) k v,
  dict_wf d2 -> dict_get k d2 = Some v ->
  dict_get k (dict_update d d2) = Some v.
Proof.
  intros V. unfold dict_update.
  induction d2 as [|[k' v'] d2 IH]; intros d k v Hwf H; simpl in *;
    [discriminate|].
  inversion Hwf as [|? ? Hnotin Hwf']; subst.
  destruct (str_eqb k k') eqn:E.
  - apply str_eqb_eq in E. subst k'. injection H as ->.
    fold (dict_update (dict_set k v d) d2).
    rewrite dict_get_update_other; [apply dict_get_set_same|].
    now apply dict_get_None.
  - now apply IH.
Qed.

Lemma dict_get_update_In : forall {V : Type} (d2 d : dict V) k v,
  dict_get k (dict_update d d2) = Some v ->
  In (k, v) d2 \/ dict_get k d = Some v.
Proof.
  intros V. unfold dict_update.
  induction d2 as [|[k' v'] d2 IH]; intros d k v H; simpl in *; [now right|].
  apply IH in H. destruct H as [H|H]; [left; now right|].
  rewrite dict_get_set in H. destruct (str_eqb k k') eqn:E; [|now right].
  apply str_eqb_eq in E. subst k'. injection H as ->. left. now left.
Qed.

Lemma load_image_configs_from_app :
  forall W paths1 paths2 all_configs st,
    load_image_configs_from W (paths1 ++ paths2) all_configs st
    = bind (load_image_configs_from W paths1 all_configs)
           (fun configs => load_image_configs_from W paths2 configs) st.
Proof.
  intros W. induction paths1 as [|path paths1 IH];
    intros paths2 all_configs st; simpl; [reflexivity|].
  destruct (path_exists W _); [|apply IH].
  unfold bind, print, lift.
  destruct (read_file W _) as [content| |e|]; try reflexivity.
  destruct (json_deps W content) as [[configs|]| |]; try reflexivity;
    rewrite IH; reflexivity.
Qed.

(** The outcome of loading does not depend on what happened before. *)
Lemma load_image_configs_from_outcome :
  forall W paths all_configs st1 st2,
    fst (load_image_configs_from W paths all_configs st1)
    = fst (load_image_configs_from W paths all_configs st2).
Proof.
  intros W. induction paths as [|path paths IH]; intros all_configs st1 st2;
    simpl; [reflexivity|].
  destruct (path_exists W _); [|apply IH].
  unfold bind, print, lift.
  destruct (read_file W _) as [content| |e|]; try reflexivity.
  destruct (json_deps W content) as [[configs|]| |]; try reflexivity;
    apply IH.
Qed.

Lemma path_exists_regular : forall W p content,
  fs W p = RegularFile content ->
  path_exists W p = true /\ read_file W p = Ret content.
Proof.
  intros W p content H. unfold path_exists, read_file. now rewrite H.
Qed.

(** One search path whose [deps.json] holds a dictionary. *)
Lemma load_image_configs_from_declared :
  forall W path paths all_configs configs st,
    declares W path configs ->
    load_image_configs_from W (path :: paths) all_configs st
    = load_image_configs_from W paths (dict_update all_configs configs)
        (mkState (REPO st)
           (events st
            ++ [Print (LoadingImageConfigs (path_join W path (py "deps.json")))])).
Proof.
  intros W path paths all_configs configs st (content & Hfs & Hjson). simpl.
  destruct (path_exists_regular _ _ _ Hfs) as [-> Hread].
  unfold bind, print, lift. rewrite Hread, Hjson. reflexivity.
Qed.

Lemma load_image_configs_from_keeps :
  forall W name paths all_configs st m st',
    (forall path configs, In path paths -> declares W path configs ->
                          dict_get name configs = None) ->
    load_image_configs_from W paths all_configs st = (Ret m, st') ->
    dict_get name m = dict_get name all_configs.
Proof.
  intros W name. induction paths as [|path paths IH];
    intros all_configs st m st' Hnone H; simpl in H.
  - unfold ret in H. now injection H as <- _.
  - assert (Hnone' : forall q configs, In q paths -> declares W q configs ->
                                       dict_get name configs = None)
      by (intros q configs Hq; apply Hnone; now right).
    unfold path_exists, read_file in H.
    destruct (fs W (path_join W path (py "deps.json"))) as [|content|] eqn:Hfs;
      [now apply (IH _ _ _ _ Hnone' H) | |].
    + unfold bind, print, lift in H. simpl in H.
      destruct (json_deps W content) as [[configs|]| |] eqn:Hjson;
        simpl in H; try discriminate.
      * rewrite (IH _ _ _ _ Hnone' H). apply dict_get_update_other.
        apply (Hnone path configs); [now left|]. now exists content.
      * now apply (IH _ _ _ _ Hnone' H).
    + unfold bind, print, lift in H. simpl in H. discriminate.
Qed.

(** X12.  When several search paths declare the same image, the
    declaration of the last of them is the one [load_image_configs]
    returns. *)
Theorem last_declaration_wins :
  forall (W : World) (earlier later : list pystr) (path : pystr)
         (configs : ImageConfigsMap) (name : pystr) (conf : ImageConfig)
         (st st' : State) (m : ImageConfigsMap),
    load_image_configs W (earlier ++ path :: later) st = (Ret m, st') ->
    declares W path configs ->
    dict_wf configs ->
    dict_get name configs = Some conf ->
    (forall q configs', In q later -> declares W q configs' ->
                        dict_get name configs' = None) ->
    dict_get name m = Some conf.
Proof.
  intros W earlier later path configs name conf st st' m H Hpath Hwf Hget Hlater.
  unfold load_image_configs in H. rewrite load_image_configs_from_app in H.
  apply bind_ret_inv in H. destruct H as (m0 & st0 & _ & H).
  rewrite (load_image_configs_from_declared _ _ _ _ _ _ Hpath) in H.
  rewrite (load_image_configs_from_keeps _ name _ _ _ _ _ Hlater H).
  now apply dict_get_update_same.
Qed.

Lemma load_image_configs_from_origin :
  forall W name conf paths all_configs st m st',
    load_image_configs_from W paths all_configs st = (Ret m, st') ->
    dict_get name m = Some conf ->
    dict_get name all_configs = Some conf
    \/ exists path configs,
         In path paths /\ declares W path configs /\ In (name, conf) configs.
Proof.
  intros W name conf. induction paths as [|path paths IH];
    intros all_configs st m st' H Hget; simpl in H.
  - unfold ret in H. injection H as <- _. now left.
  - assert (Hrest : forall acc st0,
               load_image_configs_from W paths acc st0 = (Ret m, st') ->
               dict_get name acc = Some conf
               \/ exists q configs,
                    In q (path :: paths) /\ declares W q configs
                    /\ In (name, conf) configs).
    { intros acc st0 H0. destruct (IH _ _ _ _ H0 Hget) as [Hacc|Hex];
        [now left|].
      destruct Hex as (q & configs & Hq & Hd & Hin).
      right. exists q, configs. repeat split; auto. now right. }
    unfold path_exists, read_file in H.
    destruct (fs W (path_join W path (py "deps.json"))) as [|content|] eqn:Hfs;
      [now apply (Hrest _ _ H) | |].
    + unfold bind, print, lift in H. simpl in H.
      destruct (json_deps W content) as [[configs|]| |] eqn:Hjson;
        simpl in H; try discriminate.
      * destruct (Hrest _ _ H) as [Hacc|Hex]; [|now right].
        apply dict_get_update_In in Hacc. destruct Hacc as [Hin|Hacc];
          [|now left].
        right. exists path, configs. repeat split; auto; [now left|].
        now exists content.
      * now apply (Hrest _ _ H).
    + unfold bind, print, lift in H. simpl in H. discriminate.
Qed.

(** X13.  Every image config [load_image_configs] returns was read from
    the [deps.json] of one of the search paths: a file that exists and
    decodes to a dictionary holding that entry. *)
Theorem image_configs_come_from_search_paths :
  forall (W : World) (search_paths : list pystr) (st st' : State)
         (m : ImageConfigsMap) (name : pystr) (conf : ImageConfig),
    load_image_configs W search_paths st = (Ret m, st') ->
    dict_get name m = Some conf ->
    exists path configs,
      In path search_paths /\ declares W path configs /\ In (name, conf) configs.
Proof.
  intros W search_paths st st' m name conf H Hget.
  destruct (load_image_configs_from_origin _ _ _ _ _ _ _ _ H Hget)
    as [Hnil|Hex]; [discriminate | exact Hex].
Qed.

Lemma load_image_configs_from_nothing :
  forall W path paths all_configs st,
    declares_nothing W path ->
    exists st1,
      load_image_configs_from W (path :: paths) all_configs st
      = load_image_configs_from W paths all_configs st1.
Proof.
  intros W path paths all_configs st [Hfs|(content & Hfs & Hjson)]; simpl.
  - unfold path_exists. rewrite Hfs. now exists st.
  - destruct (path_exists_regular _ _ _ Hfs) as [-> Hread].
    unfold bind, print, lift. rewrite Hread, Hjson. simpl.
    eexists. reflexivity.
Qed.

(** X14.  A search path that has no [deps.json], or whose [deps.json]
    decodes to something that is not a dictionary, contributes nothing:
    [load_image_configs] gives the same result as without that search
    path. *)
Theorem unusable_search_path_is_skipped :
  forall (W : World) (earlier later : list pystr) (path : pystr) (st : State),
    declares_nothing W path ->
    fst (load_image_configs W (earlier ++ path :: later) st)
    = fst (load_image_configs W (earlier ++ later) st).
Proof.
  intros W earlier later path st Hpath. unfold load_image_configs.
  rewrite !load_image_configs_from_app. unfold bind.
  destruct (load_image_configs_from W earlier [] st) as [[m0| | |] st0];
    try reflexivity.
  destruct (load_image_configs_from_nothing W path later m0 st0 Hpath)
    as [st1 ->].
  apply load_image_configs_from_outcome.
Qed.

(** X15.  A [deps.json] that does not decode ends the run with exit code
    1 as soon as it is reached, whatever the search paths before it
    declared and whatever comes after it. *)
Theorem deps_decode_failure_is_fatal :
  forall (W : World) (earlier later : list pystr) (path : pystr)
         (content : list byte) (st st1 : State) (m : ImageConfigsMap),
    load_image_configs W earlier st = (Ret m, st1) ->
    let deps_file := path_join W path (py "deps.json") in
    fs W deps_file = RegularFile content ->
    json_deps W content = JSONDecodeError ->
    load_image_configs W (earlier ++ path :: later) st
    = (Exit 1,
       mkState (REPO st1)
               (events st1 ++ [Print (LoadingImageConfigs deps_file);
                               Print (DepsDecodeError deps_file)])).
Proof.
  intros W earlier later path content st st1 m Hearlier deps_file Hfs Hjson.
  unfold load_image_configs in *. rewrite load_image_configs_from_app.
  unfold bind at 1. rewrite Hearlier. simpl. fold deps_file.
  destruct (path_exists_regular _ _ _ Hfs) as [-> Hread].
  unfold bind, print, lift, sys_exit. rewrite Hread, Hjson. simpl.
  now rewrite <- app_assoc.
Qed.

Lemma layered_site_declares : declares layered_world (py "site") site_configs.
Proof. exists (bytes_of "{a}"). split; reflexivity. Qed.

Lemma layered_notes_declares_nothing :
  declares_nothing layered_world (py "notes").
Proof. right. exists (bytes_of "[]"). split; reflexivity. Qed.

Lemma last_declaration_wins_witness :
  exists m st',
    load_image_configs layered_world [py "images"; py "site"; py "notes"]
                       initial_state = (Ret m, st')
    /\ dict_get (py "a") m = Some (image_of [("FROM", "d")]%string).
Proof.
  destruct (load_image_configs layered_world
              [py "images"; py "site"; py "notes"] initial_state)
    as [[m| | |] st'] eqn:E; try (vm_compute in E; discriminate).
  exists m, st'. split; [reflexivity|].
  apply (last_declaration_wins layered_world [py "images"] [py "notes"]
           (py "site") site_configs (py "a")
           (image_of [("FROM", "d")]%string) initial_state st' m E
           layered_site_declares).
  - repeat constructor. intros [].
  - reflexivity.
  - intros q configs' [<-|[]] (content & Hfs & Hjson).
    vm_compute in Hfs. injection Hfs as <-. vm_compute in Hjson.
    discriminate.
Defined.

Lemma image_configs_come_from_search_paths_witness :
  exists path configs,
    In path [py "images"; py "site"; py "notes"]
    /\ declares layered_world path configs
    /\ In (py "c", image_of []) configs.
Proof.
  set (r := load_image_configs layered_world
              [py "images"; py "site"; py "notes"] initial_state).
  assert (E : r = (Ret (match fst r with Ret m => m | _ => [] end), snd r))
    by (vm_compute; reflexivity).
  apply (image_configs_come_from_search_paths layered_world
           [py "images"; py "site"; py "notes"] initial_state (snd r)
           (match fst r with Ret m => m | _ => [] end) (py "c") (image_of [])
           E).
  vm_compute. reflexivity.
Defined.

Lemma unusable_search_path_is_skipped_witness :
  fst (load_image_configs layered_world [py "images"; py "notes"; py "site"]
                          initial_state)
  = fst (load_image_configs layered_world [py "images"; py "site"]
                            initial_state).
Proof.
  exact (unusable_search_path_is_skipped layered_world [py "images"]
           [py "site"] (py "notes") initial_state
           layered_notes_declares_nothing).
Defined.

Lemma deps_decode_failure_is_fatal_witness :
  load_image_configs layered_world [py "images"; py "broken"; py "site"]
                     initial_state
  = (Exit 1,
     mkState [] [Print (LoadingImageConfigs (py "images/deps.json"));
                 Print (LoadingImageConfigs (py "broken/deps.json"));
                 Print (DepsDecodeError (py "broken/deps.json"))]).
Proof.
  exact (deps_decode_failure_is_fatal layered_world [py "images"] [py "site"]
           (py "broken") (bytes_of "{") initial_state
           (mkState [] [Print (LoadingImageConfigs (py "images/deps.json"))])
           chain_configs eq_refl eq_refl eq_refl).
Defined.

(** ** The shape of a digest *)

Lemma rounds_length : forall ks win r,
  length r = 8 -> length (hashlib.rounds ks win r) = 8.
Proof.
  induction ks as [|k ks IH]; intros win r Hr; simpl; [assumption|].
  now apply IH.
Qed.

Lemma add_words_length : forall xs ys,
  length xs = length ys -> length (hashlib.add_words xs ys) = length xs.
Proof.
  induction xs as [|x xs IH]; intros [|y ys] H; simpl in *; try discriminate;
    [reflexivity|].
  f_equal. apply IH. now injection H.
Qed.

Lemma compress_length : forall h block,
  length h = 8 -> length (hashlib.compress h block) = 8.
Proof.
  intros h block Hh. unfold hashlib.compress.
  rewrite add_words_length; [assumption|].
  now rewrite rounds_length.
Qed.

Lemma update_chain_length : forall data s,
  length (hashlib.chain s) = 8 ->
  length (hashlib.chain (hashlib.update s data)) = 8.
Proof.
  unfold hashlib.update.
  induction data as [|b data IH]; intros s Hs; simpl; [assumption|].
  apply IH. unfold hashlib.absorb.
  destruct (length (hashlib.pending s ++ [Byte.to_N b]) =? 64)%nat; simpl;
    [now apply compress_length | assumption].
Qed.

Lemma update_with_args_chain_length : forall args hasher hasher',
  update_with_args hasher args = Ret hasher' ->
  length (hashlib.chain hasher) = 8 ->
  length (hashlib.chain hasher') = 8.
Proof.
  induction args as [|arg args IH]; intros hasher hasher' H Hlen; simpl in H.
  - now injection H as <-.
  - destruct (encode_utf8 arg) as [bytes|]; [|discriminate].
    apply (IH _ _ H). now apply update_chain_length.
Qed.

Lemma digest_words_length : forall s,
  length (hashlib.chain s) = 8 -> length (hashlib.digest_words s) = 8.
Proof.
  intros s Hs. unfold hashlib.digest_words.
  destruct (length (hashlib.padding s) =? 64)%nat;
    repeat apply compress_length; assumption.
Qed.

Lemma be_bytes_length : forall n x, length (hashlib.be_bytes n x) = n.
Proof.
  induction n as [|n IH]; intros x; simpl; [reflexivity|].
  rewrite length_app, IH. simpl. lia.
Qed.

Lemma be_bytes_small : forall n x,
  Forall (fun b => (b < 256)%N) (hashlib.be_bytes n x).
Proof.
  induction n as [|n IH]; intros x; simpl; [constructor|].
  apply Forall_app. split; [apply IH|]. constructor; [|constructor].
  change 255%N with (N.ones 8). rewrite N.land_ones.
  now apply N.mod_lt.
Qed.

Lemma hex_digit_is_hex : forall n, (n < 16)%N -> is_hex (hashlib.hex_digit n) = true.
Proof.
  intros n Hn. unfold hashlib.hex_digit, is_hex.
  destruct (N.ltb_spec n 10) as [H|H].
  - apply orb_true_iff. left. apply andb_true_iff.
    split; apply N.leb_le; lia.
  - apply orb_true_iff. right. apply andb_true_iff.
    split; apply N.leb_le; lia.
Qed.

Lemma hex_of_byte_is_hex : forall b,
  (b < 256)%N -> Forall (fun c => is_hex c = true) (hashlib.hex_of_byte b).
Proof.
  intros b Hb. unfold hashlib.hex_of_byte.
  constructor; [|constructor; [|constructor]]; apply hex_digit_is_hex.
  - rewrite N.shiftr_div_pow2. apply N.Div0.div_lt_upper_bound.
    change (2 ^ 4 * 16)%N with 256%N. exact Hb.
  - change 15%N with (N.ones 4). rewrite N.land_ones. now apply N.mod_lt.
Qed.

Lemma flat_map_length_each : forall (A B : Type) (f : A -> list B) k l,
  (forall x, length (f x) = k) -> length (flat_map f l) = k * length l.
Proof.
  intros A B f k l Hf. induction l as [|x l IH]; cbn [flat_map length].
  - now rewrite Nat.mul_0_r.
  - rewrite length_app, Hf, IH. lia.
Qed.

Lemma Forall_flat_map_each : forall (A B : Type) (f : A -> list B)
                                    (P : A -> Prop) (Q : B -> Prop) l,
  (forall x, P x -> Forall Q (f x)) -> Forall P l -> Forall Q (flat_map f l).
Proof.
  intros A B f P Q l Hf Hl. induction Hl as [|x l Hx Hl IH]; cbn [flat_map].
  - constructor.
  - apply Forall_app. split; [now apply Hf | exact IH].
Qed.

Lemma hexdigest_shape : forall s,
  length (hashlib.chain s) = 8 ->
  length (hashlib.hexdigest s) = 64
  /\ Forall (fun c => is_hex c = true) (hashlib.hexdigest s).
Proof.
  intros s Hs. unfold hashlib.hexdigest.
  pose proof (digest_words_length s Hs) as Hw.
  split.
  - rewrite (flat_map_length_each _ _ hashlib.hex_of_byte 2)
      by (intros b; reflexivity).
    rewrite (flat_map_length_each _ _ (hashlib.be_bytes 4) 4)
      by (intros w; apply be_bytes_length).
    rewrite Hw. reflexivity.
  - apply (Forall_flat_map_each _ _ _ (fun b => (b < 256)%N));
      [exact hex_of_byte_is_hex|].
    apply (Forall_flat_map_each _ _ _ (fun _ => True));
      [intros w _; apply be_bytes_small|].
    apply Forall_forall. intros w _. exact I.
Qed.

(** The digest comes from a hash object whose chaining value has its
    eight words. *)
Lemma calculate_sha256_hasher : forall W dockerfile_path sorted_build_args sha,
  calculate_sha256 W dockerfile_path sorted_build_args = Ret sha ->
  exists hasher,
    length (hashlib.chain hasher) = 8 /\ sha = hashlib.hexdigest hasher.
Proof.
  intros W dockerfile_path sorted_build_args sha H.
  unfold calculate_sha256 in H.
  destruct (read_file W dockerfile_path) as [content| | |]; simpl in H;
    try discriminate.
  destruct (update_with_args _ sorted_build_args) as [hasher| | |] eqn:E;
    simpl in H; try discriminate.
  injection H as <-. exists hasher. split; [|reflexivity].
  apply (update_with_args_chain_length _ _ _ E).
  apply update_chain_length. reflexivity.
Qed.

(** X16.  Whatever the Dockerfile and the build arguments are, the digest
    [calculate_sha256] returns is a string of sixty-four characters, each
    of them one of [0-9a-f]. *)
Theorem digest_is_64_hex_digits :
  forall (W : World) (dockerfile_path : pystr) (sorted_build_args : list pystr)
         (sha : pystr),
    calculate_sha256 W dockerfile_path sorted_build_args = Ret sha ->
    length sha = 64 /\ Forall (fun c => is_hex c = true) sha.
Proof.
  intros W dockerfile_path sorted_build_args sha H.
  destruct (calculate_sha256_hasher _ _ _ _ H) as (hasher & Hchain & ->).
  now apply hexdigest_shape.
Qed.

Lemma digest_is_64_hex_digits_witness :
  exists sha,
    calculate_sha256 (demo_world (scripted_runtime 0 0 0 0 0))
                     (py "Dockerfile") [py "arg1=val1"] = Ret sha
    /\ length sha = 64.
Proof.
  destruct (calculate_sha256 (demo_world (scripted_runtime 0 0 0 0 0))
              (py "Dockerfile") [py "arg1=val1"]) as [sha| | |] eqn:E;
    try (vm_compute in E; discriminate).
  exists sha. split; [reflexivity|].
  exact (proj1 (digest_is_64_hex_digits _ _ _ _ E)).
Defined.

Lemma app_same_length : forall (A : Type) (l1 l2 s1 s2 : list A),
  l1 ++ s1 = l2 ++ s2 -> length s1 = length s2 -> l1 = l2 /\ s1 = s2.
Proof.
  intros A. induction l1 as [|x l1 IH]; intros [|y l2] s1 s2 H Hlen;
    simpl in *.
  - now split.
  - exfalso. subst s1. simpl in Hlen. rewrite length_app in Hlen. lia.
  - exfalso. subst s2. simpl in Hlen. rewrite length_app in Hlen. lia.
  - injection H as -> H. destruct (IH _ _ _ H Hlen) as [-> ->]. now split.
Qed.

(** X17.  Under one registry prefix, two tags built from digests of
    [calculate_sha256] are equal only if the image names are equal and the
    digests are equal: the tag determines the name and the content hash. *)
Theorem equal_tags_name_the_same_content :
  forall (W : World) (repo image1 image2 path1 path2 : pystr)
         (args1 args2 : list pystr) (sha1 sha2 : pystr),
    calculate_sha256 W path1 args1 = Ret sha1 ->
    calculate_sha256 W path2 args2 = Ret sha2 ->
    get_image_tag repo image1 sha1 = get_image_tag repo image2 sha2 ->
    image1 = image2 /\ sha1 = sha2.
Proof.
  intros W repo image1 image2 path1 path2 args1 args2 sha1 sha2 H1 H2 Htag.
  destruct (calculate_sha256_hasher _ _ _ _ H1) as (hasher1 & Hchain1 & Hs1).
  destruct (calculate_sha256_hasher _ _ _ _ H2) as (hasher2 & Hchain2 & Hs2).
  assert (Hlen : length sha1 = length sha2).
  { rewrite Hs1, Hs2.
    rewrite (proj1 (hexdigest_shape hasher1 Hchain1)).
    now rewrite (proj1 (hexdigest_shape hasher2 Hchain2)). }
  assert (E : (py "devkit/" ++ image1) ++ py ":" ++ ARCH ++ py "-" ++ sha1
              = (py "devkit/" ++ image2) ++ py ":" ++ ARCH ++ py "-" ++ sha2).
  { unfold get_image_tag in Htag. destruct (truthy repo).
    - apply app_inv_head in Htag. apply (app_inv_head (py "/")) in Htag.
      exact Htag.
    - exact Htag. }
  rewrite <- !app_assoc in E. apply app_inv_head in E.
  set (separator := py ":" ++ ARCH ++ py "-").
  assert (E' : (image1 ++ separator) ++ sha1 = (image2 ++ separator) ++ sha2)
    by (rewrite <- !app_assoc; exact E).
  apply app_same_length in E'; [|exact Hlen].
  destruct E' as [E' Esha]. apply app_inv_tail in E'. now split.
Qed.

Lemma equal_tags_name_the_same_content_witness :
  exists sha,
    calculate_sha256 (demo_world (scripted_runtime 0 0 0 0 0))
                     (py "images/c.Dockerfile") [] = Ret sha
    /\ py "c" = py "c" /\ sha = sha.
Proof.
  destruct (calculate_sha256 (demo_world (scripted_runtime 0 0 0 0 0))
              (py "images/c.Dockerfile") []) as [sha| | |] eqn:E;
    try (vm_compute in E; discriminate).
  exists sha. split; [reflexivity|].
  exact (equal_tags_name_the_same_content
           (demo_world (scripted_runtime 0 0 0 0 0)) (py "registry")
           (py "c") (py "c") _ _ _ _ sha sha E E eq_refl).
Defined.

(** ** The place of the target in its order *)

Lemma before_trans : forall l a b c,
  NoDup l -> before l a b -> before l b c -> before l a c.
Proof.
  intros l a b c Hnd (i & j & Hi & Hj & Hij) (j' & k & Hj' & Hk & Hjk).
  assert (j = j').
  { apply (proj1 (NoDup_nth_error l) Hnd);
      [apply nth_error_Some|]; congruence. }
  subst j'. exists i, k. repeat split; auto. lia.
Qed.

Lemma closure_before_target : forall m target l,
  NoDup l ->
  (forall x, In x l <-> closure m target x) ->
  (forall n d, In n l -> dep m n d -> before l d n) ->
  forall x, closure m target x -> x = target \/ before l x target.
Proof.
  intros m target l Hnd Hmem Htopo x Hx. unfold closure in Hx.
  apply clos_rt_rtn1 in Hx. induction Hx as [|n x Hdep Hn IH]; [now left|].
  right.
  assert (Hin : In n l) by (apply Hmem; now apply clos_rtn1_rt).
  pose proof (Htopo n x Hin Hdep) as Hxn.
  destruct IH as [->|IH]; [assumption|].
  now apply (before_trans l x n target).
Qed.

(** X18.  The order [get_dependency_subgraph] returns for a declared
    target ends with the target itself: every other image of the order is
    a dependency processed before it. *)
Theorem target_is_processed_last :
  forall (order : SetOrder) (m : ImageConfigsMap) (target : pystr)
         (st st' : State) (images : list pystr),
    dict_wf m ->
    dict_mem target m = true ->
    get_dependency_subgraph order target m st = (Ret images, st') ->
    exists dependencies, images = dependencies ++ [target].
Proof.
  intros order m target st st' images Hwf Hmem H.
  destruct (get_dependency_subgraph_spec order m target st Hwf Hmem)
    as [[_ [c Ec]] | [_ (l & El & Hnd & Hin & Htopo)]];
    [rewrite Ec in H; discriminate|].
  rewrite El in H. injection H as <- _.
  assert (Ht : In target l) by (apply Hin; apply rt_refl).
  apply in_split in Ht. destruct Ht as (l1 & l2 & ->).
  exists l1. destruct l2 as [|y l2]; [reflexivity|]. exfalso.
  assert (Hy : In y (l1 ++ target :: y :: l2))
    by (apply in_app_iff; right; right; now left).
  pose proof (NoDup_remove_2 _ _ _ Hnd) as Hnotin.
  pose proof (NoDup_remove_1 _ _ _ Hnd) as Hnd'.
  destruct (closure_before_target m target _ Hnd Hin Htopo y
              (proj1 (Hin y) Hy)) as [->|Hbefore].
  - apply Hnotin. apply in_app_iff. right. now left.
  - apply before_in_prefix in Hbefore; [|assumption].
    apply NoDup_app_remove_r in Hnd' as Hl1.
    assert (Hcount : NoDup (l1 ++ y :: l2)) by assumption.
    apply NoDup_remove_2 in Hcount. apply Hcount.
    apply in_app_iff. now left.
Qed.

Lemma target_is_processed_last_witness :
  exists dependencies st',
    get_dependency_subgraph insertion_order (py "a") chain_configs initial_state
    = (Ret (dependencies ++ [py "a"]), st').
Proof.
  destruct (get_dependency_subgraph insertion_order (py "a") chain_configs
              initial_state) as [[images| | |] st'] eqn:E;
    try (vm_compute in E; discriminate).
  destruct (target_is_processed_last insertion_order chain_configs (py "a")
              initial_state st' images) as [dependencies ->].
  - repeat constructor; simpl; intros H;
      repeat (destruct H as [H|H]; [discriminate|]); exact H.
  - reflexivity.
  - exact E.
  - exists dependencies, st'. reflexivity.
Defined.

(** ** What is never printed *)

Section Never.

Variable bad : Event -> bool.

Hypothesis bad_only :
  forall e, bad e = true ->
            (exists image_name, e = Print (Processing image_name))
            \/ (exists target, e = Print (PrintTagNotProcessed target)).

Lemma bad_run : forall argv, bad (Run argv) = false.
Proof.
  intros argv. destruct (bad (Run argv)) eqn:E; [|reflexivity].
  destruct (bad_only _ E) as [[x H]|[x H]]; discriminate.
Qed.

Lemma bad_print : forall m,
  (forall image_name, m <> Processing image_name) ->
  (forall target, m <> PrintTagNotProcessed target) ->
  bad (Print m) = false.
Proof.
  intros m H1 H2. destruct (bad (Print m)) eqn:E; [|reflexivity].
  destruct (bad_only _ E) as [[x H]|[x H]]; injection H as ->;
    [now elim (H1 x) | now elim (H2 x)].
Qed.

Lemma never_same : forall (A : Type) (c : M A),
  (forall st, events (snd (c st)) = events st) -> never bad c.
Proof.
  intros A c H st. exists []. rewrite H. simpl. rewrite app_nil_r.
  split; [reflexivity | constructor].
Qed.

Lemma never_ret : forall (A : Type) (a : A), never bad (ret a).
Proof. intros A a. now apply never_same. Qed.

Lemma never_lift : forall (A : Type) (o : Outcome A), never bad (lift o).
Proof. intros A o. now apply never_same. Qed.

Lemma never_sys_exit : forall (A : Type) code, never bad (@sys_exit A code).
Proof. intros A code. now apply never_same. Qed.

Lemma never_raise : forall (A : Type) e, never bad (@raise A e).
Proof. intros A e. now apply never_same. Qed.

Lemma never_print : forall m, bad (Print m) = false -> never bad (print m).
Proof.
  intros m Hm st. exists [Print m]. simpl. split; [reflexivity|].
  now repeat constructor.
Qed.

Lemma adds_bind : forall (A B : Type) first (c : M A) (k : A -> M B),
  adds bad first c -> (forall a, never bad (k a)) -> adds bad first (bind c k).
Proof.
  intros A B first c k Hc Hk st. unfold bind.
  destruct (Hc st) as (added & E & Hadded).
  destruct (c st) as [[a| | |] st1]; simpl in *; try (now exists added).
  destruct (Hk a st1) as (added' & E' & Hadded'). simpl in E'.
  exists (added ++ added'). rewrite E', E, <- !app_assoc.
  split; [reflexivity|]. apply Forall_app. now split.
Qed.

Lemma never_bind : forall (A B : Type) (c : M A) (k : A -> M B),
  never bad c -> (forall a, never bad (k a)) -> never bad (bind c k).
Proof. intros A B c k. apply adds_bind. Qed.

Lemma never_try_except : forall (A : Type) (c : M A) (handler : Exn -> M A),
  never bad c -> (forall e, never bad (handler e)) ->
  never bad (try_except c handler).
Proof.
  intros A c handler Hc Hh st. unfold try_except.
  destruct (Hc st) as (added & E & Hadded).
  destruct (c st) as [[a| |e|] st1]; simpl in *; try (now exists added).
  destruct (Hh e st1) as (added' & E' & Hadded'). simpl in E'.
  exists (added ++ added'). rewrite E', E. simpl. rewrite <- !app_assoc.
  split; [reflexivity|]. apply Forall_app. now split.
Qed.

Lemma never_subprocess_run : forall W argv check,
  never bad (subprocess_run W argv check).
Proof.
  intros W argv check st. exists [Run argv]. simpl. unfold subprocess_run.
  split; [|repeat constructor; apply bad_run].
  destruct (runtime W (events st) argv) as [rc out err|e]; simpl;
    [destruct (check && negb (rc =? 0)%Z)|]; reflexivity.
Qed.

Lemma never_when : forall cond body,
  never bad body -> never bad (when cond body).
Proof. intros [|] body H; [exact H | apply never_ret]. Qed.

Ltac never_steps :=
  repeat first
    [ apply never_ret | apply never_lift | apply never_sys_exit
    | apply never_raise | apply never_subprocess_run
    | apply never_print; apply bad_print; intros; discriminate
    | apply never_when
    | apply never_bind; [|intros ?]
    | apply never_try_except; [|intros ?]
    | match goal with
      | |- never _ (if ?b then _ else _) => destruct b
      | |- never _ (match ?x with _ => _ end) => destruct x
      end ].

Lemma never_load_config : forall W config_path,
  never bad (load_config W config_path).
Proof.
  intros W config_path. unfold load_config. never_steps.
  now apply never_same.
Qed.

Lemma never_load_image_configs : forall W search_paths all_configs,
  never bad (load_image_configs_from W search_paths all_configs).
Proof.
  intros W. induction search_paths as [|path search_paths IH];
    intros all_configs; simpl; never_steps; apply IH.
Qed.

Lemma never_manage_docker_image :
  forall W tag dockerfile_path args context_path,
    never bad (manage_docker_image W tag dockerfile_path args context_path).
Proof.
  intros W tag dockerfile_path args context_path.
  unfold manage_docker_image, manage_docker_image_body,
    manage_docker_image_handler, print_output.
  never_steps.
Qed.

Lemma never_report_image : forall image_name print_tag_mode target tag,
  never bad (report_image image_name print_tag_mode target tag).
Proof.
  intros image_name print_tag_mode target tag. unfold report_image.
  never_steps.
Qed.

Lemma never_check_target : forall args names,
  never bad (check_target args names).
Proof. intros args names. unfold check_target. never_steps. Qed.

Lemma never_plan : forall order args m, never bad (plan order args m).
Proof.
  intros order args m. unfold plan, get_dependency_subgraph, full_order.
  never_steps.
Qed.

Lemma never_bind_build_args : forall image_name items generated_tags a1 a2,
  never bad (bind_build_args image_name items generated_tags a1 a2).
Proof.
  intros image_name. induction items as [|[arg_name dep_name] items IH];
    intros generated_tags a1 a2; simpl; never_steps. apply IH.
Qed.

Lemma adds_address_image :
  forall W image_name dependencies generated_tags search_paths,
    adds bad [Print (Processing image_name)]
         (address_image W image_name dependencies generated_tags search_paths).
Proof.
  intros W image_name dependencies generated_tags search_paths.
  unfold address_image. apply adds_bind.
  - intros st. exists []. simpl. split; [reflexivity | constructor].
  - intros _. never_steps; try apply never_bind_build_args.
    now apply never_same.
Qed.

Lemma adds_process_image :
  forall W image_name dependencies generated_tags print_tag_mode target
         search_paths,
    adds bad [Print (Processing image_name)]
         (process_image W image_name dependencies generated_tags
                        print_tag_mode target search_paths).
Proof.
  intros W image_name dependencies generated_tags print_tag_mode target
         search_paths.
  unfold process_image. apply adds_bind; [apply adds_address_image|].
  intros b.
  apply never_bind; [apply never_manage_docker_image | intros _].
  apply never_bind; [apply never_report_image | intros _].
  apply never_ret.
Qed.

End Never.

Lemma is_fallback_only : forall e,
  is_fallback e = true ->
  (exists image_name, e = Print (Processing image_name))
  \/ (exists target, e = Print (PrintTagNotProcessed target)).
Proof.
  intros [[]|argv] H; try discriminate. right. eexists. reflexivity.
Qed.

Lemma is_processing_only : forall e,
  is_processing e = true ->
  (exists image_name, e = Print (Processing image_name))
  \/ (exists target, e = Print (PrintTagNotProcessed target)).
Proof.
  intros [[]|argv] H; try discriminate. left. eexists. reflexivity.
Qed.

(** ** The end of a run that prints a tag *)

Lemma process_image_ret_not_target :
  forall W image_name dependencies generated_tags print_tag_mode target
         search_paths st r st',
    process_image W image_name dependencies generated_tags print_tag_mode
                  target search_paths st = (Ret r, st') ->
    is_print_target print_tag_mode target image_name = false.
Proof.
  intros W image_name dependencies generated_tags print_tag_mode target
         search_paths st r st' H.
  unfold process_image in H.
  apply bind_ret_inv in H. destruct H as (b & st1 & _ & H).
  apply bind_ret_inv in H. destruct H as ([] & st2 & _ & H).
  apply bind_ret_inv in H. destruct H as ([] & st3 & Hreport & _).
  rewrite report_image_run in Hreport.
  destruct (is_print_target print_tag_mode target image_name);
    [discriminate | reflexivity].
Qed.

(** In a run that prints a tag the loop does not get past the target. *)
Lemma process_all_stops_at_target :
  forall W (m : ImageConfigsMap) t search_paths images generated_tags st
         generated_tags' st',
    In t images ->
    process_all W images m generated_tags true (Some t) search_paths st
    <> (Ret generated_tags', st').
Proof.
  intros W m t search_paths.
  induction images as [|image_name images IH];
    intros generated_tags st generated_tags' st' Hin H; simpl in *;
    [contradiction|].
  destruct (dict_get image_name m) as [image_conf|]; [|discriminate].
  apply bind_ret_inv in H. destruct H as (r & st1 & Hr & H).
  apply process_image_ret_not_target in Hr. simpl in Hr.
  destruct Hin as [->|Hin]; [now rewrite str_eqb_refl in Hr|].
  exact (IH _ _ _ _ Hin H).
Qed.

Lemma check_target_print : forall args names st target_for_print st1,
  print_tag args = true ->
  check_target args names st = (Ret target_for_print, st1) ->
  exists t,
    target_for_print = Some t
    /\ given (target_image args) = Some t
    /\ mem t names = true.
Proof.
  intros args names st target_for_print st1 Hpt H.
  unfold check_target in H. rewrite Hpt in H.
  destruct (given (target_image args)) as [t|];
    [|apply bind_ret_inv in H; destruct H as (_ & st2 & _ & H);
      discriminate].
  destruct (mem t names) eqn:Hmem; simpl in H.
  - unfold ret in H. injection H as <- _. now exists t.
  - apply bind_ret_inv in H. destruct H as (_ & st2 & _ & H). discriminate.
Qed.

Lemma plan_holds_target : forall order args (m : ImageConfigsMap) t st images st1,
  dict_wf m ->
  given (target_image args) = Some t ->
  dict_mem t m = true ->
  plan order args m st = (Ret images, st1) ->
  In t images.
Proof.
  intros order args m t st images st1 Hwf Hgiven Hmem H.
  unfold plan in H. rewrite Hgiven in H.
  apply bind_ret_inv in H. destruct H as (l & st2 & Hl & H).
  apply bind_ret_inv in H. destruct H as (_ & st3 & _ & H).
  unfold ret in H. injection H as <- _.
  destruct (get_dependency_subgraph_spec order m t st Hwf Hmem)
    as [[_ [c Ec]] | [_ (l' & El & _ & Hin & _)]];
    [rewrite Ec in Hl; discriminate|].
  rewrite El in Hl. injection Hl as <- _. apply Hin. apply rt_refl.
Qed.

Lemma never_fallback_process_all :
  forall W (m : ImageConfigsMap) print_tag_mode target search_paths images
         generated_tags,
    never is_fallback
          (process_all W images m generated_tags print_tag_mode target
                       search_paths).
Proof.
  intros W m print_tag_mode target search_paths.
  induction images as [|image_name images IH]; intros generated_tags; simpl.
  - apply never_ret.
  - destruct (dict_get image_name m) as [image_conf|]; [|apply never_raise].
    apply never_bind; [|intros r; apply IH].
    intros st.
    destruct (adds_process_image is_fallback is_fallback_only W image_name
                (deps image_conf) generated_tags print_tag_mode target
                search_paths st) as (added & E & Hadded).
    exists (Print (Processing image_name) :: added).
    split; [exact E | now constructor].
Qed.

Lemma never_fallback_build_images : forall W order args (m : ImageConfigsMap),
  dict_wf m -> never is_fallback (build_images W order args m).
Proof.
  intros W order args m Hwf st. unfold build_images, bind.
  destruct (never_check_target is_fallback is_fallback_only args
              (dict_keys m) st) as (added1 & E1 & H1).
  destruct (check_target args (dict_keys m) st)
    as [[target_for_print| | |] st1] eqn:Echeck; simpl in *;
    try (now exists added1).
  destruct (never_plan is_fallback is_fallback_only order args m st1)
    as (added2 & E2 & H2).
  assert (H12 : Forall (fun e => is_fallback e = false) (added1 ++ added2))
    by (apply Forall_app; now split).
  destruct (plan order args m st1) as [[images| | |] st2] eqn:Eplan;
    simpl in *;
    try (exists (added1 ++ added2); rewrite E2, E1, <- app_assoc;
         now split).
  destruct (never_fallback_process_all W m (print_tag args) target_for_print
              (search_path args) images [] st2) as (added3 & E3 & H3).
  assert (H123 : Forall (fun e => is_fallback e = false)
                        (added1 ++ added2 ++ added3))
    by (rewrite app_assoc; apply Forall_app; now split).
  destruct (process_all W images m [] (print_tag args) target_for_print
              (search_path args) st2) as [[generated_tags| | |] st3] eqn:Eall;
    simpl in *;
    try (exists (added1 ++ added2 ++ added3);
         rewrite E3, E2, E1, <- !app_assoc; now split).
  destruct (print_tag args) eqn:Hpt.
  - exfalso.
    destruct (check_target_print _ _ _ _ _ Hpt Echeck)
      as (t & -> & Hgiven & Hmem).
    assert (Hdict : dict_mem t m = true)
      by (apply dict_mem_In; now apply mem_In).
    pose proof (plan_holds_target _ _ _ _ _ _ _ Hwf Hgiven Hdict Eplan) as Hin.
    exact (process_all_stops_at_target _ _ _ _ _ _ _ _ _ Hin Eall).
  - destruct (given (target_image args)) as [t|]; simpl;
      eexists (added1 ++ added2 ++ added3 ++ [_]);
      (split;
       [rewrite E3, E2, E1, <- !app_assoc; reflexivity
       |rewrite !app_assoc; apply Forall_app; split;
        [rewrite <- !app_assoc; assumption | now repeat constructor]]).
Qed.

(** X19.  The fallback at the end of [main] is never reached: whatever
    the arguments, the files and the container runtime are, [main] does
    not print that the target of [--print-tag] was not processed.  (In
    that mode the checks make the target a declared image, the order holds
    it, and the loop leaves at the target or before.) *)
Theorem print_tag_fallback_is_never_reached :
  forall (W : World) (order : SetOrder) (args : Args) (st : State),
    exists added,
      events (snd (main W order args st)) = events st ++ added
      /\ forall target, ~ In (Print (PrintTagNotProcessed target)) added.
Proof.
  intros W order args st.
  assert (H : never is_fallback (main W order args)).
  { unfold main.
    apply never_bind;
      [apply never_load_config; exact is_fallback_only | intros _].
    intros st0. unfold bind.
    destruct (never_load_image_configs is_fallback is_fallback_only W
                (search_path args) [] st0) as (added1 & E1 & H1).
    fold (load_image_configs W (search_path args) st0) in E1 |- *.
    destruct (load_image_configs W (search_path args) st0)
      as [[m| | |] st1] eqn:E; simpl in *; try (now exists added1).
    destruct (never_fallback_build_images W order args m
                (load_image_configs_wf W (search_path args) st0 m st1 E) st1)
      as (added2 & E2 & H2).
    exists (added1 ++ added2). simpl in E2. rewrite E2, E1, <- app_assoc.
    split; [reflexivity | apply Forall_app; now split]. }
  destruct (H st) as (added & E & Hadded). exists added.
  split; [exact E|]. intros target Hin.
  rewrite Forall_forall in Hadded. specialize (Hadded _ Hin). discriminate.
Qed.

(** ** The order in which the images are processed *)

Lemma processing_log_app : forall l1 l2,
  processing_log (l1 ++ l2) = processing_log l1 ++ processing_log l2.
Proof.
  induction l1 as [|[[]|argv] l1 IH]; intros l2; simpl; rewrite ?IH;
    reflexivity.
Qed.

Lemma processing_log_none : forall l,
  Forall (fun e => is_processing e = false) l -> processing_log l = [].
Proof.
  induction l as [|e l IH]; intros H; [reflexivity|].
  inversion H as [|? ? He Hl]; subst.
  destruct e as [[]|argv]; simpl in *; try discriminate; now apply IH.
Qed.

Lemma never_processing_log : forall (A : Type) (c : M A) st,
  never is_processing c ->
  processing_log (events (snd (c st))) = processing_log (events st).
Proof.
  intros A c st H. destruct (H st) as (added & E & Hadded).
  rewrite E, processing_log_app. simpl.
  now rewrite (processing_log_none _ Hadded), app_nil_r.
Qed.

Lemma process_image_processing_log :
  forall W image_name dependencies generated_tags print_tag_mode target
         search_paths st,
    processing_log
      (events (snd (process_image W image_name dependencies generated_tags
                                  print_tag_mode target search_paths st)))
    = processing_log (events st) ++ [image_name].
Proof.
  intros W image_name dependencies generated_tags print_tag_mode target
         search_paths st.
  destruct (adds_process_image is_processing is_processing_only W image_name
              dependencies generated_tags print_tag_mode target search_paths
              st) as (added & E & Hadded).
  rewrite E, processing_log_app. simpl.
  now rewrite (processing_log_none _ Hadded).
Qed.

(** The loop starts the images in the order of the list and stops at the
    first that does not return. *)
Lemma process_all_processing_log :
  forall W (m : ImageConfigsMap) print_tag_mode target search_paths images
         generated_tags st,
    exists started rest,
      images = started ++ rest
      /\ processing_log
           (events (snd (process_all W images m generated_tags print_tag_mode
                                     target search_paths st)))
         = processing_log (events st) ++ started.
Proof.
  intros W m print_tag_mode target search_paths.
  induction images as [|image_name images IH]; intros generated_tags st;
    simpl.
  - exists [], []. split; [reflexivity | now rewrite app_nil_r].
  - destruct (dict_get image_name m) as [image_conf|];
      [|exists [], (image_name :: images);
        split; [reflexivity | now rewrite app_nil_r]].
    unfold bind.
    pose proof (process_image_processing_log W image_name (deps image_conf)
                  generated_tags print_tag_mode target search_paths st) as E.
    destruct (process_image W image_name (deps image_conf) generated_tags
                print_tag_mode target search_paths st)
      as [[r| | |] st1]; simpl in *;
      try (exists [image_name], images; now split).
    destruct (IH (snd r) st1) as (started & rest & -> & E').
    exists (image_name :: started), rest. split; [reflexivity|].
    rewrite E', E, <- app_assoc. reflexivity.
Qed.

Lemma before_prefix : forall l1 l2 d n,
  NoDup (l1 ++ l2) -> In n l1 -> before (l1 ++ l2) d n -> before l1 d n.
Proof.
  intros l1 l2 d n Hnd Hn (i & j & Hi & Hj & Hij).
  apply In_nth_error in Hn. destruct Hn as [j' Hj'].
  assert (Hlen : j' < length l1) by (apply nth_error_Some; congruence).
  assert (j = j').
  { apply (proj1 (NoDup_nth_error (l1 ++ l2)) Hnd);
      [apply nth_error_Some; congruence|].
    rewrite Hj. rewrite nth_error_app1 by assumption. now symmetry. }
  subst j'. exists i, j.
  rewrite nth_error_app1 in Hi by lia. auto.
Qed.

(** X20.  The images whose processing [main] starts once the image
    configs are loaded, in the order of their opening messages: no image
    is started twice, and an image is started only after every image it
    depends on was started before it. *)
Theorem images_are_processed_after_their_dependencies :
  forall (W : World) (order : SetOrder) (args : Args) (m : ImageConfigsMap)
         (st : State),
    dict_wf m ->
    exists started,
      processing_log (events (snd (build_images W order args m st)))
      = processing_log (events st) ++ started
      /\ NoDup started
      /\ forall n d, In n started -> dep m n d -> before started d n.
Proof.
  intros W order args m st Hwf. unfold build_images, bind.
  pose proof (never_processing_log _ (check_target args (dict_keys m)) st
                (never_check_target is_processing is_processing_only _ _))
    as E1.
  destruct (check_target args (dict_keys m) st)
    as [[target_for_print| | |] st1]; simpl in *;
    try (exists []; rewrite app_nil_r;
         split; [exact E1 | split; [constructor | intros n d []]]).
  pose proof (never_processing_log _ (plan order args m) st1
                (never_plan is_processing is_processing_only _ _ _)) as E2.
  destruct (plan order args m st1) as [[images| | |] st2] eqn:Eplan;
    simpl in *;
    try (exists []; rewrite app_nil_r, E2;
         split; [exact E1 | split; [constructor | intros n d []]]).
  destruct (plan_ordered order args m st1 images st2 Hwf Eplan)
    as [Hnd Htopo].
  destruct (process_all_processing_log W m (print_tag args) target_for_print
              (search_path args) images [] st2)
    as (started & rest & -> & E3).
  exists started.
  assert (Hstarted : NoDup started
                     /\ forall n d, In n started -> dep m n d ->
                                    before started d n).
  { split; [now apply NoDup_app_remove_r in Hnd|].
    intros n d Hn Hdep. apply (before_prefix started rest d n Hnd Hn).
    apply Htopo; [apply in_app_iff; now left | assumption]. }
  split; [|exact Hstarted].
  destruct (process_all W (started ++ rest) m [] (print_tag args)
              target_for_print (search_path args) st2)
    as [[generated_tags| | |] st3]; simpl in *;
    try (now rewrite E3, E2, E1).
  destruct (print_tag args); [|destruct (given (target_image args))];
    simpl; rewrite processing_log_app; simpl;
    now rewrite app_nil_r, E3, E2, E1.
Qed.

Lemma chain_configs_wf : dict_wf chain_configs.
Proof.
  repeat constructor; simpl; intros H;
    repeat (destruct H as [H|H]; [discriminate|]); exact H.
Qed.

Lemma images_are_processed_after_their_dependencies_witness :
  exists started,
    processing_log
      (events (snd (build_images (demo_world (scripted_runtime 0 0 0 0 0))
                                 insertion_order
                                 (mkArgs None false (py "devkit.json")
                                         [py "images"])
                                 chain_configs initial_state)))
    = started
    /\ NoDup started
    /\ forall n d, In n started -> dep chain_configs n d -> before started d n.
Proof.
  exact (images_are_processed_after_their_dependencies
           (demo_world (scripted_runtime 0 0 0 0 0)) insertion_order
           (mkArgs None false (py "devkit.json") [py "images"])
           chain_configs initial_state chain_configs_wf).
Defined.

(** ** How a run ends *)

Lemma no_clean_exit_ret : forall (A : Type) (a : A), no_clean_exit (ret a).
Proof. intros A a st. exact I. Qed.

Lemma no_clean_exit_lift : forall (A : Type) (o : Outcome A),
  not_clean o -> no_clean_exit (lift o).
Proof. intros A o H st. exact H. Qed.

Lemma no_clean_exit_sys_exit : forall (A : Type) code,
  code <> 0%Z -> no_clean_exit (@sys_exit A code).
Proof. intros A code H st. exact H. Qed.

Lemma no_clean_exit_raise : forall (A : Type) e, no_clean_exit (@raise A e).
Proof. intros A e st. exact I. Qed.

Lemma no_clean_exit_print : forall m, no_clean_exit (print m).
Proof. intros m st. exact I. Qed.

Lemma no_clean_exit_bind : forall (A B : Type) (c : M A) (k : A -> M B),
  no_clean_exit c -> (forall a, no_clean_exit (k a)) ->
  no_clean_exit (bind c k).
Proof.
  intros A B c k Hc Hk st. unfold bind. specialize (Hc st).
  destruct (c st) as [[a| | |] st']; simpl in *; try assumption.
  apply Hk.
Qed.

Lemma no_clean_exit_try_except :
  forall (A : Type) (c : M A) (handler : Exn -> M A),
    no_clean_exit c -> (forall e, no_clean_exit (handler e)) ->
    no_clean_exit (try_except c handler).
Proof.
  intros A c handler Hc Hh st. unfold try_except. specialize (Hc st).
  destruct (c st) as [[a| |e|] st']; simpl in *; try assumption.
  apply Hh.
Qed.

Lemma no_clean_exit_when : forall cond body,
  no_clean_exit body -> no_clean_exit (when cond body).
Proof. intros [|] body H; [exact H | apply no_clean_exit_ret]. Qed.

Ltac no_clean_exit_steps :=
  repeat first
    [ apply no_clean_exit_ret | apply no_clean_exit_raise
    | apply no_clean_exit_print
    | apply no_clean_exit_sys_exit; discriminate
    | apply no_clean_exit_when
    | apply no_clean_exit_bind; [|intros ?]
    | match goal with
      | |- no_clean_exit (if ?b then _ else _) => destruct b
      | |- no_clean_exit (match ?x with _ => _ end) => destruct x
      end ].

Lemma not_clean_read_file : forall W p, not_clean (read_file W p).
Proof. intros W p. unfold read_file. now destruct (fs W p). Qed.

Lemma no_clean_exit_load_config : forall W config_path,
  no_clean_exit (load_config W config_path).
Proof.
  intros W config_path. unfold load_config.
  destruct (path_exists W config_path); [|apply no_clean_exit_ret].
  apply no_clean_exit_bind;
    [apply no_clean_exit_lift, not_clean_read_file | intros content].
  no_clean_exit_steps.
Qed.

Lemma no_clean_exit_load_image_configs : forall W search_paths all_configs,
  no_clean_exit (load_image_configs_from W search_paths all_configs).
Proof.
  intros W. induction search_paths as [|path search_paths IH];
    intros all_configs; simpl; [apply no_clean_exit_ret|].
  destruct (path_exists W _); [|apply IH].
  apply no_clean_exit_bind; [apply no_clean_exit_print | intros _].
  apply no_clean_exit_bind;
    [apply no_clean_exit_lift, not_clean_read_file | intros content].
  no_clean_exit_steps; apply IH.
Qed.

Lemma no_clean_exit_check_target : forall args names,
  no_clean_exit (check_target args names).
Proof. intros args names. unfold check_target. no_clean_exit_steps. Qed.

Lemma no_clean_exit_plan : forall order args (m : ImageConfigsMap),
  dict_wf m -> no_clean_exit (plan order args m).
Proof.
  intros order args m Hwf. unfold plan.
  destruct (given (target_image args)) as [t|].
  - apply no_clean_exit_bind; [|intros images; no_clean_exit_steps].
    intros st. destruct (dict_mem t m) eqn:Hmem.
    + destruct (get_dependency_subgraph_spec order m t st Hwf Hmem)
        as [[_ [c ->]] | [_ (l & -> & _)]]; simpl; [discriminate | exact I].
    + unfold get_dependency_subgraph. rewrite Hmem. exact I.
  - intros st.
    destruct (full_order_spec order m st Hwf)
      as [[_ [c ->]] | [_ (l & -> & _)]]; simpl; [discriminate | exact I].
Qed.

Lemma no_clean_exit_manage_docker_image :
  forall W tag dockerfile_path args context_path,
    no_clean_exit (manage_docker_image W tag dockerfile_path args context_path).
Proof.
  intros W tag dockerfile_path args context_path st.
  pose proof (manage_docker_image_managed W tag dockerfile_path args
                context_path st) as H.
  destruct (fst (manage_docker_image W tag dockerfile_path args context_path
                   st)) as [[]|code|e|]; simpl in *; auto.
Qed.

Lemma no_clean_exit_bind_build_args :
  forall image_name items generated_tags a1 a2,
    no_clean_exit (bind_build_args image_name items generated_tags a1 a2).
Proof.
  intros image_name. induction items as [|[arg_name dep_name] items IH];
    intros generated_tags a1 a2; simpl; no_clean_exit_steps. apply IH.
Qed.

Lemma not_clean_calculate_sha256 : forall W dockerfile_path sorted_build_args,
  not_clean (calculate_sha256 W dockerfile_path sorted_build_args).
Proof.
  intros W dockerfile_path sorted_build_args. unfold calculate_sha256.
  pose proof (not_clean_read_file W dockerfile_path) as Hread.
  destruct (read_file W dockerfile_path) as [content| | |]; simpl in *;
    try assumption.
  generalize (hashlib.update hashlib.sha256 content). intros hasher.
  revert hasher.
  induction sorted_build_args as [|arg args IH]; intros hasher;
    cbn [update_with_args]; [exact I|].
  destruct (encode_utf8 arg); [apply IH | exact I].
Qed.

Lemma no_clean_exit_address_image :
  forall W image_name dependencies generated_tags search_paths,
    no_clean_exit
      (address_image W image_name dependencies generated_tags search_paths).
Proof.
  intros W image_name dependencies generated_tags search_paths.
  unfold address_image.
  apply no_clean_exit_bind; [apply no_clean_exit_print | intros _].
  destruct (find_dockerfile W search_paths _) as [found|];
    [|no_clean_exit_steps].
  destruct (negb (truthy found)); [no_clean_exit_steps|].
  apply no_clean_exit_bind; [apply no_clean_exit_bind_build_args | intros args].
  apply no_clean_exit_bind.
  - apply no_clean_exit_try_except;
      [apply no_clean_exit_lift, not_clean_calculate_sha256 | intros e].
    no_clean_exit_steps.
  - intros sha. no_clean_exit_steps. intros st. exact I.
Qed.

(** How [process_image] ends: when it leaves with [sys.exit(0)], the image
    is the one whose tag was asked for, and the last line printed is the
    tag that was computed for it. *)
Lemma process_image_outcome :
  forall W image_name dependencies generated_tags print_tag_mode target
         search_paths st,
    let r := process_image W image_name dependencies generated_tags
                           print_tag_mode target search_paths st in
    match fst r with
    | Exit 0 =>
        is_print_target print_tag_mode target image_name = true
        /\ exists tag log,
             events (snd r) = log ++ [Print (PlainTag tag)]
             /\ In (Print (TagFor image_name tag)) log
    | Exit _ => True
    | Unfinished => False
    | _ => True
    end.
Proof.
  intros W image_name dependencies generated_tags print_tag_mode target
         search_paths st r. subst r. unfold process_image, bind.
  pose proof (no_clean_exit_address_image W image_name dependencies
                generated_tags search_paths st) as Haddr.
  destruct (address_image W image_name dependencies generated_tags
              search_paths st) as [[b|code| |] st1] eqn:Eb; simpl in *;
    try exact I; try contradiction;
    [|destruct code as [|p|p]; [congruence | exact I | exact I]].
  destruct (address_image_inv _ _ _ _ _ _ _ _ Eb)
    as (found & sha & Hfind & Htruthy & Htags & Hsha).
  rewrite (address_image_run W image_name dependencies generated_tags
             search_paths st found sha Hfind Htruthy Htags Hsha) in Eb.
  injection Eb as <- <-. cbn [current_tag dockerfile build_args context tags].
  set (tag := get_image_tag (REPO st) image_name sha).
  match goal with
  | |- context [manage_docker_image W tag ?df ?ba ?ctx ?s] =>
      pose proof (no_clean_exit_manage_docker_image W tag df ba ctx s)
        as Hmanage;
      destruct (never_manage_docker_image is_fallback is_fallback_only
                  W tag df ba ctx s) as (added & Eadded & _);
      destruct (manage_docker_image W tag df ba ctx s)
        as [[[]|code| |] st2]
  end; simpl in *; try exact I; try contradiction;
    [|destruct code as [|p|p]; [congruence | exact I | exact I]].
  rewrite report_image_run.
  destruct (is_print_target print_tag_mode target image_name);
    simpl; [|exact I].
  split; [reflexivity|]. exists tag. eexists. split; [reflexivity|].
  rewrite Eadded. apply in_app_iff. left. apply in_app_iff. right.
  right. apply in_app_iff. right. right. now left.
Qed.

Lemma process_all_outcome :
  forall W (m : ImageConfigsMap) print_tag_mode target search_paths images
         generated_tags st,
    let r := process_all W images m generated_tags print_tag_mode target
                         search_paths st in
    match fst r with
    | Exit 0 =>
        exists image_name tag log,
          In image_name images
          /\ is_print_target print_tag_mode target image_name = true
          /\ events (snd r) = log ++ [Print (PlainTag tag)]
          /\ In (Print (TagFor image_name tag)) log
    | Exit _ => True
    | Unfinished => False
    | _ => True
    end.
Proof.
  intros W m print_tag_mode target search_paths.
  induction images as [|image_name images IH]; intros generated_tags st;
    simpl; [exact I|].
  destruct (dict_get image_name m) as [image_conf|]; [|exact I].
  unfold bind.
  pose proof (process_image_outcome W image_name (deps image_conf)
                generated_tags print_tag_mode target search_paths st) as Hone.
  simpl in Hone.
  destruct (process_image W image_name (deps image_conf) generated_tags
              print_tag_mode target search_paths st)
    as [[r|code| |] st1]; simpl in *; try exact I; try contradiction.
  - specialize (IH (snd r) st1). simpl in IH.
    destruct (process_all W images m (snd r) print_tag_mode target
                search_paths st1) as [[g|code| |] st2]; simpl in *;
      try exact I; try contradiction.
    destruct code as [|p|p]; try exact I.
    destruct IH as (x & tag & log & Hin & Hx & E & Hlog).
    exists x, tag, log. auto.
  - destruct code as [|p|p]; try exact I.
    destruct Hone as (Ht & tag & log & E & Hlog).
    exists image_name, tag, log. auto.
Qed.

Lemma given_Some : forall target t, given target = Some t -> target = Some t.
Proof.
  intros [s|] t H; simpl in H; [|discriminate].
  destruct (truthy s); [now injection H as -> | discriminate].
Qed.

Lemma check_target_ret : forall args names st target_for_print st1,
  check_target args names st = (Ret target_for_print, st1) ->
  forall t, target_for_print = Some t -> target_image args = Some t.
Proof.
  intros args names st target_for_print st1 H t ->.
  unfold check_target in H.
  destruct (print_tag args); destruct (given (target_image args)) as [s|] eqn:G;
    try (destruct (negb (mem s names)));
    repeat (apply bind_ret_inv in H; destruct H as (? & ? & _ & H));
    try discriminate.
  unfold ret in H. injection H as <- _. now apply given_Some.
Qed.

Lemma build_images_outcome :
  forall W order args (m : ImageConfigsMap) st,
    dict_wf m ->
    let r := build_images W order args m st in
    match fst r with
    | Exit 0 =>
        print_tag args = true
        /\ exists t tag log,
             target_image args = Some t
             /\ events (snd r) = log ++ [Print (PlainTag tag)]
             /\ In (Print (TagFor t tag)) log
    | Exit _ => True
    | Unfinished => False
    | _ => True
    end.
Proof.
  intros W order args m st Hwf r. subst r. unfold build_images, bind.
  pose proof (no_clean_exit_check_target args (dict_keys m) st) as H1.
  destruct (check_target args (dict_keys m) st)
    as [[target_for_print|code| |] st1] eqn:Echeck; simpl in *;
    try exact I; try contradiction;
    [|destruct code as [|p|p]; [congruence | exact I | exact I]].
  pose proof (no_clean_exit_plan order args m Hwf st1) as H2.
  destruct (plan order args m st1) as [[images|code| |] st2]; simpl in *;
    try exact I; try contradiction;
    [|destruct code as [|p|p]; [congruence | exact I | exact I]].
  pose proof (process_all_outcome W m (print_tag args) target_for_print
                (search_path args) images [] st2) as H3.
  simpl in H3.
  destruct (process_all W images m [] (print_tag args) target_for_print
              (search_path args) st2) as [[g|code| |] st3]; simpl in *;
    try exact I; try contradiction.
  - destruct (print_tag args); simpl; [exact I|].
    destruct (given (target_image args)); exact I.
  - destruct code as [|p|p]; try exact I.
    destruct H3 as (x & tag & log & _ & Hx & E & Hlog).
    unfold is_print_target in Hx. apply andb_true_iff in Hx.
    destruct Hx as [Hpt Hx]. split; [assumption|].
    destruct target_for_print as [t|]; [|discriminate].
    apply str_eqb_eq in Hx. subst x.
    exists t, tag, log. split; [|now split].
    exact (check_target_ret _ _ _ _ _ Echeck t eq_refl).
Qed.

Lemma main_outcome :
  forall W order args st,
    let r := main W order args st in
    match fst r with
    | Exit 0 =>
        print_tag args = true
        /\ exists t tag log,
             target_image args = Some t
             /\ events (snd r) = log ++ [Print (PlainTag tag)]
             /\ In (Print (TagFor t tag)) log
    | Exit _ => True
    | Unfinished => False
    | _ => True
    end.
Proof.
  intros W order args st r. subst r. unfold main, bind.
  pose proof (no_clean_exit_load_config W (config args) st) as H1.
  destruct (load_config W (config args) st) as [[[]|code| |] st1];
    simpl in *; try exact I; try contradiction;
    [|destruct code as [|p|p]; [congruence | exact I | exact I]].
  pose proof (no_clean_exit_load_image_configs W (search_path args) [] st1)
    as H2.
  fold (load_image_configs W (search_path args) st1) in H2 |- *.
  destruct (load_image_configs W (search_path args) st1)
    as [[m|code| |] st2] eqn:E; simpl in *; try exact I; try contradiction;
    [|destruct code as [|p|p]; [congruence | exact I | exact I]].
  apply build_images_outcome.
  exact (load_image_configs_wf W (search_path args) st1 m st2 E).
Qed.



(** X22.  [main] always finishes: it returns, leaves through [sys.exit]
    or dies of an exception.  The loops of the embedding (the worklist of
    [get_dependency_subgraph], the search for a cycle and the rounds of
    the topological sort) are never cut short. *)
Theorem main_finishes :
  forall (W : World) (order : SetOrder) (args : Args) (st : State),
    fst (main W order args st) = Ret tt
    \/ (exists code, fst (main W order args st) = Exit code)
    \/ (exists e, fst (main W order args st) = Raise e).
Proof.
  intros W order args st. pose proof (main_outcome W order args st) as Hout.
  simpl in Hout.
  destruct (fst (main W order args st)) as [[]|code|e|];
    [now left | right; left; now exists code | right; right; now exists e
    | contradiction].
Qed.

(** X23.  Once the image configs are loaded, a target that is not one of
    the declared images is rejected before anything else is done: the run
    ends with exit code 1 after the error message (and, unless the tag was
    asked for, the list of the valid names); no order is computed, no
    image is processed and no command is run. *)
Theorem unknown_target_is_rejected :
  forall (W : World) (order : SetOrder) (args : Args) (m : ImageConfigsMap)
         (st : State) (t : pystr),
    target_image args = Some t ->
    truthy t = true ->
    dict_mem t m = false ->
    build_images W order args m st
    = (Exit 1,
       mkState (REPO st)
               (events st
                ++ (if print_tag args
                    then [Print (PrintTagInvalidTarget t)]
                    else [Print (InvalidTarget t);
                          Print (ChooseFrom (dict_keys m))]))).
Proof.
  intros W order args m st t Ht Htruthy Hmem.
  assert (Hnames : mem t (dict_keys m) = false).
  { apply mem_not_In. now apply dict_mem_not_In. }
  unfold build_images, check_target, given. rewrite Ht, Htruthy, Hnames.
  destruct (print_tag args); unfold bind, print, sys_exit; simpl;
    rewrite <- ?app_assoc; reflexivity.
Qed.

Lemma unknown_target_is_rejected_witness :
  build_images (demo_world (scripted_runtime 0 0 0 0 0)) insertion_order
               (mkArgs (Some (py "e")) false (py "devkit.json") [py "images"])
               chain_configs initial_state
  = (Exit 1,
     mkState [] [Print (InvalidTarget (py "e"));
                 Print (ChooseFrom [py "a"; py "b"; py "c"; py "d"])]).
Proof.
  exact (unknown_target_is_rejected
           (demo_world (scripted_runtime 0 0 0 0 0)) insertion_order
           (mkArgs (Some (py "e")) false (py "devkit.json") [py "images"])
           chain_configs initial_state (py "e") eq_refl eq_refl eq_refl).
Defined.
